(** * Hierarchical species-count inference (species.py): a shallow embedding

The development follows [ThinkStats/species.py]: the flattened suites
[Species2], [Species3], [Species5], the per-N suites [Species],
[Species4], [Species6] and [OversampledDirichlet].
It goes on to the rest of the file ([Subject], [ReadData], the curve
helpers, [TestOversampledDirichlet], [MakePosterior], [ProcessSubject])
and to the prior of [ThinkStats/train3.py].

Modelling conventions.
- A [numpy.double] is a value of [double]: an exact real or one of the
  IEEE special values (+inf, -inf, nan).  Rounding, overflow to inf,
  underflow to 0 and the sign of zero are not represented; the special
  values follow IEEE 754 (x/0, 0/0, log 0, inf-inf, nan propagation).
- A [numpy.int] array is a [list Z] whose additions wrap at 64 bits.
  Observed counts are taken to be 64-bit values.
- Python exceptions are the [Raise] branch of [result].  A raised exception ends the
  computation; the partly updated object is not represented.
- [numpy.random] is the state [rng]: an arbitrary table of gamma variates
  indexed by call number, coordinate and shape, and the number of calls
  made so far.  Every theorem quantifies over the table.  The draws from
  a table of thinkbayes ([Random()] of a Pmf or Cdf) are parameters.
- The module [thinkbayes] is imported by species.py but is not part of the
  sources at hand; what is used of it is modelled from the specification
  and marked as such. *)

From Stdlib Require Import ZArith List Bool Lia Reals Lra.
From Stdlib Require Import Permutation Sorted.
From Stdlib Require String Ascii.
Import ListNotations.
Import String.StringSyntax.
Delimit Scope string_scope with string.

Set Implicit Arguments.

Local Open Scope Z_scope.

(** ** Exceptions and the computation monad *)

Inductive exn : Type :=
| IndexError
| ValueError
| AttributeError.

Inductive result (A : Type) : Type :=
| Ok (a : A)
| Raise (e : exn).

Arguments Ok {A} a.
Arguments Raise {A} e.

Definition rbind {A B} (r : result A) (f : A -> result B) : result B :=
  match r with
  | Ok a => f a
  | Raise e => Raise e
  end.

Fixpoint rmapM {A B} (f : A -> result B) (l : list A) : result (list B) :=
  match l with
  | [] => Ok []
  | a :: l' => rbind (f a) (fun b => rbind (rmapM f l') (fun bs => Ok (b :: bs)))
  end.

(** The global generator of [numpy.random]: the variates it will hand out and
    how many calls of [gamma] were made. *)
Record rng : Type := mkRng {
  draw : nat -> nat -> Z -> R;
  calls : nat
}.

Definition M (A : Type) : Type := rng -> result (A * rng).

Definition ret {A} (a : A) : M A := fun g => Ok (a, g).

Definition bind {A B} (c : M A) (f : A -> M B) : M B :=
  fun g => match c g with
           | Ok (a, g') => f a g'
           | Raise e => Raise e
           end.

Definition lift {A} (r : result A) : M A :=
  fun g => match r with
           | Ok a => Ok (a, g)
           | Raise e => Raise e
           end.

Declare Scope py_scope.
Delimit Scope py_scope with py.
Notation "x <- c ;; k" := (bind c (fun x => k))
  (at level 61, c at next level, right associativity) : py_scope.
Notation "x <~ r ;; k" := (bind (lift r) (fun x => k))
  (at level 61, r at next level, right associativity) : py_scope.
Open Scope py_scope.

(** [for _ in range(k): acc = body(acc)] *)
Fixpoint for_range {A} (k : nat) (body : A -> M A) (acc : A) : M A :=
  match k with
  | O => ret acc
  | S k' => acc' <- body acc ;; for_range k' body acc'
  end.

(** [for i, x in enumerate(xs, start): st = body(i, x, st)] *)
Fixpoint for_enum {A S} (body : Z -> A -> S -> M S) (start : Z) (xs : list A) (st : S) : M S :=
  match xs with
  | [] => ret st
  | x :: xs' => st' <- body start x st ;; for_enum body (start + 1) xs' st'
  end.

(** ** numpy.double *)

Inductive double : Type :=
| Fin (r : R)
| PInf
| NInf
| NaN.

Definition Rsgn (r : R) : comparison :=
  match total_order_T 0%R r with
  | inleft (left _) => Gt
  | inleft (right _) => Eq
  | inright _ => Lt
  end.

Definition of_int (z : Z) : double := Fin (IZR z).

Definition fneg (a : double) : double :=
  match a with
  | Fin r => Fin (- r)%R
  | PInf => NInf
  | NInf => PInf
  | NaN => NaN
  end.

Definition fadd (a b : double) : double :=
  match a, b with
  | NaN, _ | _, NaN => NaN
  | Fin x, Fin y => Fin (x + y)%R
  | PInf, NInf | NInf, PInf => NaN
  | PInf, _ | _, PInf => PInf
  | NInf, _ | _, NInf => NInf
  end.

Definition fsub (a b : double) : double := fadd a (fneg b).

(** The sign of [a] carried onto an infinity; [0 * inf] is nan. *)
Definition signed_inf (s : comparison) (pos : bool) : double :=
  match s with
  | Eq => NaN
  | Gt => if pos then PInf else NInf
  | Lt => if pos then NInf else PInf
  end.

Definition fmul (a b : double) : double :=
  match a, b with
  | NaN, _ | _, NaN => NaN
  | Fin x, Fin y => Fin (x * y)%R
  | Fin x, PInf | PInf, Fin x => signed_inf (Rsgn x) true
  | Fin x, NInf | NInf, Fin x => signed_inf (Rsgn x) false
  | PInf, PInf | NInf, NInf => PInf
  | PInf, NInf | NInf, PInf => NInf
  end.

Definition fdiv (a b : double) : double :=
  match a, b with
  | NaN, _ | _, NaN => NaN
  | Fin x, Fin y =>
      match Rsgn y with
      | Eq => signed_inf (Rsgn x) true
      | _ => Fin (x / y)%R
      end
  | Fin _, PInf | Fin _, NInf => Fin 0%R
  | PInf, Fin y => match Rsgn y with Lt => NInf | _ => PInf end
  | NInf, Fin y => match Rsgn y with Lt => PInf | _ => NInf end
  | _, _ => NaN
  end.

Definition fexp (a : double) : double :=
  match a with
  | Fin x => Fin (exp x)
  | PInf => PInf
  | NInf => Fin 0%R
  | NaN => NaN
  end.

Definition flog (a : double) : double :=
  match a with
  | Fin x =>
      match Rsgn x with
      | Gt => Fin (ln x)
      | Eq => NInf
      | Lt => NaN
      end
  | PInf => PInf
  | NInf => NaN
  | NaN => NaN
  end.

(** [a < b] on doubles; false when either side is nan. *)
Definition flt (a b : double) : bool :=
  match a, b with
  | NaN, _ | _, NaN => false
  | Fin x, Fin y => match Rsgn (y - x)%R with Gt => true | _ => false end
  | NInf, NInf | PInf, PInf => false
  | NInf, _ => true
  | _, PInf => true
  | _, _ => false
  end.

(** [numpy.maximum]: nan wins. *)
Definition fmaximum (a b : double) : double :=
  match a, b with
  | NaN, _ => NaN
  | _, NaN => NaN
  | _, _ => if flt a b then b else a
  end.

(** ** 64-bit integers of [numpy.int] arrays *)

Definition wrap64 (z : Z) : Z := (z + 2 ^ 63) mod 2 ^ 64 - 2 ^ 63.

Definition add64 (a b : Z) : Z := wrap64 (a + b).
Definition sub64 (a b : Z) : Z := wrap64 (a - b).

(** ** numpy arrays of one dimension *)

Module Np.

Definition len {A} (l : list A) : Z := Z.of_nat (length l).

(** [numpy.ones(n)] and [numpy.zeros(n)]: a negative size is refused. *)
Definition full {A} (x : A) (n : Z) : result (list A) :=
  if n <? 0 then Raise ValueError else Ok (repeat x (Z.to_nat n)).

(** [l[i]] with Python's negative indices. *)
Definition getitem {A} (l : list A) (i : Z) : result A :=
  let j := if i <? 0 then len l + i else i in
  if (j <? 0) || (len l <=? j) then Raise IndexError
  else match nth_error l (Z.to_nat j) with
       | Some x => Ok x
       | None => Raise IndexError
       end.

(** Where a slice bound lands: negative bounds count from the end, and the
    result is clipped to the array. *)
Definition bound {A} (l : list A) (i : Z) : nat :=
  Z.to_nat (if i <? 0 then len l + i else i).

(** [l[:m]] *)
Definition take {A} (l : list A) (m : Z) : list A := firstn (bound l m) l.

(** [l[a:]] *)
Definition drop {A} (l : list A) (a : Z) : list A := skipn (bound l a) l.

(** [l[i] = f(l[i])] for an index already checked by [getitem]. *)
Fixpoint update {A} (l : list A) (i : nat) (f : A -> A) : list A :=
  match l, i with
  | [], _ => []
  | x :: l', O => f x :: l'
  | x :: l', S i' => x :: update l' i' f
  end.

(** [l[i] += d] on a scalar slot: [IndexError] out of range. *)
Definition setitem_upd {A} (l : list A) (i : Z) (f : A -> A) : result (list A) :=
  let j := if i <? 0 then len l + i else i in
  if (j <? 0) || (len l <=? j) then Raise IndexError
  else Ok (update l (Z.to_nat j) f).

Fixpoint zip_with {A B C} (f : A -> B -> C) (xs : list A) (ys : list B) : list C :=
  match xs, ys with
  | x :: xs', y :: ys' => f x y :: zip_with f xs' ys'
  | _, _ => []
  end.

(** [xs op ys] with broadcasting: equal lengths, or one side of length 1. *)
Definition bcast {A B C} (f : A -> B -> C) (xs : list A) (ys : list B) : result (list C) :=
  if Nat.eqb (length xs) (length ys) then Ok (zip_with f xs ys)
  else match xs, ys with
       | [x], _ => Ok (map (f x) ys)
       | _, [y] => Ok (map (fun x => f x y) xs)
       | _, _ => Raise ValueError
       end.

(** [xs op= ys]: the result must have the shape of [xs]. *)
Definition inplace {A B} (f : A -> B -> A) (xs : list A) (ys : list B) : result (list A) :=
  if Nat.eqb (length xs) (length ys) then Ok (zip_with f xs ys)
  else match ys with
       | [y] => Ok (map (fun x => f x y) xs)
       | _ => Raise ValueError
       end.

Definition sum (l : list double) : double := fold_left fadd l (Fin 0%R).

Definition isum (l : list Z) : Z := fold_left add64 l 0.

Fixpoint cumsum_from (acc : double) (l : list double) : list double :=
  match l with
  | [] => []
  | x :: l' => let acc' := fadd acc x in acc' :: cumsum_from acc' l'
  end.

Definition cumsum (l : list double) : list double :=
  match l with
  | [] => []
  | x :: l' => x :: cumsum_from x l'
  end.

(** [numpy.max]: refuses an empty array. *)
Definition max (l : list double) : result double :=
  match l with
  | [] => Raise ValueError
  | x :: l' => Ok (fold_left fmaximum l' x)
  end.

(** [numpy.random.gamma(shape)]: one variate per entry of [shape]; a shape
    that is not positive is refused. *)
Definition gamma (shape : list Z) : M (list double) :=
  fun g =>
    if existsb (fun a => (a <=? 0)) shape then Raise ValueError
    else
      let k := calls g in
      let xs := map (fun ja => Fin (draw g k (fst ja) (snd ja)))
                    (combine (seq 0%nat (length shape)) shape) in
      Ok (xs, mkRng (draw g) (S k)).

End Np.

(** [pmf.Set(k, v)] on a dictionary kept as the list of its items. *)
Fixpoint dict_set {V} (k : Z) (v : V) (items : list (Z * V)) : list (Z * V) :=
  match items with
  | [] => [(k, v)]
  | (k', v') :: rest =>
      if k' =? k then (k, v) :: rest else (k', v') :: dict_set k v rest
  end.

(** [dict(zip(keys, values))] *)
Definition dict_zip {V} (keys : list Z) (values : list V) : list (Z * V) :=
  fold_left (fun items kv => dict_set (fst kv) (snd kv) items) (combine keys values) [].

(** ** What species.py uses of thinkbayes *)

Module thinkbayes.

Fixpoint choose (n m : nat) : nat :=
  match n, m with
  | _, O => 1%nat
  | O, S _ => 0%nat
  | S n', S m' => (choose n' m' + choose n' (S m'))%nat
  end.

(** Modelled from the spec: [thinkbayes.BinomialCoef] is not in the sources;
    the spec describes it as "the number of ways the observed m categories
    could have been selected out of N possible categories (C(N, m))". *)
Definition BinomialCoef (n m : Z) : double :=
  if (n <? 0) || (m <? 0) then Fin 0%R
  else of_int (Z.of_nat (choose (Z.to_nat n) (Z.to_nat m))).

(** Modelled from the spec: [thinkbayes.Beta] is not in the sources; the spec
speaks of "a Beta distribution with shape parameters" and species.py builds
it from the two of them. *)
Record Beta : Type := mkBeta {
  alpha : Z;
  beta : Z
}.

(** Modelled from the spec: [thinkbayes.Pmf] is not in the sources; the spec
    describes it as a "mapping from a hypothesis value ... to a non-negative
    weight".  It is kept as the list of its items. *)
Definition Pmf (V : Type) : Type := list (V * double).

Definition Total {V} (pmf : Pmf V) : double := Np.sum (map snd pmf).

(** Modelled from the spec: [Pmf.Normalize] is not in the sources; the spec
    says it "divides all weights by their sum", that the result is undefined
    when the sum is zero, and that the caller of [TrimMarginal] records "the
    retained probability mass", which is what [Normalize] hands back. *)
Definition Normalize {V} (pmf : Pmf V) : Pmf V * double :=
  let total := Total pmf in
  (map (fun vp => (fst vp, fdiv (snd vp) total)) pmf, total).

(** What the sources at hand do not contain and the spec does not fix: the
    multinomial probability of a count vector under a simplex sample, the
    discretisation of a Beta distribution, cumulative distributions with
    their percentiles, and the [Random()] of a table, which draws one of
    its values.  They are parameters of the development. *)
Class Absent : Type := {
  multinomial : list double -> list Z -> double;
  Cdf : Type;
  MakePmf : Beta -> Pmf double;
  MakeCdf : Beta -> Cdf;
  MakeCdfFromPmf : Pmf double -> Cdf;
  Percentile : Cdf -> Z -> double;
  Pmf_Random : Pmf double -> M double;
  Cdf_Random : Cdf -> M double
}.

(** Modelled from the spec: [thinkbayes.Dirichlet] is not in the sources; the
    spec gives it "a concentration-parameter vector of length N (all entries
    initialized to 1)". *)
Record Dirichlet : Type := mkDirichlet {
  n : Z;
  params : list Z
}.

Definition Dirichlet_init (n : Z) : result Dirichlet :=
  rbind (Np.full 1 n) (fun params => Ok (mkDirichlet n params)).

(** Modelled from the spec: "[Update(data)]: [params[i] += data[i]] for [i]
    in range of [data]". *)
Definition Dirichlet_Update (self : Dirichlet) (data : list Z) : result Dirichlet :=
  rbind (fold_left
           (fun acc id => rbind acc (fun ps =>
              Np.setitem_upd ps (fst id) (fun p => p + snd id)))
           (combine (map Z.of_nat (seq 0%nat (length data))) data)
           (Ok (params self)))
        (fun ps => Ok (mkDirichlet (n self) ps)).

(** Modelled from the spec: "[MarginalBeta(i)]: returns a Beta distribution
    with shape parameters [(params[i], sum(params) - params[i])]". *)
Definition Dirichlet_MarginalBeta (self : Dirichlet) (i : Z) : result Beta :=
  rbind (Np.getitem (params self) i) (fun a =>
  Ok (mkBeta a (fold_left Z.add (params self) 0 - a))).

Section WithAbsent.

Context {TB : Absent}.

(** Modelled from the spec: "[Random()]: one normalized Gamma-derived
    simplex draw". *)
Definition Dirichlet_Random (self : Dirichlet) : M (list double) :=
  p <- Np.gamma (params self) ;;
  ret (map (fun x => fdiv x (Np.sum p)) p).

(** Modelled from the spec: "[Likelihood(data)]: ... drawing one random
    vector of independent Gamma(params[i], 1) variates, normalizing by
    their sum to obtain a simplex sample, then evaluating the multinomial
    probability of [data] under that sample".  The sample is the one that
    [self.Random()] returns: [Random] is the [Random] of the object the
    method is called on, which a subclass may have overridden. *)
Definition Dirichlet_Likelihood_with (Random : M (list double)) (data : list Z)
  : M double :=
  p <- Random ;;
  ret (multinomial p data).

(** [Likelihood] on an object of the class [Dirichlet] itself. *)
Definition Dirichlet_Likelihood (self : Dirichlet) (data : list Z) : M double :=
  Dirichlet_Likelihood_with (Dirichlet_Random self) data.

End WithAbsent.

(** Modelled from the spec: [thinkbayes.Suite] is not in the sources.  A
    suite is the outer distribution: its hypotheses with their weights, in
    the order in which [Values()] and [Items()] enumerate them.
    [iterations] is the attribute a subclass may or may not have set. *)
Record Suite (H : Type) : Type := mkSuite {
  d : Pmf H;
  iterations : option Z
}.

(** Modelled from the spec: [Suite.__init__(hypos)] builds "a discrete prior
    over candidate values of N"; the spec does not give the weights, equal
    weights are taken. *)
Definition Suite_init {H} (hypos : list H) : Pmf H :=
  map (fun h => (h, fdiv (Fin 1%R) (of_int (Np.len hypos)))) hypos.

Fixpoint mapM {A B} (f : A -> M B) (l : list A) : M (list B) :=
  match l with
  | [] => ret []
  | a :: l' => b <- f a ;; bs <- mapM f l' ;; ret (b :: bs)
  end.

(** Modelled from the spec: [Suite.Update(data)], for each hypothesis,
    estimates the likelihood with the suite's own [Likelihood] method and
    "multipl[ies] into that N's outer weight"; "after return, outer weights
    are renormalized to sum to 1". *)
Definition Suite_Update {H} (Likelihood : Suite H -> H -> list Z -> M double)
    (self : Suite H) (data : list Z) : M (Suite H) :=
  d1 <- mapM (fun hp => like <- Likelihood self (fst hp) data ;;
                        ret (fst hp, fmul (snd hp) like)) (d self) ;;
  ret (mkSuite (fst (Normalize d1)) (iterations self)).

End thinkbayes.

(** ** Species2: both layers of the hierarchy in one object *)

Module Species2.

Record t : Type := mk {
  ns : list Z;
  probs : list double;
  params : list Z;
  iterations : Z
}.

Definition set_probs (self : t) (p : list double) : t :=
  mk (ns self) p (params self) (iterations self).

Definition set_params (self : t) (p : list Z) : t :=
  mk (ns self) (probs self) p (iterations self).

(** [__init__(self, ns, iterations=1000)] *)
Definition init (ns : list Z) (iterations : Z) : result t :=
  rbind (Np.getitem ns (-1)) (fun last =>
  rbind (Np.full 1 last) (fun params =>
  Ok (mk ns (repeat (Fin 1%R) (length ns)) params iterations))).

(** The body of [for n in self.ns] in [SampleLikelihood]. *)
Definition log_like (row col : list double) (data : list Z) (n : Z) : result double :=
  rbind (Np.getitem col (n - 1)) (fun c =>
  let ps := map (fun r => fdiv r c) row in
  rbind (Np.bcast fmul (map flog ps) (map of_int data)) (fun terms =>
  Ok (Np.sum terms))).

(** [SampleLikelihood] up to [likes = numpy.exp(log_likes)]. *)
Definition SampleLikelihood_exp (self : t) (data : list Z) : M (list double) :=
  gammas <- Np.gamma (params self) ;;
  let m := Np.len data in
  let row := Np.take gammas m in
  let col := Np.cumsum gammas in
  log_likes <~ rmapM (log_like row col data) (ns self) ;;
  mx <~ Np.max log_likes ;;
  ret (map fexp (map (fun x => fsub x mx) log_likes)).

Definition SampleLikelihood (self : t) (data : list Z) : M (list double) :=
  likes <- SampleLikelihood_exp self data ;;
  let m := Np.len data in
  let coefs := map (fun n => thinkbayes.BinomialCoef n m) (ns self) in
  lift (Np.inplace fmul likes coefs).

(** [self.probs *= like; self.probs /= self.probs.sum()] *)
Definition reweight (probs like : list double) : result (list double) :=
  rbind (Np.inplace fmul probs like) (fun probs1 =>
  let total := Np.sum probs1 in
  Ok (map (fun p => fdiv p total) probs1)).

(** [self.params[:m] += data] *)
Definition add_counts (params : list Z) (data : list Z) : result (list Z) :=
  let m := Np.len data in
  rbind (Np.inplace add64 (Np.take params m) data) (fun head =>
  Ok (head ++ Np.drop params m)).

(** [Update] with the number of draws left open: the source writes
    [range(1000)] here. *)
Definition Update_with (draws : nat) (self : t) (data : list Z) : M t :=
  let zeros := repeat (Fin 0%R) (length (ns self)) in
  like <- for_range draws
            (fun like => s <- SampleLikelihood self data ;;
                         lift (Np.inplace fadd like s)) zeros ;;
  probs' <~ reweight (probs self) like ;;
  let self1 := set_probs self probs' in
  params' <~ add_counts (params self1) data ;;
  ret (set_params self1 params').

Definition Update (self : t) (data : list Z) : M t :=
  Update_with 1000 self data.

(** [DistOfN]: [thinkbayes.MakePmfFromDict] is not in the sources; the Pmf it
makes is taken to be the dictionary it is given. *)
Definition DistOfN (self : t) : thinkbayes.Pmf Z :=
  dict_zip (ns self) (probs self).

Definition MarginalBeta (self : t) (n index : Z) : result thinkbayes.Beta :=
  let alpha0 := Np.isum (Np.take (params self) n) in
  rbind (Np.getitem (params self) index) (fun alpha =>
  Ok (thinkbayes.mkBeta alpha (sub64 alpha0 alpha))).

End Species2.

(** ** Species3: Species2 with [self.iterations] draws and a vectorised
    likelihood *)

Module Species3.

Import Species2.

(** [SampleLikelihood] up to [likes = numpy.exp(log_likes)]. *)
Definition SampleLikelihood_exp (self : t) (data : list Z) : M (list double) :=
  gammas <- Np.gamma (params self) ;;
  let m := Np.len data in
  let row := Np.take gammas m in
  first <~ Np.getitem (ns self) 0 ;;
  let col := Np.drop (Np.cumsum gammas) (first - 1) in
  (* array = row / col[:, numpy.newaxis]: one row of ps per entry of col *)
  let array := map (fun c => map (fun r => fdiv r c) row) col in
  (* the shapes (K, len(row)) and (m,) must broadcast, whatever K is *)
  _ <~ Np.bcast (fun _ _ => tt) row data ;;
  terms <~ rmapM (fun ps => Np.bcast fmul (map flog ps) (map of_int data)) array ;;
  let log_likes := map Np.sum terms in
  mx <~ Np.max log_likes ;;
  ret (map fexp (map (fun x => fsub x mx) log_likes)).

Definition SampleLikelihood (self : t) (data : list Z) : M (list double) :=
  likes <- SampleLikelihood_exp self data ;;
  let m := Np.len data in
  let coefs := map (fun n => thinkbayes.BinomialCoef n m) (ns self) in
  lift (Np.inplace fmul likes coefs).

Definition Update (self : t) (data : list Z) : M t :=
  let zeros := repeat (Fin 0%R) (length (ns self)) in
  like <- for_range (Z.to_nat (iterations self))
            (fun like => s <- SampleLikelihood self data ;;
                         lift (Np.inplace fadd like s)) zeros ;;
  probs' <~ reweight (probs self) like ;;
  let self1 := set_probs self probs' in
  params' <~ add_counts (params self1) data ;;
  ret (set_params self1 params').

End Species3.

(** ** Species5: one observed species at a time *)

Module Species5.

Import Species2.

(** [SampleLikelihood(m, count)]: the whole method; no correction factor is
    applied inside it. *)
Definition SampleLikelihood (self : t) (m count : Z) : M (list double) :=
  gammas <- Np.gamma (params self) ;;
  first <~ Np.getitem (ns self) 0 ;;
  let sums := Np.drop (Np.cumsum gammas) (first - 1) in
  gm <~ Np.getitem gammas (m - 1) ;;
  let ps := map (fun s => fdiv gm s) sums in
  let log_likes := map (fun p => fmul (flog p) (of_int count)) ps in
  mx <~ Np.max log_likes ;;
  ret (map fexp (map (fun x => fsub x mx) log_likes)).

(** [unseen_species = [n-m+1 for n in self.ns]] *)
Definition unseen_species (self : t) (m : Z) : list Z :=
  map (fun n => n - m + 1) (ns self).

Definition UpdateOne (self : t) (m count : Z) : M t :=
  let zeros := repeat (Fin 0%R) (length (ns self)) in
  likes <- for_range (Z.to_nat (iterations self))
             (fun likes => s <- SampleLikelihood self m count ;;
                           lift (Np.inplace fadd likes s)) zeros ;;
  likes' <~ Np.inplace fmul likes (map of_int (unseen_species self m)) ;;
  probs' <~ reweight (probs self) likes' ;;
  ret (set_probs self probs').

(** The body of [for i in range(m)] in [Update]. *)
Definition step (i : Z) (count : Z) (self : t) : M t :=
  self1 <- UpdateOne self (i + 1) count ;;
  params' <~ Np.setitem_upd (params self1) i (fun p => add64 p count) ;;
  ret (set_params self1 params').

Definition Update (self : t) (data : list Z) : M t :=
  for_enum step 0 data self.

End Species5.

(** ** The hypotheses of a suite

[Species] and its subclasses only use three things of a hypothesis: its
attribute [n] and its methods [Likelihood] and [Update]. *)

Class Hypo (H : Type) : Type := {
  hypo_n : H -> Z;
  hypo_Likelihood : H -> list Z -> M double;
  hypo_Update : H -> list Z -> result H
}.

(** ** Species: one Dirichlet model per candidate N *)

Module Species.

Import thinkbayes.

Section WithHypothesis.

Context {H : Type} {HI : Hypo H}.

Definition Likelihood (self : Suite H) (hypo : H) (data : list Z) : M double :=
  let dirichlet := hypo in
  match iterations self with
  | None => fun _ => Raise AttributeError
  | Some k =>
      like <- for_range (Z.to_nat k)
                (fun like => x <- hypo_Likelihood dirichlet data ;;
                             ret (fadd like x)) (Fin 0%R) ;;
      let m := Np.len data in
      ret (fmul like (BinomialCoef (hypo_n dirichlet) m))
  end.

(** [Update], with the [Likelihood] method that [thinkbayes.Suite.Update]
    finds on [self]: a subclass may override it. *)
Definition Update_with (Likelihood : Suite H -> H -> list Z -> M double)
    (self : Suite H) (data : list Z) : M (Suite H) :=
  self1 <- Suite_Update Likelihood self data ;;
  d' <~ rmapM (fun hp => rbind (hypo_Update (fst hp) data)
                               (fun h => Ok (h, snd hp))) (d self1) ;;
  ret (mkSuite d' (iterations self1)).

Definition Update (self : Suite H) (data : list Z) : M (Suite H) :=
  Update_with Likelihood self data.

Definition DistOfN (self : Suite H) : Pmf Z :=
  fold_left (fun pmf hp => dict_set (hypo_n (fst hp)) (snd hp) pmf) (d self) [].

End WithHypothesis.

Section WithAbsent.

Context {TB : Absent}.

#[global] Instance Dirichlet_Hypo : Hypo Dirichlet := {
  hypo_n := n;
  hypo_Likelihood := Dirichlet_Likelihood;
  hypo_Update := Dirichlet_Update
}.

(** [__init__(self, ns, iterations=1000)] *)
Definition init (ns : list Z) (iterations : Z) : result (Suite Dirichlet) :=
  rbind (rmapM Dirichlet_init ns) (fun hypos =>
  Ok (mkSuite (Suite_init hypos) (Some iterations))).

End WithAbsent.

End Species.

(** ** Species4: Species, one observed species at a time *)

Module Species4.

Import thinkbayes.

Section WithHypothesis.

Context {H : Type} {HI : Hypo H}.

Definition Likelihood (self : Suite H) (hypo : H) (data : list Z) : M double :=
  let dirichlet := hypo in
  match iterations self with
  | None => fun _ => Raise AttributeError
  | Some k =>
      like <- for_range (Z.to_nat k)
                (fun like => x <- hypo_Likelihood dirichlet data ;;
                             ret (fadd like x)) (Fin 0%R) ;;
      let m := Np.len data in
      let num_unseen := hypo_n dirichlet - m + 1 in
      ret (fmul like (of_int num_unseen))
  end.

(** [one = numpy.zeros(i+1); one[i] = data[i]] *)
Definition one (i : Z) (count : Z) : list Z :=
  repeat 0 (Z.to_nat i) ++ [count].

Definition Update (self : Suite H) (data : list Z) : M (Suite H) :=
  for_enum (fun i count self' => Species.Update_with Likelihood self' (one i count))
           0 data self.

End WithHypothesis.

End Species4.

(** ** OversampledDirichlet *)

Module OversampledDirichlet.

Import thinkbayes.

Section WithAbsent.

Context {TB : Absent}.

(** [self.conditionals] holds Pmf objects between the two halves of
    [Peek], and Cdf objects afterwards. *)
Inductive conds : Type :=
| Pmfs (l : list (Pmf double))
| Cdfs (l : list Cdf).

(** The attributes [weight] and [conditionals] do not exist until [Peek]
    sets them. *)
Record t : Type := mk {
  base : Dirichlet;
  weight : option double;
  conditionals : option conds
}.

Definition init (n : Z) : result t :=
  rbind (Dirichlet_init n) (fun b => Ok (mk b None None)).

(** The body of [for i, cond in enumerate(self.conditionals)]; the state is
    [(ps, fraction)]. *)
Definition Random_step (i : Z) (cond : M double) (st : list double * double)
  : M (list double * double) :=
  p <- cond ;;
  ps <~ Np.setitem_upd (fst st) i (fun _ => fmul p (snd st)) ;;
  ret (ps, fmul (snd st) (fsub (Fin 1%R) p)).

(** [Random] overrides [Dirichlet.Random]: it draws from the tables of
    [self.conditionals], not from Gamma variates. *)
Definition Random (self : t) : M (list double) :=
  let fraction := Fin 1%R in
  ps <~ Np.full (Fin 0%R) (n (base self)) ;;
  match conditionals self with
  | None => fun _ => Raise AttributeError
  | Some conds =>
      let draws := match conds with
                   | Pmfs l => map Pmf_Random l
                   | Cdfs l => map Cdf_Random l
                   end in
      st <- for_enum Random_step 0 draws (ps, fraction) ;;
      lift (Np.setitem_upd (fst st) (-1) (fun _ => snd st))
  end.

(** [thinkbayes.Dirichlet.Likelihood(self, data)] runs the parent's method
    on [self]: its sample is drawn by the [Random] above. *)
Definition Likelihood (self : t) (data : list Z) : M double :=
  like <- Dirichlet_Likelihood_with (Random self) data ;;
  match weight self with
  | None => fun _ => Raise AttributeError
  | Some w => ret (fmul like w)
  end.

Definition MakeMarginals (params : list Z) : list Beta :=
  let total := fold_left Z.add params 0 in
  map (fun x => mkBeta x (total - x)) params.

Fixpoint MakeConditionals_loop (total : Z) (xs : list Z) : list Beta :=
  match xs with
  | [] => []
  | x :: xs' => let total' := total - x in
                mkBeta x total' :: MakeConditionals_loop total' xs'
  end.

Definition MakeConditionals (params : list Z) : list Beta :=
  let total := fold_left Z.add params 0 in
  MakeConditionals_loop total (Np.take params (-1)).

(** [val < low or val > high] *)
Definition outside (low high val : double) : bool :=
  flt val low || flt high val.

(** Every value outside the bounds is removed, then [Normalize] is called
    and its result returned.  The trimmed table is the object [pmf]
    itself, changed in place; it is returned along with the mass. *)
Definition TrimMarginal (pmf : Pmf double) (low high : double) : Pmf double * double :=
  let kept := filter (fun vp => negb (outside low high (fst vp))) pmf in
  Normalize kept.

(** [zip(pmfs, lows, highs)] *)
Fixpoint zip3 {A B C} (xs : list A) (ys : list B) (zs : list C) : list (A * B * C) :=
  match xs, ys, zs with
  | x :: xs', y :: ys', z :: zs' => (x, y, z) :: zip3 xs' ys' zs'
  | _, _, _ => []
  end.

(** The bounds of [TrimMarginals]: the 2nd and 98th percentiles of the
    marginals of [params]. *)
Definition bounds (params : list Z) : list double * list double :=
  let posteriors := MakeMarginals params in
  let cdfs := map MakeCdf posteriors in
  (map (fun cdf => Percentile cdf 2) cdfs,
   map (fun cdf => Percentile cdf 98) cdfs).

Definition TrimMarginals (self : t) (data : list Z) : result t :=
  let m := Np.len data in
  (* params = numpy.copy(self.params); params[:m] += data *)
  rbind (Np.inplace Z.add (Np.take (params (base self)) m) data) (fun head =>
  let params := head ++ Np.drop (params (base self)) m in
  let (lows, highs) := bounds params in
  match conditionals self with
  | Some (Pmfs pmfs) =>
      let trimmed := map (fun plh => TrimMarginal (fst (fst plh)) (snd (fst plh)) (snd plh))
                         (zip3 pmfs lows highs) in
      let p_hit := fold_left (fun acc pm => fmul acc (snd pm)) trimmed (Fin 1%R) in
      (* the tables beyond the end of the zip are left as they were *)
      let pmfs' := map fst trimmed ++ skipn (length trimmed) pmfs in
      Ok (mk (base self) (Some p_hit) (Some (Cdfs (map MakeCdfFromPmf pmfs'))))
  | _ => Raise AttributeError
  end).

Definition Peek (self : t) (data : list Z) : result t :=
  let priors := MakeConditionals (params (base self)) in
  let pmfs := map MakePmf priors in
  TrimMarginals (mk (base self) (weight self) (Some (Pmfs pmfs))) data.

(** [Update] is inherited from [thinkbayes.Dirichlet]. *)
Definition Update (self : t) (data : list Z) : result t :=
  rbind (Dirichlet_Update (base self) data) (fun b =>
  Ok (mk b (weight self) (conditionals self))).

#[global] Instance Oversampled_Hypo : Hypo t := {
  hypo_n := fun self => n (base self);
  hypo_Likelihood := Likelihood;
  hypo_Update := Update
}.

End WithAbsent.

End OversampledDirichlet.

(** ** Species6: Species over OversampledDirichlet hypotheses *)

Module Species6.

Import thinkbayes.

Section WithAbsent.

Context {TB : Absent}.

(** [__init__(self, ns)]: no [iterations] argument, and the attribute is
    not set. *)
Definition init (ns : list Z) : result (Suite OversampledDirichlet.t) :=
  rbind (rmapM OversampledDirichlet.init ns) (fun hypos =>
  Ok (mkSuite (Suite_init hypos) None)).

Definition Update (self : Suite OversampledDirichlet.t) (data : list Z)
  : M (Suite OversampledDirichlet.t) :=
  (* for hypo in self.Values(): hypo.Peek(data) *)
  d1 <~ rmapM (fun hp => rbind (OversampledDirichlet.Peek (fst hp) data)
                               (fun h => Ok (h, snd hp))) (d self) ;;
  let self1 := mkSuite d1 (iterations self) in
  (* thinkbayes.Suite.Update(self, data), with the inherited Likelihood *)
  self2 <- Suite_Update Species.Likelihood self1 data ;;
  (* for hypo in self.Values(): hypo.Update(data) *)
  d3 <~ rmapM (fun hp => rbind (OversampledDirichlet.Update (fst hp) data)
                               (fun h => Ok (h, snd hp))) (d self2) ;;
  ret (mkSuite d3 (iterations self2)).

End WithAbsent.

End Species6.

(** * Data loading, plotting helpers and drivers

The rest of species.py, and the prior of train3.py. *)

(** ** Further exceptions

The suites raise only the exceptions of [exn]; the helpers below can also
end in [StopIteration] and [ZeroDivisionError]. *)

Inductive pyexn : Type :=
| Std (e : exn)
| StopIteration
| ZeroDivisionError.

Inductive outcome (A : Type) : Type :=
| Return (a : A)
| Throw (e : pyexn).

Arguments Return {A} a.
Arguments Throw {A} e.

Definition obind {A B} (r : outcome A) (f : A -> outcome B) : outcome B :=
  match r with
  | Return a => f a
  | Throw e => Throw e
  end.

Definition of_result {A} (r : result A) : outcome A :=
  match r with
  | Ok a => Return a
  | Raise e => Throw (Std e)
  end.

(** Python 2's [range(a, b)]: the list [a, a+1, ..., b-1]. *)
Definition range (a b : Z) : list Z :=
  map (fun i => a + Z.of_nat i) (seq 0%nat (Z.to_nat (b - a))).

(** ** Subject: one subject of the belly button study *)

Module Subject.

Record t : Type := mk {
  code : String.string;
  species : list (Z * String.string)
}.

(** [__init__(self, code)] *)
Definition init (code : String.string) : t := mk code [].

(** [Add]: [self.species.append((count, species))] *)
Definition Add (self : t) (sp : String.string) (count : Z) : t :=
  mk (code self) (species self ++ [(count, sp)]).

(** [a < b] on the tuples [(count, species)]: by count, then by name, which
    [str] compares byte by byte. *)
Definition tuple_lt (a b : Z * String.string) : bool :=
  (fst a <? fst b) || ((fst a =? fst b) && String.ltb (snd a) (snd b)).

(** [list.sort()] is a stable sort; so is insertion ahead of the first
    element that is not smaller. *)
Fixpoint insert (x : Z * String.string) (l : list (Z * String.string))
  : list (Z * String.string) :=
  match l with
  | [] => [x]
  | y :: l' => if tuple_lt y x then y :: insert x l' else x :: l
  end.

Definition sort (l : list (Z * String.string)) : list (Z * String.string) :=
  fold_right insert [] l.

Definition Sort (self : t) : t := mk (code self) (sort (species self)).

Definition GetCounts (self : t) : list Z := map fst (species self).

End Subject.

(** ** ReadData

[rows] is what [csv.reader] yields for the file, the header line included:
one list of fields per line.  [int] is the built-in conversion of a [str].
The [Subject] objects live in a store, in the order of their creation; the
variable [subject] and the list [subjects] hold references into it. *)

Section ReadData.

Variable int : String.string -> result Z.

Record loader : Type := mkLoader {
  heap : list Subject.t;
  subject : nat;
  subjects : list nat
}.

Definition deref (h : list Subject.t) (r : nat) : Subject.t :=
  nth r h (Subject.init String.EmptyString).

(** The body of [for t in reader]. *)
Definition ReadData_row (t : list String.string) (st : loader) : outcome loader :=
  obind (of_result (Np.getitem t 0)) (fun code =>
  let st1 :=
    if negb (String.eqb code (Subject.code (deref (heap st) (subject st)))) then
      (* subject.Sort(); subject = Subject(code); subjects.append(subject) *)
      let heap1 := Np.update (heap st) (subject st) Subject.Sort in
      let r := length heap1 in
      mkLoader (heap1 ++ [Subject.init code]) r (subjects st ++ [r])
    else st in
  obind (of_result (Np.getitem t 1)) (fun sp =>
  obind (of_result (Np.getitem t 2)) (fun field =>
  obind (of_result (int field)) (fun count =>
  Return (mkLoader
            (Np.update (heap st1) (subject st1) (fun s => Subject.Add s sp count))
            (subject st1) (subjects st1)))))).

Fixpoint ReadData_loop (rows : list (list String.string)) (st : loader) : outcome loader :=
  match rows with
  | [] => Return st
  | t :: rows' => obind (ReadData_row t st) (ReadData_loop rows')
  end.

Definition ReadData (rows : list (list String.string)) : outcome (list Subject.t) :=
  match rows with
  | [] => Throw StopIteration (* header = reader.next() *)
  | _ :: rows' =>
      obind (ReadData_loop rows' (mkLoader [Subject.init String.EmptyString] 0 []))
            (fun st => Return (map (deref (heap st)) (subjects st)))
  end.

End ReadData.

(** ** OffsetCurve and PlotCurves *)

Definition curve : Type := list (double * double).

(** [-d + 2 * d * i / (n-1)]: a float divided by the int [n-1]. *)
Definition offset (d : double) (i n : Z) : outcome double :=
  if n - 1 =? 0 then Throw ZeroDivisionError
  else Return (fadd (fneg d) (fdiv (fmul (fmul (of_int 2) d) (of_int i)) (of_int (n - 1)))).

Definition OffsetCurve (c : curve) (i n : Z) (dx dy : double) : outcome curve :=
  obind (offset dx i n) (fun xoff =>
  obind (offset dy i n) (fun yoff =>
  Return (map (fun xy => (fadd (fst xy) xoff, fadd (snd xy) yoff)) c))).

(** [xs, ys = zip] of the points of the curve: there is nothing to unpack
    when the curve has no point. *)
Definition unzip_curve (c : curve) : result (list double * list double) :=
  match c with
  | [] => Raise ValueError
  | _ => Ok (map fst c, map snd c)
  end.

(** [PlotCurves]: the result is the sequence of the [(xs, ys)] handed to
    [pyplot.plot]; clearing and saving the figure are not represented.
    [OffsetCurve] is called with its default [dx] and [dy], 0.3. *)
Fixpoint PlotCurves_loop (n : Z) (i : Z) (curves : list curve)
  : outcome (list (list double * list double)) :=
  match curves with
  | [] => Return []
  | c :: curves' =>
      obind (OffsetCurve c i n (Fin (3 / 10)%R) (Fin (3 / 10)%R)) (fun c' =>
      obind (of_result (unzip_curve c')) (fun xsys =>
      obind (PlotCurves_loop n (i + 1) curves') (fun rest =>
      Return (xsys :: rest))))
  end.

Definition PlotCurves (curves : list curve) : outcome (list (list double * list double)) :=
  PlotCurves_loop (Np.len curves) 0 curves.

(** ** TestOversampledDirichlet *)

Section TestOversampledDirichlet.

Context {TB : thinkbayes.Absent}.

(** [TestOversampledDirichlet], up to the [print]: the sample is returned. *)
Definition TestOversampledDirichlet : M (list double) :=
  dirichlet <~ OversampledDirichlet.init 3 ;;
  dirichlet1 <~ OversampledDirichlet.Peek dirichlet [3; 2; 1] ;;
  OversampledDirichlet.Random dirichlet1.

End TestOversampledDirichlet.

(** ** MakePosterior and ProcessSubject

Timing and printing are not represented. *)

(** What [MakePosterior] uses of the class it is given. *)
Record suite_class : Type := mkClass {
  cls_suite : Type;
  cls_init : list Z -> Z -> result cls_suite;
  cls_Update : cls_suite -> list Z -> M cls_suite;
  cls_DistOfN : cls_suite -> thinkbayes.Pmf Z
}.

Definition MakePosterior (constructor : suite_class) (data ns : list Z) (iterations : Z)
  : M (thinkbayes.Pmf Z) :=
  suite <~ cls_init constructor ns iterations ;;
  suite1 <- cls_Update constructor suite data ;;
  ret (cls_DistOfN constructor suite1).

Definition Species2_class : suite_class :=
  mkClass Species2.init Species2.Update Species2.DistOfN.

Definition Species3_class : suite_class :=
  mkClass Species2.init Species3.Update Species2.DistOfN.

Definition Species5_class : suite_class :=
  mkClass Species2.init Species5.Update Species2.DistOfN.

(** [int(x)] for a float that is a number: the integer part, towards zero. *)
Definition trunc (r : R) : Z :=
  if Rle_dec 0 r then Int_part r else - Int_part (- r).

Definition ProcessSubject (counts : list Z) : M (Species2.t * thinkbayes.Pmf Z) :=
  let m := Np.len counts in
  (* n = int(1.5 * m): the product of two numbers is a number *)
  n <~ match fmul (Fin (3 / 2)%R) (of_int m) with
       | Fin r => Ok (trunc r)
       | _ => Raise ValueError
       end ;;
  let ns := range m n in
  suite <~ Species2.init ns 300 ;;
  suite1 <- Species5.Update suite counts ;;
  ret (suite1, Species2.DistOfN suite1).

(** ** Train2 (train3.py): the power law prior *)

Module Train2.

(** [hypo ** e] for an int [hypo] and a float [e] that is a number. *)
Definition float_pow (hypo : Z) (e : R) : outcome double :=
  if Req_dec_T e 0%R then Return (Fin 1%R)
  else if 0 <? hypo then Return (Fin (Rpower (IZR hypo) e))
  else if hypo =? 0 then
    if Rlt_dec e 0%R then Throw ZeroDivisionError else Return (Fin 0%R)
  else if Req_dec_T (IZR (Int_part e)) e then
    Return (Fin ((if Z.even (Int_part e) then 1 else -1) * Rpower (IZR (- hypo)) e)%R)
  else Throw (Std ValueError).

(** [for hypo in hypos: self.Set(hypo, hypo**(-alpha))] *)
Fixpoint set_all (hypos : list Z) (alpha : R) (d : thinkbayes.Pmf Z)
  : outcome (thinkbayes.Pmf Z) :=
  match hypos with
  | [] => Return d
  | hypo :: hypos' =>
      obind (float_pow hypo (- alpha)%R) (fun w =>
      set_all hypos' alpha (dict_set hypo w d))
  end.

(** [__init__(self, hypos, alpha=1.0)]; [alpha] is a float that is a
    number. *)
Definition init (hypos : list Z) (alpha : R) : outcome (thinkbayes.Pmf Z) :=
  obind (set_all hypos alpha []) (fun d =>
  Return (fst (thinkbayes.Normalize d))).

End Train2.

(** * Properties *)

Unset Implicit Arguments.

(** ** Definitions used in the statements *)

(** *** Doubles and the random source *)

(** A real number, none of the special values. *)
Definition finite (x : double) : Prop :=
  match x with Fin _ => True | _ => False end.

(** A positive real number. *)
Definition posfin (x : double) : Prop :=
  match x with Fin r => (0 < r)%R | _ => False end.

(** A real number that is not negative. *)
Definition nonnegfin (x : double) : Prop :=
  match x with Fin r => (0 <= r)%R | _ => False end.

(** The real behind a finite double (0 for the special values). *)
Definition toR (x : double) : R :=
  match x with Fin r => r | _ => 0%R end.

(** The sum of a list of reals. *)
Definition Rsum (l : list R) : R := fold_right Rplus 0%R l.

(** The generator after one call of [gamma]. *)
Definition tick (g : rng) : rng := mkRng (draw g) (S (calls g)).

(** The generator after [k] calls of [gamma]. *)
Fixpoint ticks (k : nat) (g : rng) : rng :=
  match k with
  | O => g
  | S k' => ticks k' (tick g)
  end.

(** Gamma variates are positive. *)
Definition positive_draws (g : rng) : Prop :=
  forall k j a, (0 < draw g k j a)%R.

(** What the next call of [gamma(shape)] returns. *)
Definition gamma_values (g : rng) (shape : list Z) : list double :=
  map (fun ja => Fin (draw g (calls g) (fst ja) (snd ja)))
      (combine (seq 0%nat (length shape)) shape).

(** What [numpy.max] returns on a non-empty array. *)
Definition max_val (l : list double) : double :=
  match l with
  | [] => NaN
  | x :: l' => fold_left fmaximum l' x
  end.

(** [numpy.exp(log_likes - numpy.max(log_likes))] *)
Definition exp_shift (log_likes : list double) : list double :=
  map fexp (map (fun x => fsub x (max_val log_likes)) log_likes).

(** *** The flattened suites *)

(** The arrays are consistent: as many weights as candidates, every candidate
    a position of [params], every concentration parameter positive. *)
Definition shapes_ok (st : Species2.t) : Prop :=
  Species2.ns st <> [] /\
  length (Species2.probs st) = length (Species2.ns st) /\
  Forall (fun n => 1 <= n <= Np.len (Species2.params st)) (Species2.ns st) /\
  Forall (fun a => 0 < a) (Species2.params st).

(** The value of [log_like] when nothing is raised. *)
Definition log_like_val (row col : list double) (data : list Z) (n : Z) : double :=
  let c := nth (Z.to_nat (n - 1)) col NaN in
  Np.sum (Np.zip_with fmul (map flog (map (fun r => fdiv r c) row)) (map of_int data)).

(** The log-likelihoods of one draw, one per candidate. *)
Definition log_likes_val (g : rng) (st : Species2.t) (data : list Z) : list double :=
  let gammas := gamma_values g (Species2.params st) in
  map (log_like_val (Np.take gammas (Np.len data)) (Np.cumsum gammas) data) (Species2.ns st).

(** [coefs = [thinkbayes.BinomialCoef(n, m) for n in self.ns]] *)
Definition coefs (st : Species2.t) (data : list Z) : list double :=
  map (fun n => thinkbayes.BinomialCoef n (Np.len data)) (Species2.ns st).

(** The sum of [k] successive draws, as [like += SampleLikelihood(...)]
    builds it. *)
Fixpoint acc_draws (sl : rng -> list double) (k : nat) (acc : list double) (g : rng)
  : list double :=
  match k with
  | O => acc
  | S k' => acc_draws sl k' (Np.zip_with fadd acc (sl g)) (tick g)
  end.

(** [self.probs *= like; self.probs /= self.probs.sum()] when nothing is
    raised. *)
Definition reweight_val (probs like : list double) : list double :=
  let probs1 := Np.zip_with fmul probs like in
  map (fun p => fdiv p (Np.sum probs1)) probs1.

(** [self.params[:m] += data] when nothing is raised. *)
Definition add_counts_val (params data : list Z) : list Z :=
  Np.zip_with add64 (Np.take params (Np.len data)) data ++ Np.drop params (Np.len data).

(** The state after an update that draws [k] samples. *)
Definition Species2_after (k : nat) (st : Species2.t) (data : list Z) (g : rng) : Species2.t :=
  let like := acc_draws
                (fun g' => Np.zip_with fmul (exp_shift (log_likes_val g' st data))
                                       (coefs st data))
                k (repeat (Fin 0%R) (length (Species2.ns st))) g in
  Species2.mk (Species2.ns st)
              (reweight_val (Species2.probs st) like)
              (add_counts_val (Species2.params st) data)
              (Species2.iterations st).

(** A generator whose variates are all 1. *)
Definition unit_rng : rng := mkRng (fun _ _ _ => 1%R) 0.

(** The candidates line up with the tail of the cumulative sums, as they do
    for a range [ns = range(a, b)]: there are as many candidates as entries
    of [cumsum(gammas)[ns[0]-1:]]. *)
Definition range_ok (st : Species2.t) : Prop :=
  shapes_ok st /\
  Np.len (Species2.ns st) = Np.len (Species2.params st) - hd 0 (Species2.ns st) + 1.

(** The tail of the cumulative sums that both methods slice out. *)
Definition tail_sums (g : rng) (st : Species2.t) : list double :=
  Np.drop (Np.cumsum (gamma_values g (Species2.params st))) (hd 0 (Species2.ns st) - 1).

(** Species3: the log-likelihoods of one draw. *)
Definition log_likes_val3 (g : rng) (st : Species2.t) (data : list Z) : list double :=
  let row := Np.take (gamma_values g (Species2.params st)) (Np.len data) in
  map (fun c => Np.sum (Np.zip_with fmul (map flog (map (fun r => fdiv r c) row))
                                    (map of_int data)))
      (tail_sums g st).

(** Species5: the log-likelihoods of one draw for the [m]-th species. *)
Definition log_likes_val5 (g : rng) (st : Species2.t) (m count : Z) : list double :=
  let gm := nth (Z.to_nat (m - 1)) (gamma_values g (Species2.params st)) NaN in
  map (fun s => fmul (flog (fdiv gm s)) (of_int count)) (tail_sums g st).

(** [params[i] += data[i]] for every position of [data]. *)
Fixpoint add_prefix (params data : list Z) : list Z :=
  match params, data with
  | p :: ps, d :: ds => add64 p d :: add_prefix ps ds
  | ps, [] => ps
  | [], _ => []
  end.

(** The counts are not negative and no parameter leaves the 64-bit range. *)
Fixpoint counts_ok (params data : list Z) : Prop :=
  match params, data with
  | p :: ps, d :: ds => (0 <= d /\ p + d < 2 ^ 63) /\ counts_ok ps ds
  | _, _ => True
  end.

(** A suite in a state that construction from a range of candidates and
    compatible updates lead to: consistent arrays, distinct candidates,
    positive weights and a positive iteration count. *)
Definition wf (st : Species2.t) : Prop :=
  range_ok st /\
  NoDup (Species2.ns st) /\
  Forall posfin (Species2.probs st) /\
  0 < Species2.iterations st.

(** A batch that is compatible with the candidates: it is not empty, every
    candidate N is at least the number m of observed categories, and the
    counts are non-negative 64-bit integers that do not overflow. *)
Definition compatible (ns params data : list Z) : Prop :=
  data <> [] /\
  Forall (fun n => Np.len data <= n) ns /\
  counts_ok params data.

(** The state after an update of Species3. *)
Definition Species3_after (st : Species2.t) (data : list Z) (g : rng) : Species2.t :=
  let like := acc_draws
                (fun g' => Np.zip_with fmul (exp_shift (log_likes_val3 g' st data))
                                       (coefs st data))
                (Z.to_nat (Species2.iterations st))
                (repeat (Fin 0%R) (length (Species2.ns st))) g in
  Species2.mk (Species2.ns st)
              (reweight_val (Species2.probs st) like)
              (add_counts_val (Species2.params st) data)
              (Species2.iterations st).

(** The weights after [UpdateOne(m, count)]. *)
Definition UpdateOne_likes (st : Species2.t) (m count : Z) (g : rng) : list double :=
  Np.zip_with fmul
    (acc_draws (fun g' => exp_shift (log_likes_val5 g' st m count))
               (Z.to_nat (Species2.iterations st))
               (repeat (Fin 0%R) (length (Species2.ns st))) g)
    (map of_int (Species5.unseen_species st m)).

(** The three suites that share the representation of [Species2]. *)
Inductive flat_variant : Type :=
| Flat2
| Flat3
| Flat5.

(** The [Update] method of each. *)
Definition flat_Update (v : flat_variant) : Species2.t -> list Z -> M Species2.t :=
  match v with
  | Flat2 => Species2.Update
  | Flat3 => Species3.Update
  | Flat5 => Species5.Update
  end.



(** Python's [range(a, a + k)]. *)
Definition range_list (a : Z) (k : nat) : list Z :=
  map (fun i => a + Z.of_nat i) (seq 0%nat k).

(** *** The log-likelihoods of one draw *)

(** The variates that the next call of [gamma(shape)] returns. *)
Definition variates (g : rng) (shape : list Z) : list R :=
  map (fun ja => draw g (calls g) (fst ja) (snd ja))
      (combine (seq 0%nat (length shape)) shape).

(** The sum of the first [n] variates: what the proportions of a candidate
    [n] are measured against. *)
Definition prefix_total (gam : list R) (n : Z) : R :=
  Rsum (firstn (Z.to_nat n) gam).

(** The log-likelihood of a batch for the candidate [n]: every observed
    category [i] has the proportion [gam[i] / (gam[0] + ... + gam[n-1])] and
    adds the logarithm of its proportion, times its count. *)
Definition log_likelihood (gam : list R) (data : list Z) (n : Z) : R :=
  Rsum (map (fun xd => (ln (fst xd / prefix_total gam n) * IZR (snd xd))%R)
            (combine gam data)).

(** The log-likelihood of [count] observations of the [m]-th species for
    the candidate [n]. *)
Definition log_likelihood_one (gam : list R) (m count : Z) (n : Z) : R :=
  (ln (nth (Z.to_nat (m - 1)) gam 0%R / prefix_total gam n) * IZR count)%R.

(** [mx] is the largest number of [l]. *)
Definition greatest (mx : R) (l : list R) : Prop :=
  In mx l /\ Forall (fun x => (x <= mx)%R) l.

(** [exp(x - mx)] for every [x] of [l]. *)
Definition exp_minus (mx : R) (l : list R) : list double :=
  map (fun x => Fin (exp (x - mx))) l.

(** The candidates that the array code of Species3 and Species5 evaluates:
    as many as there are entries in [ns], counted up from [ns[0]]. *)
Definition array_candidates (st : Species2.t) : list Z :=
  range_list (hd 0 (Species2.ns st)) (length (Species2.ns st)).

(** *** The likelihoods that an update accumulates *)

(** What a computation returns ([d] if it raises). *)
Definition returned {A} (d : A) (c : M A) (g : rng) : A :=
  match c g with
  | Ok (a, _) => a
  | Raise _ => d
  end.

(** [like = numpy.zeros(len(self.ns))] followed by [k] rounds of
    [like += self.SampleLikelihood(...)]: the sum of what the [k] successive
    calls return. *)
Definition accumulated (SampleLikelihood : M (list double)) (k : nat)
    (st : Species2.t) (g : rng) : list double :=
  acc_draws (returned [] SampleLikelihood) k
            (repeat (Fin 0%R) (length (Species2.ns st))) g.

(** The weight of a candidate [n] against a batch of [m] categories: zero if
    [n < m], positive otherwise. *)
Definition feasible_weight (m n : Z) (x : double) : Prop :=
  if n <? m then x = Fin 0%R else posfin x.

(** The same, for a sum that has not received its first draw yet. *)
Definition feasible_acc (m n : Z) (x : double) : Prop :=
  if n <? m then x = Fin 0%R else nonnegfin x.

(** The reweighted weights are not negative and sum to zero. *)
Definition zero_sum (probs like : list double) : Prop :=
  Forall nonnegfin (Np.zip_with fmul probs like) /\
  Np.sum (Np.zip_with fmul probs like) = Fin 0%R.

(** One step as the specification describes it.  At step [m] the likelihood
    of every candidate N is estimated from the current state, multiplied by
    the unseen-species correction [N - m + 1], and the candidates are
    reweighted; only then the concentration parameter of the [m]-th category,
    and no other, grows by that category's count. *)
Definition incremental_step (m count : Z) (st : Species2.t) (g : rng)
  : Species2.t * rng :=
  let k := Z.to_nat (Species2.iterations st) in
  let like := acc_draws (fun g' => exp_shift (log_likes_val5 g' st m count)) k
                        (repeat (Fin 0%R) (length (Species2.ns st))) g in
  let corrected :=
    Np.zip_with fmul like (map (fun N => of_int (N - m + 1)) (Species2.ns st)) in
  let probs' := reweight_val (Species2.probs st) corrected in
  let params' := Np.update (Species2.params st) (Z.to_nat (m - 1))
                           (fun p => add64 p count) in
  (Species2.mk (Species2.ns st) probs' params' (Species2.iterations st), ticks k g).

(** The batch, one observed category at a time, starting with step [m]. *)
Fixpoint incremental (m : Z) (data : list Z) (st : Species2.t) (g : rng)
  : Species2.t * rng :=
  match data with
  | [] => (st, g)
  | count :: rest =>
      let (st', g') := incremental_step m count st g in
      incremental (m + 1) rest st' g'
  end.

(** *** The suites with one model per candidate *)

(** The sum of [k] successive draws of a likelihood, as
    [like += dirichlet.Likelihood(data)] builds it. *)
Fixpoint sum_draws (f : rng -> double) (k : nat) (acc : double) (g : rng) : double :=
  match k with
  | O => acc
  | S k' => sum_draws f k' (fadd acc (f g)) (tick g)
  end.

(** The outer weights after every hypothesis was given its likelihood, each
    likelihood taking [k] draws. *)
Fixpoint weigh {H} (like : H -> rng -> double) (k : nat) (hs : list (H * double))
    (g : rng) : list (H * double) :=
  match hs with
  | [] => []
  | hp :: rest => (fst hp, fmul (snd hp) (like (fst hp) g)) :: weigh like k rest (ticks k g)
  end.

(** *** An instance of the absent operations, for the examples *)

(** [a ** k] by repeated multiplication. *)
Fixpoint fpow_nat (a : double) (k : nat) : double :=
  match k with
  | O => Fin 1%R
  | S k' => fmul a (fpow_nat a k')
  end.

Definition fpow (a : double) (z : Z) : double :=
  if z <? 0 then fdiv (Fin 1%R) (fpow_nat a (Z.to_nat (- z)))
  else fpow_nat a (Z.to_nat z).

(** The product of [p[i] ** x[i]] over the observed categories. *)
Definition power_product (p : list double) (x : list Z) : double :=
  fold_left fmul (Np.zip_with fpow p x) (Fin 1%R).

(** A Beta density on the grid 1/4, 1/2, 3/4. *)
Definition grid_pmf (b : thinkbayes.Beta) : thinkbayes.Pmf double :=
  map (fun x => (Fin x,
                 Fin (x ^ Z.to_nat (thinkbayes.alpha b - 1)
                      * (1 - x) ^ Z.to_nat (thinkbayes.beta b - 1))%R))
      [(1 / 4)%R; (1 / 2)%R; (3 / 4)%R].

(** The first value at which the accumulated weight reaches the target. *)
Fixpoint scan (target acc : double) (items : thinkbayes.Pmf double) : double :=
  match items with
  | [] => NaN
  | vp :: rest =>
      let acc' := fadd acc (snd vp) in
      if flt acc' target then scan target acc' rest else fst vp
  end.

Definition grid_percentile (cdf : thinkbayes.Pmf double) (p : Z) : double :=
  scan (fmul (fdiv (of_int p) (Fin 100%R)) (thinkbayes.Total cdf)) (Fin 0%R) cdf.

Definition grid_absent : thinkbayes.Absent := {|
  thinkbayes.multinomial := power_product;
  thinkbayes.Cdf := thinkbayes.Pmf double;
  thinkbayes.MakePmf := grid_pmf;
  thinkbayes.MakeCdf := grid_pmf;
  thinkbayes.MakeCdfFromPmf := fun pmf => pmf;
  thinkbayes.Percentile := grid_percentile;
  thinkbayes.Pmf_Random := fun _ => ret (Fin (1 / 2)%R);
  thinkbayes.Cdf_Random := fun _ => ret (Fin (1 / 2)%R)
|}.

(** *** Models, tables and bounds *)

(** [params[i] += data[i]] for every position of [data], without a width. *)
Fixpoint plain_add (params data : list Z) : list Z :=
  match params, data with
  | p :: ps, d :: ds => (p + d) :: plain_add ps ds
  | ps, [] => ps
  | [], _ => []
  end.

(** The model after [Update(data)]. *)
Definition dirichlet_updated (data : list Z) (h : thinkbayes.Dirichlet)
  : thinkbayes.Dirichlet :=
  thinkbayes.mkDirichlet (thinkbayes.n h) (plain_add (thinkbayes.params h) data).





(** The sum of the entries of [l] from position [i] on. *)
Definition sum_from (i : nat) (l : list Z) : Z := fold_left Z.add (skipn i l) 0.

(** *** Definitions over the operations that thinkbayes would provide *)

Section Statement_definitions.

Context {TB : thinkbayes.Absent}.

(** One draw of [Dirichlet.Likelihood(data)], when nothing is raised. *)
Definition dirichlet_draw (h : thinkbayes.Dirichlet) (data : list Z) (g : rng) : double :=
  let gv := gamma_values g (thinkbayes.params h) in
  thinkbayes.multinomial (map (fun x => fdiv x (Np.sum gv)) gv) data.

(** The likelihood that Species4 gives a hypothesis at step [m]. *)
Definition unseen_like (k : nat) (m : Z) (data : list Z) (h : thinkbayes.Dirichlet)
    (g : rng) : double :=
  fmul (sum_draws (dirichlet_draw h data) k (Fin 0%R) g)
       (of_int (thinkbayes.n h - m + 1)).

(** The hypothesis after [Update(one)]: only the parameter of the [m]-th
    category changes, by that category's count. *)
Definition bump (m count : Z) (h : thinkbayes.Dirichlet) : thinkbayes.Dirichlet :=
  thinkbayes.mkDirichlet (thinkbayes.n h)
    (Np.update (thinkbayes.params h) (Z.to_nat (m - 1)) (fun p => p + count)).

(** One step of Species4 as the specification describes it.  At step [m],
    for every candidate N: the likelihood is the sum of the draws of that N's
    own Dirichlet model, multiplied by the unseen-species correction
    [N - m + 1]; the candidates are reweighted and renormalised; only then
    every model's concentration parameter of the [m]-th category, and no
    other, grows by that category's count. *)
Definition suite_incremental_step (m count : Z)
    (self : thinkbayes.Suite thinkbayes.Dirichlet) (g : rng)
  : thinkbayes.Suite thinkbayes.Dirichlet * rng :=
  let k := match thinkbayes.iterations self with
           | Some k => Z.to_nat k
           | None => 0%nat
           end in
  let one := Species4.one (m - 1) count in
  let weighted := weigh (unseen_like k m one) k (thinkbayes.d self) g in
  let renormalized := fst (thinkbayes.Normalize weighted) in
  let updated := map (fun hp => (bump m count (fst hp), snd hp)) renormalized in
  (thinkbayes.mkSuite updated (thinkbayes.iterations self),
   ticks (k * length (thinkbayes.d self)) g).

Fixpoint suite_incremental (m : Z) (data : list Z)
    (self : thinkbayes.Suite thinkbayes.Dirichlet) (g : rng)
  : thinkbayes.Suite thinkbayes.Dirichlet * rng :=
  match data with
  | [] => (self, g)
  | count :: rest =>
      let (self', g') := suite_incremental_step m count self g in
      suite_incremental (m + 1) rest self' g'
  end.

(** Every model can take [m] categories and can be sampled. *)
Definition models_ok (m : Z) (hs : list (thinkbayes.Dirichlet * double)) : Prop :=
  Forall (fun hp => Forall (fun a => 0 < a) (thinkbayes.params (fst hp)) /\
                    m <= Np.len (thinkbayes.params (fst hp))) hs.

(** The likelihood that Species gives a hypothesis: the sum of the draws times
    the binomial coefficient. *)
Definition binomial_like (k : nat) (data : list Z) (h : thinkbayes.Dirichlet)
    (g : rng) : double :=
  fmul (sum_draws (dirichlet_draw h data) k (Fin 0%R) g)
       (thinkbayes.BinomialCoef (thinkbayes.n h) (Np.len data)).

(** The likelihood as the claim words it: the average of the draws times the
    binomial coefficient. *)
Definition average_like (k : Z) (data : list Z) (h : thinkbayes.Dirichlet)
    (g : rng) : double :=
  fmul (fdiv (sum_draws (dirichlet_draw h data) (Z.to_nat k) (Fin 0%R) g) (of_int k))
       (thinkbayes.BinomialCoef (thinkbayes.n h) (Np.len data)).

(** The suite after [Species.Update(data)]: the candidates reweighted with the
    likelihoods drawn from the models as they are, renormalised, and then
    every model updated with the batch. *)
Definition Species_after (k : nat) (data : list Z)
    (self : thinkbayes.Suite thinkbayes.Dirichlet) (g : rng)
  : thinkbayes.Suite thinkbayes.Dirichlet :=
  let weighted := weigh (binomial_like k data) k (thinkbayes.d self) g in
  let renormalized := fst (thinkbayes.Normalize weighted) in
  thinkbayes.mkSuite
    (map (fun hp => (dirichlet_updated data (fst hp), snd hp)) renormalized)
    (thinkbayes.iterations self).

(** *** The importance weight, coordinate by coordinate *)














(** The model that [OversampledDirichlet(n)] builds. *)
Definition fresh_model (n : Z) : OversampledDirichlet.t :=
  OversampledDirichlet.mk (thinkbayes.mkDirichlet n (repeat 1 (Z.to_nat n))) None None.


(** The candidates of a suite, in the order of its hypotheses. *)
Definition candidates (self : thinkbayes.Suite thinkbayes.Dirichlet) : list Z :=
  map (fun hp => thinkbayes.n (fst hp)) (thinkbayes.d self).

(** A suite in a state that construction and compatible updates lead to. *)
Definition suite_wf (self : thinkbayes.Suite thinkbayes.Dirichlet) : Prop :=
  thinkbayes.d self <> [] /\
  (exists k, thinkbayes.iterations self = Some k /\ 0 < k) /\
  NoDup (candidates self) /\
  Forall posfin (map snd (thinkbayes.d self)) /\
  Forall (fun h => Forall (fun a => 0 < a) (thinkbayes.params h) /\
                   Np.len (thinkbayes.params h) = thinkbayes.n h)
         (map fst (thinkbayes.d self)).




End Statement_definitions.

(** ** Definitions used in the statements about the rest of the code *)

(** *** Subjects and the rows of the data file *)

(** [a <= b] on the tuples [(count, species)]: [b < a] does not hold. *)
Definition tuple_le (a b : Z * String.string) : Prop := Subject.tuple_lt b a = false.

(** The entries of a subject are in ascending order. *)
Definition sorted_subject (s : Subject.t) : Prop := Sorted tuple_le (Subject.species s).

(** The first field of a row: the code of its subject. *)
Definition row_code (t : list String.string) : String.string :=
  nth 0%nat t String.EmptyString.

(** What a row stands for when it has three fields and a count that [int]
    accepts: the code and the pair [(count, species)]. *)
Definition parse_row (int : String.string -> result Z) (t : list String.string)
  : option (String.string * (Z * String.string)) :=
  match t with
  | c :: sp :: field :: _ =>
      match int field with
      | Ok count => Some (c, (count, sp))
      | Raise _ => None
      end
  | _ => None
  end.

(** The pairs [(count, species)] of a list of rows, in the order of the
    file. *)
Definition entries (int : String.string -> result Z) (rows : list (list String.string))
  : list (Z * String.string) :=
  flat_map (fun t => match parse_row int t with
                     | Some ce => [snd ce]
                     | None => []
                     end) rows.

(** No element equals its successor. *)
Definition neighbours_differ (codes : list String.string) : Prop :=
  Sorted (fun a b => a <> b) codes.

(** The store of [ReadData] as a list of closed subjects and the current
    one; one parsed row changes it as the loop body does. *)
Definition group_step (st : list Subject.t * Subject.t)
    (r : String.string * (Z * String.string)) : list Subject.t * Subject.t :=
  if String.eqb (fst r) (Subject.code (snd st))
  then (fst st, Subject.Add (snd st) (snd (snd r)) (fst (snd r)))
  else (fst st ++ [Subject.Sort (snd st)],
        Subject.Add (Subject.init (fst r)) (snd (snd r)) (fst (snd r))).

Definition group (rs : list (String.string * (Z * String.string)))
    (st : list Subject.t * Subject.t) : list Subject.t * Subject.t :=
  fold_left group_step rs st.

(** The store holds the closed subjects and then the current one; the
    variable [subject] refers to the last object, the list [subjects] to all
    the objects but the first. *)
Definition loader_shape (st : loader) (gs : list Subject.t * Subject.t) : Prop :=
  heap st = fst gs ++ [snd gs] /\
  subject st = length (fst gs) /\
  subjects st = seq 1%nat (length (fst gs)).

(** A digit is its value; any other field is refused.  An [int] for the
    examples. *)
Definition digit_int (s : String.string) : result Z :=
  match s with
  | String.String c String.EmptyString =>
      let k := Z.of_N (Ascii.N_of_ascii c) - 48 in
      if (0 <=? k) && (k <=? 9) then Ok k else Raise ValueError
  | _ => Raise ValueError
  end.

(** The subjects returned: all the objects of the store but the first. *)
Definition subjects_of (gs : list Subject.t * Subject.t) : list Subject.t :=
  tl (fst gs ++ [snd gs]).

(** The store before the first row: the subject with the empty code, which
    is in no list. *)
Definition start : list Subject.t * Subject.t := ([], Subject.init String.EmptyString).

(** A file of two subjects with two species each. *)
Definition example_rows : list (list String.string) :=
  [ ["code"; "species"; "count"];
    ["B1"; "x"; "5"];
    ["B1"; "y"; "2"];
    ["B2"; "z"; "7"];
    ["B2"; "w"; "3"] ]%string.

(** What the loop keeps: the codes of neighbouring objects differ, the first
    object has the empty code, and every object after the first has an
    entry. *)
Definition runs_ok (gs : list Subject.t * Subject.t) : Prop :=
  neighbours_differ (map Subject.code (fst gs) ++ [Subject.code (snd gs)]) /\
  Forall (fun s => Subject.species s <> []) (tl (fst gs)) /\
  (fst gs <> [] -> Subject.species (snd gs) <> []) /\
  Subject.code (hd (snd gs) (fst gs)) = String.EmptyString.

(** The number of rows whose code differs from the code of the row before;
    [prev] stands before the first row. *)
Fixpoint code_changes (prev : String.string) (codes : list String.string) : nat :=
  match codes with
  | [] => 0%nat
  | c :: rest => ((if String.eqb c prev then 0 else 1) + code_changes c rest)%nat
  end.

(** *** Curves *)

(** The offset of curve [i] among [n]: [-d + 2 d i / (n-1)]. *)
Definition offset_val (d : R) (i n : Z) : R :=
  (- d + 2 * d * IZR i / IZR (n - 1))%R.

(** The curve moved by [(xoff, yoff)]. *)
Definition shifted (c : curve) (xoff yoff : R) : curve :=
  map (fun xy => (fadd (fst xy) (Fin xoff), fadd (snd xy) (Fin yoff))) c.

(** *** Draws from the conditional distributions *)

(** A probability: a number between 0 and 1. *)
Definition probability (x : double) : Prop :=
  match x with Fin r => (0 <= r <= 1)%R | _ => False end.

Section Conditional_draws.

Context {TB : thinkbayes.Absent}.

(** Every draw from a cumulative distribution returns a number. *)
Definition finite_draws (Cdf_Random : thinkbayes.Cdf -> M double) : Prop :=
  forall c g, exists p g', Cdf_Random c g = Ok (Fin p, g').

(** Every number drawn from a cumulative distribution is a probability. *)
Definition unit_draws (Cdf_Random : thinkbayes.Cdf -> M double) : Prop :=
  forall c g p g', Cdf_Random c g = Ok (Fin p, g') -> (0 <= p <= 1)%R.

End Conditional_draws.

(** *** Candidates in and out of order *)

(** The sum of a list of counts. *)
Definition total (data : list Z) : Z := fold_left Z.add data 0.

(** *** The classes handed to MakePosterior *)

(** The class of each flattened suite. *)
Definition flat_class (v : flat_variant) : suite_class :=
  match v with
  | Flat2 => Species2_class
  | Flat3 => Species3_class
  | Flat5 => Species5_class
  end.

(** The counts are not negative and fit a 64-bit parameter. *)
Definition counts_fit (data : list Z) : Prop :=
  Forall (fun d => 0 <= d /\ 1 + d < 2 ^ 63) data.

(** *** The power law prior *)

(** The weight that [Train2] sets for a positive hypothesis, before it
    normalizes. *)
Definition power_law (alpha : R) (hypo : Z) : R := Rpower (IZR hypo) (- alpha).

(** Every entry of the table is a positive hypothesis with its power law
    weight. *)
Definition power_law_table (alpha : R) (d : thinkbayes.Pmf Z) : Prop :=
  Forall (fun hw => 0 < fst hw /\ snd hw = Fin (power_law alpha (fst hw))) d.

(** ** Lemmas and theorems *)

(** ** Facts about doubles *)

Lemma Rsgn_pos (r : R) : (0 < r)%R -> Rsgn r = Gt.
Proof.
  intros Hr. unfold Rsgn.
  destruct (total_order_T 0 r) as [[Hlt | Heq] | Hgt]; try reflexivity; lra.
Qed.

Lemma Rsgn_neg (r : R) : (r < 0)%R -> Rsgn r = Lt.
Proof.
  intros Hr. unfold Rsgn.
  destruct (total_order_T 0 r) as [[Hlt | Heq] | Hgt]; try reflexivity; lra.
Qed.

Lemma Rsgn_zero : Rsgn 0%R = Eq.
Proof.
  unfold Rsgn.
  destruct (total_order_T 0 0) as [[Hlt | Heq] | Hgt]; try reflexivity; lra.
Qed.

Lemma Rsgn_Gt_inv (r : R) : Rsgn r = Gt -> (0 < r)%R.
Proof.
  unfold Rsgn.
  destruct (total_order_T 0 r) as [[Hlt | Heq] | Hgt]; intros E;
    try discriminate; assumption.
Qed.

Lemma Rsgn_Eq_inv (r : R) : Rsgn r = Eq -> r = 0%R.
Proof.
  unfold Rsgn.
  destruct (total_order_T 0 r) as [[Hlt | Heq] | Hgt]; intros E;
    try discriminate; symmetry; assumption.
Qed.

Lemma posfin_finite (x : double) : posfin x -> finite x.
Proof. destruct x; simpl; tauto. Qed.

Lemma posfin_inv (x : double) : posfin x -> exists r, x = Fin r /\ (0 < r)%R.
Proof. destruct x; simpl; intros Hx; try contradiction. eauto. Qed.

Lemma finite_inv (x : double) : finite x -> exists r, x = Fin r.
Proof. destruct x; simpl; intros Hx; try contradiction. eauto. Qed.

Lemma fmul_pos (a b : double) : posfin a -> posfin b -> posfin (fmul a b).
Proof.
  destruct a, b; simpl; try tauto. intros Ha Hb. apply Rmult_lt_0_compat; assumption.
Qed.

Lemma fadd_pos (a b : double) : posfin a -> posfin b -> posfin (fadd a b).
Proof. destruct a, b; simpl; try tauto. intros; lra. Qed.

Lemma fadd_nonneg_pos (a b : double) : nonnegfin a -> posfin b -> posfin (fadd a b).
Proof. destruct a, b; simpl; try tauto. intros; lra. Qed.

Lemma fdiv_pos (a b : double) : posfin a -> posfin b -> posfin (fdiv a b).
Proof.
  destruct a as [x| | |], b as [y| | |]; simpl; try tauto. intros Hx Hy.
  rewrite (Rsgn_pos _ Hy). simpl. apply Rdiv_lt_0_compat; assumption.
Qed.

Lemma fdiv_fin (x y : R) : (0 < y)%R -> fdiv (Fin x) (Fin y) = Fin (x / y)%R.
Proof. intros Hy. simpl. rewrite (Rsgn_pos _ Hy). reflexivity. Qed.

Lemma flog_pos_finite (a : double) : posfin a -> finite (flog a).
Proof.
  destruct a as [x| | |]; simpl; try tauto. intros Hx. rewrite (Rsgn_pos _ Hx). exact I.
Qed.

Lemma fexp_finite_pos (a : double) : finite a -> posfin (fexp a).
Proof. destruct a; simpl; try tauto. intros _. apply exp_pos. Qed.

Lemma fmul_finite (a b : double) : finite a -> finite b -> finite (fmul a b).
Proof. destruct a, b; simpl; tauto. Qed.

Lemma fadd_finite (a b : double) : finite a -> finite b -> finite (fadd a b).
Proof. destruct a, b; simpl; tauto. Qed.

Lemma fsub_finite (a b : double) : finite a -> finite b -> finite (fsub a b).
Proof. destruct a, b; simpl; tauto. Qed.

Lemma of_int_finite (z : Z) : finite (of_int z).
Proof. exact I. Qed.

Lemma of_int_pos (z : Z) : 0 < z -> posfin (of_int z).
Proof. intros Hz. simpl. apply IZR_lt. assumption. Qed.

(** Zero divided by zero is nan: nothing is raised. *)
Lemma fdiv_zero_zero : fdiv (Fin 0%R) (Fin 0%R) = NaN.
Proof. simpl. rewrite Rsgn_zero. reflexivity. Qed.

(** ** Facts about arrays *)

Lemma sum_from_finite (l : list double) (a : R) :
  Forall finite l ->
  fold_left fadd l (Fin a) = Fin (a + Rsum (map toR l))%R.
Proof.
  revert a. induction l as [| x l IH]; intros a Hl; simpl.
  - f_equal. lra.
  - inversion Hl as [| ? ? Hx Hl']; subst.
    destruct (finite_inv _ Hx) as [r ->]. simpl.
    rewrite IH by assumption. f_equal. lra.
Qed.

Lemma sum_finite (l : list double) :
  Forall finite l -> Np.sum l = Fin (Rsum (map toR l)).
Proof.
  intros Hl. unfold Np.sum. rewrite sum_from_finite by assumption. f_equal. lra.
Qed.

Lemma Forall_posfin_finite (l : list double) : Forall posfin l -> Forall finite l.
Proof. intros Hl. eapply Forall_impl; [| exact Hl]. exact posfin_finite. Qed.

Lemma Rsum_pos (l : list double) :
  Forall posfin l -> l <> [] -> (0 < Rsum (map toR l))%R.
Proof.
  induction l as [| x l IH]; intros Hl Hne; [congruence |].
  inversion Hl as [| ? ? Hx Hl']; subst.
  destruct (posfin_inv _ Hx) as [r [-> Hr]]. simpl.
  destruct l as [| y l'].
  - simpl. lra.
  - assert (0 < Rsum (map toR (y :: l')))%R by (apply IH; [assumption | discriminate]).
    lra.
Qed.

Lemma sum_posfin (l : list double) :
  Forall posfin l -> l <> [] -> posfin (Np.sum l).
Proof.
  intros Hl Hne. rewrite sum_finite by (apply Forall_posfin_finite; assumption).
  simpl. apply Rsum_pos; assumption.
Qed.

Lemma Rsum_scale (l : list R) (c : R) :
  Rsum (map (fun x => x * c)%R l) = (Rsum l * c)%R.
Proof. induction l as [| x l IH]; simpl; [lra | rewrite IH; lra]. Qed.

(** Dividing positive weights by their sum gives positive weights that sum
    to one. *)
Lemma normalized_sum (l : list double) :
  Forall posfin l -> l <> [] ->
  let total := Np.sum l in
  Forall posfin (map (fun p => fdiv p total) l) /\
  Np.sum (map (fun p => fdiv p total) l) = Fin 1%R.
Proof.
  intros Hl Hne total.
  assert (Htot : total = Fin (Rsum (map toR l))).
  { apply sum_finite, Forall_posfin_finite; assumption. }
  assert (HT : (0 < Rsum (map toR l))%R) by (apply Rsum_pos; assumption).
  set (T := Rsum (map toR l)) in *.
  assert (Hmap : map (fun p => fdiv p total) l = map (fun p => Fin (toR p * / T)%R) l).
  { apply map_ext_in. intros p Hp.
    rewrite Forall_forall in Hl. destruct (posfin_inv _ (Hl p Hp)) as [r [-> Hr]].
    rewrite Htot, fdiv_fin by assumption. reflexivity. }
  rewrite Hmap. split.
  - rewrite Forall_map. eapply Forall_impl; [| exact Hl].
    intros p Hp. destruct (posfin_inv _ Hp) as [r [-> Hr]]. simpl.
    apply Rmult_lt_0_compat; [assumption | apply Rinv_0_lt_compat; assumption].
  - rewrite sum_finite.
    + f_equal. rewrite map_map. simpl.
      rewrite <- (map_map toR (fun x => (x * / T)%R)), Rsum_scale.
      fold T. field. lra.
    + rewrite Forall_map. apply Forall_forall. intros; exact I.
Qed.

Lemma zip_with_length {A B C} (f : A -> B -> C) (xs : list A) (ys : list B) :
  length xs = length ys -> length (Np.zip_with f xs ys) = length xs.
Proof.
  revert ys. induction xs as [| x xs IH]; intros [| y ys] Hlen; simpl in *;
    try congruence. f_equal. apply IH. congruence.
Qed.

Lemma zip_with_Forall {A B C} (f : A -> B -> C) (P : A -> Prop) (Q : B -> Prop)
    (S : C -> Prop) (xs : list A) (ys : list B) :
  (forall x y, P x -> Q y -> S (f x y)) ->
  Forall P xs -> Forall Q ys -> Forall S (Np.zip_with f xs ys).
Proof.
  intros Hf Hxs. revert ys. induction Hxs as [| x xs Hx Hxs IH];
    intros ys Hys; simpl; [constructor |].
  destruct Hys as [| y ys Hy Hys]; constructor; auto.
Qed.

Lemma inplace_same_length {A B} (f : A -> B -> A) (xs : list A) (ys : list B) :
  length xs = length ys -> Np.inplace f xs ys = Ok (Np.zip_with f xs ys).
Proof.
  intros Hlen. unfold Np.inplace. rewrite Hlen, Nat.eqb_refl. reflexivity.
Qed.

Lemma bcast_same_length {A B C} (f : A -> B -> C) (xs : list A) (ys : list B) :
  length xs = length ys -> Np.bcast f xs ys = Ok (Np.zip_with f xs ys).
Proof.
  intros Hlen. unfold Np.bcast. rewrite Hlen, Nat.eqb_refl. reflexivity.
Qed.

Lemma rmapM_ok {A B} (f : A -> result B) (g : A -> B) (l : list A) :
  (forall a, In a l -> f a = Ok (g a)) -> rmapM f l = Ok (map g l).
Proof.
  induction l as [| a l IH]; intros Hf; simpl; [reflexivity |].
  rewrite Hf by (left; reflexivity). simpl.
  rewrite IH by (intros; apply Hf; right; assumption). reflexivity.
Qed.

Lemma rmapM_length {A B} (f : A -> result B) (l : list A) (out : list B) :
  rmapM f l = Ok out -> length out = length l.
Proof.
  revert out. induction l as [| a l IH]; intros out; simpl.
  - intros E. inversion E. reflexivity.
  - destruct (f a) as [b |]; simpl; [| discriminate].
    destruct (rmapM f l) as [bs |]; simpl; [| discriminate].
    intros E. inversion E. simpl. f_equal. apply IH. reflexivity.
Qed.

Lemma flt_fin (a b : R) : flt (Fin a) (Fin b) = true <-> (a < b)%R.
Proof.
  simpl. split.
  - destruct (Rsgn (b - a)) eqn:E; try discriminate. intros _.
    apply Rsgn_Gt_inv in E. lra.
  - intros Hab. rewrite Rsgn_pos by lra. reflexivity.
Qed.

Lemma fmaximum_fin (a b : R) : fmaximum (Fin a) (Fin b) = Fin (Rmax a b).
Proof.
  unfold fmaximum. destruct (flt (Fin a) (Fin b)) eqn:E.
  - apply flt_fin in E. rewrite Rmax_right by lra. reflexivity.
  - assert (~ (a < b)%R) by (intros H; apply flt_fin in H; congruence).
    rewrite Rmax_left by lra. reflexivity.
Qed.

Lemma fold_maximum_spec (l : list double) (a : R) :
  Forall finite l ->
  exists r, fold_left fmaximum l (Fin a) = Fin r /\
            (r = a \/ In (Fin r) l) /\ (a <= r)%R /\
            Forall (fun x => (toR x <= r)%R) l.
Proof.
  revert a. induction l as [| x l IH]; intros a Hl; cbn [fold_left].
  - exists a. repeat split; auto; try lra.
  - inversion Hl as [| ? ? Hx Hl']; subst.
    destruct (finite_inv _ Hx) as [b ->]. rewrite fmaximum_fin.
    destruct (IH (Rmax a b) Hl') as [r [E [Hin [Hle Hall]]]].
    exists r. split; [exact E |].
    pose proof (Rmax_l a b). pose proof (Rmax_r a b).
    repeat split.
    + destruct Hin as [-> | Hin]; [| right; right; exact Hin].
      unfold Rmax. destruct (Rle_dec a b); [right; left; reflexivity | left; reflexivity].
    + lra.
    + constructor; [simpl; lra | exact Hall].
Qed.

(** [numpy.max] of a non-empty array of finite values is one of them and
    bounds them all. *)
Lemma max_spec (l : list double) :
  Forall finite l -> l <> [] ->
  exists r, Np.max l = Ok (Fin r) /\ In (Fin r) l /\
            Forall (fun x => (toR x <= r)%R) l.
Proof.
  intros Hl Hne. destruct l as [| x l]; [congruence |].
  inversion Hl as [| ? ? Hx Hl']; subst.
  destruct (finite_inv _ Hx) as [a ->]. cbn [Np.max].
  destruct (fold_maximum_spec l a Hl') as [r [E [Hin [Hle Hall]]]].
  exists r. split; [rewrite E; reflexivity |]. split.
  - destruct Hin as [-> | Hin]; [left; reflexivity | right; exact Hin].
  - constructor; [simpl; lra | exact Hall].
Qed.

(** The scaling step of every [SampleLikelihood]: after the maximum is
    subtracted, the exponentials are positive and their maximum is 1. *)
Lemma exp_shift_max (l : list double) (mx : double) :
  Forall finite l -> Np.max l = Ok mx ->
  let likes := map fexp (map (fun x => fsub x mx) l) in
  Forall posfin likes /\ Np.max likes = Ok (Fin 1%R).
Proof.
  intros Hl Hmx likes.
  assert (Hne : l <> []) by (intros ->; discriminate).
  destruct (max_spec l Hl Hne) as [r [E [Hin Hall]]].
  rewrite E in Hmx. inversion Hmx; subst mx.
  assert (Hlikes : likes = map (fun x => Fin (exp (toR x - r))) l).
  { unfold likes. rewrite map_map. apply map_ext_in. intros x Hx.
    rewrite Forall_forall in Hl. destruct (finite_inv _ (Hl x Hx)) as [a ->].
    simpl. f_equal. }
  assert (Hpos : Forall posfin likes).
  { rewrite Hlikes, Forall_map. apply Forall_forall. intros x _. simpl. apply exp_pos. }
  split; [exact Hpos |].
  assert (Hne' : likes <> []).
  { rewrite Hlikes. destruct l; [congruence | discriminate]. }
  destruct (max_spec likes (Forall_posfin_finite _ Hpos) Hne') as [s [Es [Hins Halls]]].
  rewrite Es. do 2 f_equal.
  apply Rle_antisym.
  - rewrite Hlikes in Hins. apply in_map_iff in Hins. destruct Hins as [x [Hx Hxl]].
    inversion Hx; subst s. rewrite Forall_forall in Hall. specialize (Hall x Hxl).
    rewrite <- exp_0. destruct (Req_dec (toR x - r) 0) as [-> | Hneq]; [lra |].
    left. apply exp_increasing. lra.
  - rewrite Forall_forall in Halls.
    assert (Hone : In (Fin 1%R) likes).
    { rewrite Hlikes. apply in_map_iff. exists (Fin r). split; [| exact Hin].
      simpl. f_equal. rewrite <- exp_0. f_equal. lra. }
    specialize (Halls _ Hone). simpl in Halls. exact Halls.
Qed.

Lemma skipn_as_nth {A} (d : A) (l : list A) :
  forall j : nat,
    skipn j l = map (fun i => nth (j + i) l d) (seq 0%nat (length l - j)).
Proof.
  induction l as [| x l IH]; intros j.
  - destruct j; reflexivity.
  - destruct j as [| j].
    + cbn [skipn length Nat.sub seq map Nat.add nth]. f_equal.
      rewrite <- seq_shift, map_map. rewrite (IH 0%nat) at 1.
      cbn [skipn]. rewrite Nat.sub_0_r. apply map_ext. intros i. reflexivity.
    + cbn [skipn length Nat.sub]. rewrite (IH j). apply map_ext. intros i. reflexivity.
Qed.

Lemma fold_add_shift (l : list Z) (a : Z) :
  fold_left Z.add l a = a + fold_left Z.add l 0.
Proof.
  revert a. induction l as [| x l IH]; intros a; simpl; [lia |].
  rewrite (IH (a + x)), (IH x). lia.
Qed.

Lemma acc_draws_ext (sl1 sl2 : rng -> list double) (k : nat) :
  (forall g, sl1 g = sl2 g) ->
  forall acc g, acc_draws sl1 k acc g = acc_draws sl2 k acc g.
Proof.
  intros H. induction k as [| k IH]; intros acc g; [reflexivity |].
  cbn [acc_draws]. rewrite H. apply IH.
Qed.

(** ** The random source *)

Lemma tick_positive (g : rng) : positive_draws g -> positive_draws (tick g).
Proof. intros Hg k j a. apply Hg. Qed.

Lemma ticks_positive (k : nat) (g : rng) : positive_draws g -> positive_draws (ticks k g).
Proof.
  revert g. induction k as [| k IH]; intros g Hg; simpl; [exact Hg |].
  apply IH, tick_positive, Hg.
Qed.

Lemma ticks_calls (k : nat) (g : rng) : calls (ticks k g) = (calls g + k)%nat.
Proof.
  revert g. induction k as [| k IH]; intros g; simpl; [lia |].
  rewrite IH. simpl. lia.
Qed.

Lemma ticks_succ (k : nat) (g : rng) : ticks (S k) g = tick (ticks k g).
Proof.
  revert g. induction k as [| k IH]; intros g; [reflexivity |].
  change (ticks (S (S k)) g) with (ticks (S k) (tick g)). rewrite IH. reflexivity.
Qed.

Lemma gamma_values_length (g : rng) (shape : list Z) :
  length (gamma_values g shape) = length shape.
Proof.
  unfold gamma_values. rewrite length_map, length_combine, length_seq. lia.
Qed.

Lemma gamma_values_pos (g : rng) (shape : list Z) :
  positive_draws g -> Forall posfin (gamma_values g shape).
Proof.
  intros Hg. unfold gamma_values. rewrite Forall_map.
  apply Forall_forall. intros ja _. simpl. apply Hg.
Qed.

Lemma gamma_ok (shape : list Z) (g : rng) :
  Forall (fun a => 0 < a) shape ->
  Np.gamma shape g = Ok (gamma_values g shape, tick g).
Proof.
  intros Hs. unfold Np.gamma.
  assert (E : existsb (fun a => a <=? 0) shape = false).
  { induction Hs as [| a l Ha Hl IH]; simpl; [reflexivity |].
    rewrite IH. destruct (Z.leb_spec a 0); [lia | reflexivity]. }
  rewrite E. reflexivity.
Qed.

Lemma cumsum_from_length (acc : double) (l : list double) :
  length (Np.cumsum_from acc l) = length l.
Proof.
  revert acc. induction l as [| x l IH]; intros acc; simpl; [reflexivity |].
  rewrite IH. reflexivity.
Qed.

Lemma cumsum_length (l : list double) : length (Np.cumsum l) = length l.
Proof. destruct l; simpl; [reflexivity | rewrite cumsum_from_length; reflexivity]. Qed.

Lemma cumsum_from_pos (acc : double) (l : list double) :
  posfin acc -> Forall posfin l -> Forall posfin (Np.cumsum_from acc l).
Proof.
  revert acc. induction l as [| x l IH]; intros acc Hacc Hl; simpl; [constructor |].
  inversion Hl; subst. constructor.
  - apply fadd_pos; assumption.
  - apply IH; [apply fadd_pos |]; assumption.
Qed.

Lemma cumsum_pos (l : list double) : Forall posfin l -> Forall posfin (Np.cumsum l).
Proof.
  intros Hl. destruct l as [| x l]; simpl; [constructor |].
  inversion Hl; subst. constructor; [assumption | apply cumsum_from_pos; assumption].
Qed.

Lemma getitem_ok {A} (l : list A) (i : Z) :
  0 <= i < Np.len l -> exists x, Np.getitem l i = Ok x /\ In x l.
Proof.
  unfold Np.getitem, Np.len. intros Hi.
  destruct (Z.ltb_spec i 0); [lia |].
  destruct (Z.ltb_spec i 0); [lia |].
  destruct (Z.leb_spec (Z.of_nat (length l)) i); [lia |]. simpl.
  destruct (nth_error l (Z.to_nat i)) as [x |] eqn:E.
  - exists x. split; [reflexivity |]. eapply nth_error_In; eassumption.
  - apply nth_error_None in E. lia.
Qed.

Lemma getitem_in {A} (l : list A) (i : Z) (x : A) :
  Np.getitem l i = Ok x -> In x l.
Proof.
  unfold Np.getitem. destruct (_ || _); [discriminate |].
  destruct (nth_error l _) as [y |] eqn:E; [| discriminate].
  intros H. inversion H; subst. eapply nth_error_In; eassumption.
Qed.

Lemma take_length_le {A} (l : list A) (m : Z) :
  0 <= m <= Np.len l -> length (Np.take l m) = Z.to_nat m.
Proof.
  unfold Np.take, Np.bound, Np.len. intros Hm.
  destruct (Z.ltb_spec m 0); [lia |]. rewrite length_firstn. lia.
Qed.

Lemma firstn_skipn_Forall {A} (P : A -> Prop) (k : nat) (l : list A) :
  Forall P l -> Forall P (firstn k l) /\ Forall P (skipn k l).
Proof.
  intros Hl. rewrite <- (firstn_skipn k l) in Hl.
  apply Forall_app in Hl. exact Hl.
Qed.

Lemma firstn_Forall {A} (P : A -> Prop) (k : nat) (l : list A) :
  Forall P l -> Forall P (firstn k l).
Proof. intros Hl. apply (firstn_skipn_Forall P k l Hl). Qed.

Lemma skipn_Forall {A} (P : A -> Prop) (k : nat) (l : list A) :
  Forall P l -> Forall P (skipn k l).
Proof. intros Hl. apply (firstn_skipn_Forall P k l Hl). Qed.

Lemma take_Forall {A} (P : A -> Prop) (l : list A) (m : Z) :
  Forall P l -> Forall P (Np.take l m).
Proof. intros Hl. unfold Np.take. apply firstn_Forall. exact Hl. Qed.

Lemma drop_Forall {A} (P : A -> Prop) (l : list A) (m : Z) :
  Forall P l -> Forall P (Np.drop l m).
Proof. intros Hl. unfold Np.drop. apply skipn_Forall. exact Hl. Qed.

Lemma getitem_nth {A} (l : list A) (i : Z) (d : A) :
  0 <= i < Np.len l -> Np.getitem l i = Ok (nth (Z.to_nat i) l d).
Proof.
  unfold Np.getitem, Np.len. intros Hi.
  destruct (Z.ltb_spec i 0); [lia |].
  destruct (Z.ltb_spec i 0); [lia |].
  destruct (Z.leb_spec (Z.of_nat (length l)) i); [lia |]. simpl.
  destruct (nth_error l (Z.to_nat i)) as [x |] eqn:E.
  - rewrite (nth_error_nth _ _ d E). reflexivity.
  - apply nth_error_None in E. lia.
Qed.

Lemma max_nonempty (l : list double) : l <> [] -> Np.max l = Ok (max_val l).
Proof. destruct l; [congruence | reflexivity]. Qed.

Lemma exp_shift_length (l : list double) : length (exp_shift l) = length l.
Proof. unfold exp_shift. rewrite !length_map. reflexivity. Qed.

Lemma exp_shift_spec (l : list double) :
  Forall finite l -> l <> [] ->
  Forall posfin (exp_shift l) /\ Np.max (exp_shift l) = Ok (Fin 1%R).
Proof.
  intros Hl Hne. apply (exp_shift_max l (max_val l) Hl). apply max_nonempty, Hne.
Qed.

(** ** Species2: one draw *)

Lemma log_like_eq (row col : list double) (data : list Z) (n : Z) :
  length row = length data -> 1 <= n <= Np.len col ->
  Species2.log_like row col data n = Ok (log_like_val row col data n).
Proof.
  intros Hlen Hn. unfold Species2.log_like.
  rewrite (getitem_nth col (n - 1) NaN) by lia. simpl.
  rewrite bcast_same_length by (rewrite !length_map; exact Hlen).
  reflexivity.
Qed.

Lemma log_like_val_finite (row col : list double) (data : list Z) (n : Z) :
  Forall posfin row -> Forall posfin col -> 1 <= n <= Np.len col ->
  finite (log_like_val row col data n).
Proof.
  intros Hrow Hcol Hn. unfold log_like_val.
  assert (Hc : posfin (nth (Z.to_nat (n - 1)) col NaN)).
  { rewrite Forall_forall in Hcol. apply Hcol, nth_In. unfold Np.len in Hn. lia. }
  set (c := nth _ col NaN) in *.
  rewrite sum_finite; [exact I |].
  apply zip_with_Forall with (P := finite) (Q := finite).
  - intros; apply fmul_finite; assumption.
  - rewrite !Forall_map. eapply Forall_impl; [| exact Hrow].
    intros r Hr. apply flog_pos_finite, fdiv_pos; assumption.
  - rewrite Forall_map. apply Forall_forall. intros; exact I.
Qed.

Lemma Species2_SampleLikelihood_exp_eq (st : Species2.t) (data : list Z) (g : rng) :
  shapes_ok st -> Np.len data <= Np.len (Species2.params st) ->
  Species2.SampleLikelihood_exp st data g = Ok (exp_shift (log_likes_val g st data), tick g).
Proof.
  intros [Hne [Hpl [Hns Hpar]]] Hm.
  unfold Species2.SampleLikelihood_exp, bind. rewrite gamma_ok by assumption.
  set (gammas := gamma_values g (Species2.params st)).
  assert (Hgl : length gammas = length (Species2.params st)) by apply gamma_values_length.
  unfold lift.
  rewrite (rmapM_ok _ (log_like_val (Np.take gammas (Np.len data)) (Np.cumsum gammas) data)).
  - rewrite max_nonempty.
    + reflexivity.
    + destruct (Species2.ns st); [congruence | discriminate].
  - intros n Hn. apply log_like_eq.
    + rewrite take_length_le; unfold Np.len in *; [lia | lia].
    + rewrite Forall_forall in Hns. specialize (Hns n Hn).
      unfold Np.len in *. rewrite cumsum_length, Hgl. exact Hns.
Qed.

Lemma Species2_SampleLikelihood_eq (st : Species2.t) (data : list Z) (g : rng) :
  shapes_ok st -> Np.len data <= Np.len (Species2.params st) ->
  Species2.SampleLikelihood st data g =
  Ok (Np.zip_with fmul (exp_shift (log_likes_val g st data)) (coefs st data), tick g).
Proof.
  intros Hst Hm. unfold Species2.SampleLikelihood, bind.
  rewrite Species2_SampleLikelihood_exp_eq by assumption.
  unfold lift. rewrite inplace_same_length; [reflexivity |].
  rewrite exp_shift_length. unfold log_likes_val. rewrite !length_map. reflexivity.
Qed.

Lemma log_likes_val_finite (st : Species2.t) (data : list Z) (g : rng) :
  shapes_ok st -> positive_draws g -> Forall finite (log_likes_val g st data).
Proof.
  intros [Hne [Hpl [Hns Hpar]]] Hg. unfold log_likes_val.
  rewrite Forall_map. eapply Forall_impl; [| exact Hns].
  intros n Hn. apply log_like_val_finite.
  - apply take_Forall, gamma_values_pos, Hg.
  - apply cumsum_pos, gamma_values_pos, Hg.
  - unfold Np.len in *. rewrite cumsum_length, gamma_values_length. exact Hn.
Qed.

(** ** Accumulating draws *)

Lemma acc_draws_length (sl : rng -> list double) (len : nat) (k : nat)
    (acc : list double) (g : rng) :
  (forall g', length (sl g') = len) -> length acc = len ->
  length (acc_draws sl k acc g) = len.
Proof.
  intros Hsl. revert acc g. induction k as [| k IH]; intros acc g Hacc; simpl.
  - exact Hacc.
  - apply IH. rewrite zip_with_length; [exact Hacc | rewrite Hsl; exact Hacc].
Qed.

Lemma for_range_draws (SL : M (list double)) (sl : rng -> list double) (len : nat)
    (k : nat) (acc : list double) (g : rng) :
  (forall g', SL g' = Ok (sl g', tick g')) ->
  (forall g', length (sl g') = len) ->
  length acc = len ->
  for_range k (fun like => s <- SL ;; lift (Np.inplace fadd like s)) acc g
  = Ok (acc_draws sl k acc g, ticks k g).
Proof.
  intros HSL Hsl. revert acc g. induction k as [| k IH]; intros acc g Hacc.
  - reflexivity.
  - cbn [for_range acc_draws ticks]. unfold bind at 1. unfold bind at 1.
    rewrite HSL. unfold lift.
    rewrite inplace_same_length by (rewrite Hsl; exact Hacc).
    apply IH. rewrite zip_with_length; [exact Hacc | rewrite Hsl; exact Hacc].
Qed.

Lemma acc_draws_pos (sl : rng -> list double) (k : nat) (acc : list double) (g : rng) :
  (forall g', positive_draws g' -> Forall posfin (sl g')) ->
  positive_draws g ->
  (Forall posfin acc \/ (Forall nonnegfin acc /\ (0 < k)%nat)) ->
  Forall posfin (acc_draws sl k acc g).
Proof.
  intros Hsl. revert acc g. induction k as [| k IH]; intros acc g Hg Hacc; simpl.
  - destruct Hacc as [Hacc | [_ Hk]]; [exact Hacc | lia].
  - apply IH; [apply tick_positive, Hg |]. left.
    destruct Hacc as [Hacc | [Hacc _]].
    + apply zip_with_Forall with (P := posfin) (Q := posfin); auto using fadd_pos.
    + apply zip_with_Forall with (P := nonnegfin) (Q := posfin);
        auto using fadd_nonneg_pos.
Qed.

Lemma repeat_Forall {A} (P : A -> Prop) (x : A) (k : nat) : P x -> Forall P (repeat x k).
Proof. intros Hx. induction k; simpl; constructor; assumption. Qed.

(** ** Species2: the whole update *)

Lemma reweight_eq (probs like : list double) :
  length probs = length like ->
  Species2.reweight probs like = Ok (reweight_val probs like).
Proof.
  intros Hlen. unfold Species2.reweight.
  rewrite inplace_same_length by exact Hlen. reflexivity.
Qed.

Lemma reweight_val_length (probs like : list double) :
  length probs = length like -> length (reweight_val probs like) = length probs.
Proof.
  intros Hlen. unfold reweight_val. rewrite length_map. apply zip_with_length, Hlen.
Qed.

Lemma add_counts_eq (params data : list Z) :
  Np.len data <= Np.len params ->
  Species2.add_counts params data = Ok (add_counts_val params data).
Proof.
  intros Hm. unfold Species2.add_counts.
  rewrite inplace_same_length; [reflexivity |].
  rewrite take_length_le; unfold Np.len in *; lia.
Qed.

Lemma Species2_sl_length (st : Species2.t) (data : list Z) (g : rng) :
  length (Np.zip_with fmul (exp_shift (log_likes_val g st data)) (coefs st data))
  = length (Species2.ns st).
Proof.
  rewrite zip_with_length; rewrite exp_shift_length; unfold log_likes_val, coefs;
    rewrite !length_map; reflexivity.
Qed.

Lemma Species2_Update_with_eq (k : nat) (st : Species2.t) (data : list Z) (g : rng) :
  shapes_ok st -> Np.len data <= Np.len (Species2.params st) ->
  Species2.Update_with k st data g = Ok (Species2_after k st data g, ticks k g).
Proof.
  intros Hst Hm. unfold Species2.Update_with. unfold bind at 1.
  rewrite (for_range_draws _
             (fun g' => Np.zip_with fmul (exp_shift (log_likes_val g' st data))
                                    (coefs st data))
             (length (Species2.ns st))).
  - unfold bind, lift. rewrite reweight_eq.
    + cbn [Species2.set_probs Species2.params].
      rewrite add_counts_eq by exact Hm. reflexivity.
    + destruct Hst as [_ [Hpl _]]. rewrite Hpl. symmetry.
      apply acc_draws_length; [intros; apply Species2_sl_length | apply repeat_length].
  - intros g'. apply Species2_SampleLikelihood_eq; assumption.
  - intros g'. apply Species2_sl_length.
  - apply repeat_length.
Qed.

(** ** C1: the marginal of one coordinate after a conjugate update *)

Lemma unit_rng_positive : positive_draws unit_rng.
Proof. intros k j a. simpl. lra. Qed.

Lemma init_three (iterations : Z) :
  Species2.init [3] iterations
  = Ok (Species2.mk [3] [Fin 1%R] [1; 1; 1] iterations).
Proof. reflexivity. Qed.

Lemma shapes_ok_three (iterations : Z) (probs : list double) :
  length probs = 1%nat ->
  shapes_ok (Species2.mk [3] probs [1; 1; 1] iterations).
Proof.
  intros Hp. unfold shapes_ok. simpl. repeat split.
  - discriminate.
  - exact Hp.
  - repeat constructor; unfold Np.len; simpl; lia.
  - repeat constructor.
Qed.

(** C1 (as amended).  A 3-category model built by [Species2([3])] starts from
    the flat prior [1, 1, 1]; after [Update([3, 2, 1])], whatever the random
    draws, [MarginalBeta(3, i)] is the Beta distribution with parameters
    [(1 + data[i], 2 + sum(data) - data[i])], that is
    [(params[i], sum(params) - params[i])]: (4, 5), (3, 6) and (2, 7).  The
    [DirichletModel] of the specification gives the same three marginals. *)
Theorem marginal_after_update (iterations : Z) (g : rng) :
  let data := [3; 2; 1] in
  exists st0 st1 g1,
    Species2.init [3] iterations = Ok st0 /\
    Species2.params st0 = [1; 1; 1] /\
    Species2.Update st0 data g = Ok (st1, g1) /\
    Forall (fun i =>
              Species2.MarginalBeta st1 3 (Z.of_nat i)
              = Ok (thinkbayes.mkBeta (1 + nth i data 0)
                                      (2 + fold_right Z.add 0 data - nth i data 0)) /\
              rbind (thinkbayes.Dirichlet_init 3) (fun d0 =>
              rbind (thinkbayes.Dirichlet_Update d0 data) (fun d1 =>
                thinkbayes.Dirichlet_MarginalBeta d1 (Z.of_nat i)))
              = Ok (thinkbayes.mkBeta (1 + nth i data 0)
                                      (2 + fold_right Z.add 0 data - nth i data 0)))
           [0; 1; 2]%nat.
Proof.
  intros data. eexists _, _, _. split; [apply init_three |].
  split; [reflexivity |]. split.
  - unfold Species2.Update. apply Species2_Update_with_eq.
    + apply shapes_ok_three. reflexivity.
    + unfold Np.len. simpl. lia.
  - repeat constructor.
Qed.

(** C1 (as stated) fails: for coordinate 0 the second parameter is 5, not
    [1 + sum(data) - data[0] = 4]. *)
Lemma marginal_second_parameter_counterexample :
  exists st0 st1 g1,
    Species2.init [3] 1000 = Ok st0 /\
    Species2.Update st0 [3; 2; 1] unit_rng = Ok (st1, g1) /\
    Species2.MarginalBeta st1 3 0 = Ok (thinkbayes.mkBeta 4 5) /\
    thinkbayes.mkBeta 4 5 <> thinkbayes.mkBeta (1 + 3) (1 + (3 + 2 + 1) - 3).
Proof.
  eexists _, _, _. split; [apply init_three |]. split.
  - unfold Species2.Update. apply Species2_Update_with_eq.
    + apply shapes_ok_three. reflexivity.
    + unfold Np.len. simpl. lia.
  - split; [reflexivity | discriminate].
Qed.

(** ** Species3 and Species5: one draw *)

Lemma drop_length {A} (l : list A) (a : Z) :
  0 <= a <= Np.len l -> Np.len (Np.drop l a) = Np.len l - a.
Proof.
  unfold Np.drop, Np.bound, Np.len. intros Ha.
  destruct (Z.ltb_spec a 0); [lia |]. rewrite length_skipn. lia.
Qed.

Lemma range_ok_first (st : Species2.t) :
  range_ok st ->
  Np.getitem (Species2.ns st) 0 = Ok (hd 0 (Species2.ns st)) /\
  1 <= hd 0 (Species2.ns st) <= Np.len (Species2.params st).
Proof.
  intros [[Hne [_ [Hns _]]] _]. destruct (Species2.ns st) as [| a l]; [congruence |].
  split; [reflexivity |]. inversion Hns; subst. simpl. assumption.
Qed.

Lemma tail_sums_length (g : rng) (st : Species2.t) :
  range_ok st -> length (tail_sums g st) = length (Species2.ns st).
Proof.
  intros Hst. destruct (range_ok_first st Hst) as [_ Hfirst].
  destruct Hst as [_ Hlen]. unfold tail_sums.
  assert (H : Np.len (Np.drop (Np.cumsum (gamma_values g (Species2.params st)))
                              (hd 0 (Species2.ns st) - 1))
              = Np.len (Species2.ns st)).
  { rewrite drop_length.
    - unfold Np.len in *. rewrite cumsum_length, gamma_values_length. lia.
    - unfold Np.len in *. rewrite cumsum_length, gamma_values_length. lia. }
  unfold Np.len in H. lia.
Qed.

Lemma tail_sums_pos (g : rng) (st : Species2.t) :
  positive_draws g -> Forall posfin (tail_sums g st).
Proof.
  intros Hg. unfold tail_sums. apply drop_Forall, cumsum_pos, gamma_values_pos, Hg.
Qed.

Lemma Species3_SampleLikelihood_exp_eq (st : Species2.t) (data : list Z) (g : rng) :
  range_ok st -> Np.len data <= Np.len (Species2.params st) ->
  Species3.SampleLikelihood_exp st data g
  = Ok (exp_shift (log_likes_val3 g st data), tick g).
Proof.
  intros Hst Hm. destruct (range_ok_first st Hst) as [Hget Hfirst].
  pose proof (tail_sums_length g st Hst) as Hlen.
  destruct Hst as [[Hne [Hpl [Hns Hpar]]] Hrange].
  unfold Species3.SampleLikelihood_exp, bind. rewrite gamma_ok by assumption.
  unfold lift. rewrite Hget.
  set (gammas := gamma_values g (Species2.params st)).
  assert (Hrow : length (Np.take gammas (Np.len data)) = length data).
  { rewrite take_length_le; unfold Np.len in *; [lia |].
    unfold gammas. rewrite gamma_values_length. lia. }
  rewrite bcast_same_length by exact Hrow.
  rewrite (rmapM_ok _ (fun ps => Np.zip_with fmul (map flog ps) (map of_int data))).
  - rewrite max_nonempty.
    + unfold log_likes_val3, tail_sums, exp_shift. fold gammas.
      rewrite !map_map. reflexivity.
    + rewrite !map_map. fold (tail_sums g st).
      intros E. apply map_eq_nil in E. change (tail_sums g st = []) in E.
      rewrite E in Hlen.
      destruct (Species2.ns st); [congruence | discriminate].
  - intros ps Hps. apply in_map_iff in Hps. destruct Hps as [c [<- _]].
    apply bcast_same_length. rewrite !length_map. exact Hrow.
Qed.

Lemma log_likes_val3_finite (st : Species2.t) (data : list Z) (g : rng) :
  positive_draws g -> Forall finite (log_likes_val3 g st data).
Proof.
  intros Hg. unfold log_likes_val3. rewrite Forall_map.
  eapply Forall_impl; [| apply tail_sums_pos, Hg].
  intros c Hc. rewrite sum_finite; [exact I |].
  apply zip_with_Forall with (P := finite) (Q := finite).
  - intros; apply fmul_finite; assumption.
  - rewrite !Forall_map.
    eapply Forall_impl; [| apply take_Forall, gamma_values_pos, Hg].
    intros r Hr. apply flog_pos_finite, fdiv_pos; assumption.
  - rewrite Forall_map. apply Forall_forall. intros; exact I.
Qed.

Lemma Species3_SampleLikelihood_eq (st : Species2.t) (data : list Z) (g : rng) :
  range_ok st -> Np.len data <= Np.len (Species2.params st) ->
  Species3.SampleLikelihood st data g =
  Ok (Np.zip_with fmul (exp_shift (log_likes_val3 g st data)) (coefs st data), tick g).
Proof.
  intros Hst Hm. unfold Species3.SampleLikelihood, bind.
  rewrite Species3_SampleLikelihood_exp_eq by assumption.
  unfold lift. rewrite inplace_same_length; [reflexivity |].
  rewrite exp_shift_length. unfold log_likes_val3, coefs. rewrite !length_map.
  apply tail_sums_length, Hst.
Qed.

Lemma Species5_SampleLikelihood_eq (st : Species2.t) (m count : Z) (g : rng) :
  range_ok st -> 1 <= m <= Np.len (Species2.params st) ->
  Species5.SampleLikelihood st m count g
  = Ok (exp_shift (log_likes_val5 g st m count), tick g).
Proof.
  intros Hst Hm. destruct (range_ok_first st Hst) as [Hget Hfirst].
  pose proof (tail_sums_length g st Hst) as Hlen.
  destruct Hst as [[Hne [Hpl [Hns Hpar]]] Hrange].
  unfold Species5.SampleLikelihood, bind. rewrite gamma_ok by assumption.
  unfold lift. rewrite Hget.
  rewrite (getitem_nth _ (m - 1) NaN)
    by (unfold Np.len in *; rewrite gamma_values_length; lia).
  rewrite max_nonempty.
  - unfold log_likes_val5, tail_sums, exp_shift. rewrite !map_map. reflexivity.
  - rewrite !map_map. fold (tail_sums g st).
    intros E. apply map_eq_nil in E. change (tail_sums g st = []) in E.
      rewrite E in Hlen.
    destruct (Species2.ns st); [congruence | discriminate].
Qed.

Lemma log_likes_val5_finite (st : Species2.t) (m count : Z) (g : rng) :
  positive_draws g -> 1 <= m <= Np.len (Species2.params st) ->
  Forall finite (log_likes_val5 g st m count).
Proof.
  intros Hg Hm. unfold log_likes_val5. rewrite Forall_map.
  eapply Forall_impl; [| apply tail_sums_pos, Hg].
  intros s Hs. apply fmul_finite; [| exact I].
  apply flog_pos_finite, fdiv_pos; [| exact Hs].
  pose proof (gamma_values_pos g (Species2.params st) Hg) as Hall.
  rewrite Forall_forall in Hall. apply Hall, nth_In.
  rewrite gamma_values_length. unfold Np.len in Hm. lia.
Qed.

(** ** An example state *)

Lemma range_ok_three (iterations : Z) (probs : list double) :
  length probs = 1%nat ->
  range_ok (Species2.mk [3] probs [1; 1; 1] iterations).
Proof.
  intros Hp. split; [apply shapes_ok_three, Hp | reflexivity].
Qed.

(** ** Binomial coefficients and dictionaries *)

Lemma choose_pos (n m : nat) : (m <= n)%nat -> (0 < thinkbayes.choose n m)%nat.
Proof.
  revert m. induction n as [| n IH]; intros m Hm.
  - assert (m = 0%nat) by lia. subst. simpl. lia.
  - destruct m as [| m]; simpl; [lia |].
    assert (0 < thinkbayes.choose n m)%nat by (apply IH; lia). lia.
Qed.

Lemma choose_zero (n m : nat) : (n < m)%nat -> thinkbayes.choose n m = 0%nat.
Proof.
  revert m. induction n as [| n IH]; intros m Hm.
  - destruct m; [lia | reflexivity].
  - destruct m as [| m]; [lia |]. simpl. rewrite !IH by lia. reflexivity.
Qed.

Lemma BinomialCoef_pos (n m : Z) : 0 <= m <= n -> posfin (thinkbayes.BinomialCoef n m).
Proof.
  intros Hm. unfold thinkbayes.BinomialCoef.
  destruct (Z.ltb_spec n 0); [lia |]. destruct (Z.ltb_spec m 0); [lia |]. simpl.
  apply IZR_lt. assert (0 < thinkbayes.choose (Z.to_nat n) (Z.to_nat m))%nat
    by (apply choose_pos; lia). lia.
Qed.

Lemma BinomialCoef_zero (n m : Z) : 0 <= n < m -> thinkbayes.BinomialCoef n m = Fin 0%R.
Proof.
  intros Hm. unfold thinkbayes.BinomialCoef.
  destruct (Z.ltb_spec n 0); [lia |]. destruct (Z.ltb_spec m 0); [lia |]. simpl.
  rewrite choose_zero by lia. reflexivity.
Qed.

Lemma dict_set_fresh {V} (k : Z) (v : V) (items : list (Z * V)) :
  ~ In k (map fst items) -> dict_set k v items = items ++ [(k, v)].
Proof.
  induction items as [| [k' v'] items IH]; intros Hk; simpl; [reflexivity |].
  simpl in Hk. destruct (Z.eqb_spec k' k); [tauto |].
  rewrite IH by tauto. reflexivity.
Qed.

Lemma dict_zip_from_nodup {V} (kvs : list (Z * V)) (items : list (Z * V)) :
  NoDup (map fst items ++ map fst kvs) ->
  fold_left (fun items kv => dict_set (fst kv) (snd kv) items) kvs items = items ++ kvs.
Proof.
  revert items. induction kvs as [| [k v] kvs IH]; intros items Hnd; simpl.
  - rewrite app_nil_r. reflexivity.
  - simpl in Hnd. rewrite dict_set_fresh.
    + rewrite IH.
      * rewrite <- app_assoc. reflexivity.
      * rewrite map_app. simpl. rewrite <- app_assoc. simpl. exact Hnd.
    + intros Hin. apply NoDup_remove_2 in Hnd. apply Hnd.
      apply in_or_app. left. exact Hin.
Qed.

(** With distinct candidates the dictionary of [DistOfN] pairs every candidate
    with its weight. *)
Lemma DistOfN_nodup (st : Species2.t) :
  NoDup (Species2.ns st) -> length (Species2.probs st) = length (Species2.ns st) ->
  Species2.DistOfN st = combine (Species2.ns st) (Species2.probs st) /\
  map snd (Species2.DistOfN st) = Species2.probs st.
Proof.
  intros Hnd Hlen. unfold Species2.DistOfN, dict_zip.
  rewrite dict_zip_from_nodup.
  - simpl. split; [reflexivity |].
    revert Hlen. generalize (Species2.probs st). generalize (Species2.ns st).
    intros ks. induction ks as [| k ks IH]; intros [| p ps] Hl; simpl in *;
      try congruence. f_equal. apply IH. congruence.
  - simpl. assert (E : map fst (combine (Species2.ns st) (Species2.probs st))
                       = Species2.ns st).
    { revert Hlen. generalize (Species2.probs st). generalize (Species2.ns st).
      intros ks. induction ks as [| k ks IH]; intros [| p ps] Hl; simpl in *;
        try congruence. f_equal. apply IH. congruence. }
    rewrite E. exact Hnd.
Qed.

(** ** Adding counts to the concentration parameters *)

Lemma bound_of_nat {A} (l : list A) (k : nat) : Np.bound l (Z.of_nat k) = k.
Proof.
  unfold Np.bound. destruct (Z.ltb_spec (Z.of_nat k) 0); lia.
Qed.

Lemma add_counts_val_prefix (params data : list Z) :
  add_counts_val params data = add_prefix params data.
Proof.
  unfold add_counts_val, Np.take, Np.drop, Np.len. rewrite !bound_of_nat.
  revert data. induction params as [| p ps IH]; intros [| d ds]; simpl; try reflexivity.
  f_equal. apply IH.
Qed.

Lemma add_prefix_length (params data : list Z) :
  length (add_prefix params data) = length params.
Proof.
  revert data. induction params as [| p ps IH]; intros [| d ds]; simpl; try reflexivity.
  f_equal. apply IH.
Qed.

Lemma wrap64_small (z : Z) : - 2 ^ 63 <= z < 2 ^ 63 -> wrap64 z = z.
Proof.
  intros Hz. unfold wrap64. rewrite Z.mod_small; lia.
Qed.

Lemma add_prefix_pos (params data : list Z) :
  Forall (fun a => 0 < a) params -> counts_ok params data ->
  Forall (fun a => 0 < a) (add_prefix params data).
Proof.
  revert data. induction params as [| p ps IH]; intros [| d ds] Hp Hc; simpl;
    try assumption.
  inversion Hp; subst. destruct Hc as [[Hd Hpd] Hc]. constructor.
  - unfold add64. rewrite wrap64_small; lia.
  - apply IH; assumption.
Qed.

(** ** C2: the outer weights sum to one after an update *)

Lemma compatible_len (st : Species2.t) (data : list Z) :
  shapes_ok st -> Forall (fun n => Np.len data <= n) (Species2.ns st) ->
  Np.len data <= Np.len (Species2.params st).
Proof.
  intros [Hne [_ [Hns _]]] Hm.
  destruct (Species2.ns st) as [| n l]; [congruence |].
  inversion Hns; subst. inversion Hm; subst. lia.
Qed.

Lemma coefs_pos (st : Species2.t) (data : list Z) :
  Forall (fun n => Np.len data <= n) (Species2.ns st) ->
  Forall posfin (coefs st data).
Proof.
  intros Hm. unfold coefs. rewrite Forall_map.
  eapply Forall_impl; [| exact Hm].
  intros n Hn. apply BinomialCoef_pos. unfold Np.len in *. lia.
Qed.

Lemma scaled_likes_pos (log_likes factors : list double) :
  Forall finite log_likes -> log_likes <> [] -> Forall posfin factors ->
  Forall posfin (Np.zip_with fmul (exp_shift log_likes) factors).
Proof.
  intros Hfin Hne Hf.
  apply zip_with_Forall with (P := posfin) (Q := posfin); auto using fmul_pos.
  apply exp_shift_spec; assumption.
Qed.

Lemma reweight_val_spec (probs like : list double) :
  Forall posfin probs -> Forall posfin like ->
  length probs = length like -> probs <> [] ->
  Forall posfin (reweight_val probs like) /\
  Np.sum (reweight_val probs like) = Fin 1%R.
Proof.
  intros Hp Hl Hlen Hne. unfold reweight_val. apply normalized_sum.
  - apply zip_with_Forall with (P := posfin) (Q := posfin); auto using fmul_pos.
  - intros E. apply (f_equal (@length double)) in E.
    rewrite zip_with_length in E by exact Hlen.
    destruct probs; [congruence | discriminate].
Qed.

Lemma wf_set_probs (st : Species2.t) (like : list double) :
  wf st -> Forall posfin like -> length like = length (Species2.ns st) ->
  wf (Species2.set_probs st (reweight_val (Species2.probs st) like)) /\
  Np.sum (reweight_val (Species2.probs st) like) = Fin 1%R.
Proof.
  intros [[[Hne [Hpl [Hns Hpar]]] Hrange] [Hnd [Hpos Hit]]] Hl Hlen.
  destruct (reweight_val_spec (Species2.probs st) like) as [Hp' Hsum]; auto.
  - congruence.
  - intros E. rewrite E in Hpl. destruct (Species2.ns st); [congruence | discriminate].
  - split; [| exact Hsum].
    unfold wf, range_ok, shapes_ok. simpl.
    rewrite reweight_val_length by congruence. tauto.
Qed.

Lemma wf_set_params (st : Species2.t) (ps : list Z) :
  wf st -> length ps = length (Species2.params st) -> Forall (fun a => 0 < a) ps ->
  wf (Species2.set_params st ps).
Proof.
  intros [[[Hne [Hpl [Hns Hpar]]] Hrange] [Hnd [Hpos Hit]]] Hlen Hps.
  unfold wf, range_ok, shapes_ok, Np.len in *. simpl. rewrite Hlen. tauto.
Qed.

Lemma zeros_nonneg (k : nat) : Forall nonnegfin (repeat (Fin 0%R) k).
Proof. apply repeat_Forall. simpl. lra. Qed.

(** One update of Species2 on a compatible batch, for any positive number of
    draws. *)
Lemma Species2_Update_with_step (k : nat) (st : Species2.t) (data : list Z) (g : rng) :
  (0 < k)%nat -> wf st -> positive_draws g ->
  compatible (Species2.ns st) (Species2.params st) data ->
  exists st',
    Species2.Update_with k st data g = Ok (st', ticks k g) /\
    wf st' /\ Np.sum (Species2.probs st') = Fin 1%R /\
    Species2.ns st' = Species2.ns st /\
    Species2.params st' = add_prefix (Species2.params st) data.
Proof.
  intros Hk Hwf Hg [Hdne [Hm Hc]].
  pose proof Hwf as [[Hsh Hrange] [Hnd [Hpos Hit]]].
  pose proof (compatible_len st data Hsh Hm) as Hlen.
  exists (Species2_after k st data g).
  split; [apply Species2_Update_with_eq; assumption |].
  unfold Species2_after.
  set (sl := fun g' => Np.zip_with fmul (exp_shift (log_likes_val g' st data))
                                   (coefs st data)).
  set (like := acc_draws sl k (repeat (Fin 0%R) (length (Species2.ns st))) g).
  assert (Hlike : Forall posfin like).
  { apply acc_draws_pos; [| exact Hg | right; split; [apply zeros_nonneg | exact Hk]].
    intros g' Hg'. apply scaled_likes_pos.
    - apply log_likes_val_finite; assumption.
    - unfold log_likes_val. destruct Hsh as [Hne _].
      destruct (Species2.ns st); [congruence | discriminate].
    - apply coefs_pos, Hm. }
  assert (Hll : length like = length (Species2.ns st)).
  { unfold like. apply (acc_draws_length sl (length (Species2.ns st))).
    - intros g'. unfold sl. apply Species2_sl_length.
    - apply repeat_length. }
  destruct (wf_set_probs st like Hwf Hlike Hll) as [Hwf1 Hsum].
  clearbody like. cbv zeta.
  split; [| split; [exact Hsum | split; [reflexivity |]]].
  - change (wf (Species2.set_params
                  (Species2.set_probs st (reweight_val (Species2.probs st) like))
                  (add_counts_val (Species2.params st) data))).
    apply wf_set_params; [exact Hwf1 | |]; rewrite add_counts_val_prefix.
    + apply add_prefix_length.
    + apply add_prefix_pos; [apply Hsh | exact Hc].
  - cbn [Species2.params]. apply add_counts_val_prefix.
Qed.

Lemma Species2_Update_step (st : Species2.t) (data : list Z) (g : rng) :
  wf st -> positive_draws g ->
  compatible (Species2.ns st) (Species2.params st) data ->
  exists st',
    Species2.Update st data g = Ok (st', ticks 1000 g) /\
    wf st' /\ Np.sum (Species2.probs st') = Fin 1%R /\
    Species2.ns st' = Species2.ns st /\
    Species2.params st' = add_prefix (Species2.params st) data.
Proof.
  apply Species2_Update_with_step. apply Nat.lt_0_succ.
Qed.

Lemma Species3_sl_length (st : Species2.t) (data : list Z) (g : rng) :
  range_ok st ->
  length (Np.zip_with fmul (exp_shift (log_likes_val3 g st data)) (coefs st data))
  = length (Species2.ns st).
Proof.
  intros Hst.
  assert (E : length (exp_shift (log_likes_val3 g st data)) = length (Species2.ns st)).
  { rewrite exp_shift_length. unfold log_likes_val3. rewrite length_map.
    apply tail_sums_length, Hst. }
  rewrite zip_with_length; [exact E |].
  rewrite E. unfold coefs. rewrite length_map. reflexivity.
Qed.

Lemma Species3_Update_eq (st : Species2.t) (data : list Z) (g : rng) :
  range_ok st -> Np.len data <= Np.len (Species2.params st) ->
  Species3.Update st data g
  = Ok (Species3_after st data g, ticks (Z.to_nat (Species2.iterations st)) g).
Proof.
  intros Hst Hm. unfold Species3.Update. unfold bind at 1.
  rewrite (for_range_draws _
             (fun g' => Np.zip_with fmul (exp_shift (log_likes_val3 g' st data))
                                    (coefs st data))
             (length (Species2.ns st))).
  - unfold bind, lift. rewrite reweight_eq.
    + cbn [Species2.set_probs Species2.params].
      rewrite add_counts_eq by exact Hm. reflexivity.
    + pose proof Hst as [[_ [Hpl _]] _]. rewrite Hpl. symmetry.
      apply acc_draws_length;
        [intros; apply Species3_sl_length, Hst | apply repeat_length].
  - intros g'. apply Species3_SampleLikelihood_eq; assumption.
  - intros g'. apply Species3_sl_length, Hst.
  - apply repeat_length.
Qed.

Lemma tail_sums_nonempty (g : rng) (st : Species2.t) :
  range_ok st -> tail_sums g st <> [].
Proof.
  intros Hst E. pose proof (tail_sums_length g st Hst) as Hlen. rewrite E in Hlen.
  destruct Hst as [[Hne _] _]. destruct (Species2.ns st); [congruence | discriminate].
Qed.

(** One update of Species3 on a compatible batch. *)
Lemma Species3_Update_step (st : Species2.t) (data : list Z) (g : rng) :
  wf st -> positive_draws g ->
  compatible (Species2.ns st) (Species2.params st) data ->
  exists st',
    Species3.Update st data g
    = Ok (st', ticks (Z.to_nat (Species2.iterations st)) g) /\
    wf st' /\ Np.sum (Species2.probs st') = Fin 1%R /\
    Species2.ns st' = Species2.ns st /\
    Species2.params st' = add_prefix (Species2.params st) data.
Proof.
  intros Hwf Hg [Hdne [Hm Hc]].
  pose proof Hwf as [[Hsh Hrange] [Hnd [Hpos Hit]]].
  pose proof (compatible_len st data Hsh Hm) as Hlen.
  assert (Hst : range_ok st) by (split; assumption).
  exists (Species3_after st data g).
  split; [apply Species3_Update_eq; assumption |].
  set (sl := fun g' => Np.zip_with fmul (exp_shift (log_likes_val3 g' st data))
                                   (coefs st data)).
  set (like := acc_draws sl (Z.to_nat (Species2.iterations st))
                         (repeat (Fin 0%R) (length (Species2.ns st))) g).
  assert (Hlike : Forall posfin like).
  { apply acc_draws_pos; [| exact Hg | right; split; [apply zeros_nonneg | lia]].
    intros g' Hg'. apply scaled_likes_pos.
    - apply log_likes_val3_finite; assumption.
    - unfold log_likes_val3. intros E. apply map_eq_nil in E.
      exact (tail_sums_nonempty g' st Hst E).
    - apply coefs_pos, Hm. }
  assert (Hll : length like = length (Species2.ns st)).
  { unfold like. apply (acc_draws_length sl (length (Species2.ns st))).
    - intros g'. unfold sl. apply Species3_sl_length, Hst.
    - apply repeat_length. }
  destruct (wf_set_probs st like Hwf Hlike Hll) as [Hwf1 Hsum].
  unfold Species3_after. fold sl. fold like. clearbody like. cbv zeta.
  split; [| split; [exact Hsum | split; [reflexivity |]]].
  - change (wf (Species2.set_params
                  (Species2.set_probs st (reweight_val (Species2.probs st) like))
                  (add_counts_val (Species2.params st) data))).
    apply wf_set_params; [exact Hwf1 | |]; rewrite add_counts_val_prefix.
    + apply add_prefix_length.
    + apply add_prefix_pos; [apply Hsh | exact Hc].
  - cbn [Species2.params]. apply add_counts_val_prefix.
Qed.

(** ** Species5: one species at a time *)

Lemma Species5_sl_length (st : Species2.t) (m count : Z) (g : rng) :
  range_ok st ->
  length (exp_shift (log_likes_val5 g st m count)) = length (Species2.ns st).
Proof.
  intros Hst. rewrite exp_shift_length. unfold log_likes_val5. rewrite length_map.
  apply tail_sums_length, Hst.
Qed.

Lemma UpdateOne_likes_length (st : Species2.t) (m count : Z) (g : rng) :
  range_ok st -> length (UpdateOne_likes st m count g) = length (Species2.ns st).
Proof.
  intros Hst. unfold UpdateOne_likes.
  assert (E : length (acc_draws (fun g' => exp_shift (log_likes_val5 g' st m count))
                                (Z.to_nat (Species2.iterations st))
                                (repeat (Fin 0%R) (length (Species2.ns st))) g)
              = length (Species2.ns st)).
  { apply (acc_draws_length _ (length (Species2.ns st))).
    - intros g'. apply Species5_sl_length, Hst.
    - apply repeat_length. }
  rewrite zip_with_length; [exact E |].
  rewrite E. unfold Species5.unseen_species. rewrite !length_map. reflexivity.
Qed.

Lemma UpdateOne_eq (st : Species2.t) (m count : Z) (g : rng) :
  range_ok st -> 1 <= m <= Np.len (Species2.params st) ->
  Species5.UpdateOne st m count g
  = Ok (Species2.set_probs st (reweight_val (Species2.probs st)
                                            (UpdateOne_likes st m count g)),
        ticks (Z.to_nat (Species2.iterations st)) g).
Proof.
  intros Hst Hm. unfold Species5.UpdateOne. unfold bind at 1.
  rewrite (for_range_draws _ (fun g' => exp_shift (log_likes_val5 g' st m count))
                           (length (Species2.ns st))).
  - unfold bind, lift.
    assert (E : length (acc_draws (fun g' => exp_shift (log_likes_val5 g' st m count))
                                  (Z.to_nat (Species2.iterations st))
                                  (repeat (Fin 0%R) (length (Species2.ns st))) g)
                = length (Species2.ns st)).
    { apply (acc_draws_length _ (length (Species2.ns st))).
      - intros g'. apply Species5_sl_length, Hst.
      - apply repeat_length. }
    rewrite inplace_same_length
      by (rewrite E; unfold Species5.unseen_species; rewrite !length_map; reflexivity).
    fold (UpdateOne_likes st m count g).
    rewrite reweight_eq; [reflexivity |].
    rewrite UpdateOne_likes_length by exact Hst. apply Hst.
  - intros g'. apply Species5_SampleLikelihood_eq; assumption.
  - intros g'. apply Species5_sl_length, Hst.
  - apply repeat_length.
Qed.

Lemma UpdateOne_likes_pos (st : Species2.t) (m count : Z) (g : rng) :
  range_ok st -> positive_draws g -> 0 < Species2.iterations st ->
  1 <= m <= Np.len (Species2.params st) ->
  Forall (fun n => m <= n) (Species2.ns st) ->
  Forall posfin (UpdateOne_likes st m count g).
Proof.
  intros Hst Hg Hit Hm Hns. unfold UpdateOne_likes.
  apply zip_with_Forall with (P := posfin) (Q := posfin); auto using fmul_pos.
  - apply acc_draws_pos; [| exact Hg | right; split; [apply zeros_nonneg | lia]].
    intros g' Hg'. apply exp_shift_spec.
    + apply log_likes_val5_finite; assumption.
    + unfold log_likes_val5. intros E. apply map_eq_nil in E.
      exact (tail_sums_nonempty g' st Hst E).
  - unfold Species5.unseen_species. rewrite !Forall_map.
    eapply Forall_impl; [| exact Hns].
    intros n Hn. apply of_int_pos. cbv beta in *. lia.
Qed.

Lemma update_app {A} (pre : list A) (p : A) (suf : list A) (f : A -> A) :
  Np.update (pre ++ p :: suf) (length pre) f = pre ++ f p :: suf.
Proof.
  induction pre as [| x pre IH]; simpl; [reflexivity |]. rewrite IH. reflexivity.
Qed.

Lemma setitem_upd_app {A} (pre : list A) (p : A) (suf : list A) (f : A -> A) :
  Np.setitem_upd (pre ++ p :: suf) (Np.len pre) f = Ok (pre ++ f p :: suf).
Proof.
  unfold Np.setitem_upd, Np.len. rewrite length_app. simpl.
  destruct (Z.ltb_spec (Z.of_nat (length pre)) 0); [lia |].
  destruct (Z.ltb_spec (Z.of_nat (length pre)) 0); [lia |].
  destruct (Z.leb_spec (Z.of_nat (length pre + S (length suf))) (Z.of_nat (length pre)));
    [lia |]. simpl.
  rewrite Nat2Z.id, update_app. reflexivity.
Qed.

Lemma ticks_add (a b : nat) (g : rng) : ticks (a + b) g = ticks b (ticks a g).
Proof.
  revert g. induction a as [| a IH]; intros g; simpl; [reflexivity | apply IH].
Qed.

Lemma len_app_one {A} (pre : list A) (x : A) : Np.len (pre ++ [x]) = Np.len pre + 1.
Proof. unfold Np.len. rewrite length_app. simpl. lia. Qed.

(** The loop of [Species5.Update] from position [len pre] on: the counts of
    [rest] go to the parameters that follow [pre], one step each. *)
Lemma Species5_steps (rest : list Z) :
  forall (pre suf : list Z) (st : Species2.t) (g : rng),
    wf st -> positive_draws g ->
    Species2.params st = pre ++ suf ->
    Forall (fun n => Np.len pre + Np.len rest <= n) (Species2.ns st) ->
    counts_ok suf rest ->
    exists st',
      for_enum Species5.step (Np.len pre) rest st g
      = Ok (st', ticks (Z.to_nat (Species2.iterations st) * length rest) g) /\
      wf st' /\
      (rest = [] -> st' = st) /\
      (rest <> [] -> Np.sum (Species2.probs st') = Fin 1%R) /\
      Species2.ns st' = Species2.ns st /\
      Species2.iterations st' = Species2.iterations st /\
      Species2.params st' = pre ++ add_prefix suf rest.
Proof.
  induction rest as [| c rest IH]; intros pre suf st g Hwf Hg Hpar Hns Hc.
  - exists st. rewrite Nat.mul_0_r.
    split; [reflexivity |]. split; [exact Hwf |]. split; [reflexivity |].
    split; [congruence |]. split; [reflexivity |]. split; [reflexivity |].
    rewrite Hpar. destruct suf; reflexivity.
  - pose proof Hwf as [[Hsh Hrange] [Hnd [Hpos Hit]]].
    assert (Hst : range_ok st) by (split; assumption).
    assert (HL : Np.len pre + Np.len (c :: rest) <= Np.len (Species2.params st)).
    { destruct Hsh as [Hne [_ [Hall _]]].
      destruct (Species2.ns st) as [| n l]; [congruence |].
      inversion Hall; subst. inversion Hns; subst. lia. }
    destruct suf as [| p suf].
    { rewrite Hpar, app_nil_r in HL. unfold Np.len in HL. simpl in HL. lia. }
    destruct Hc as [[Hc0 Hcp] Hc].
    assert (Hm : 1 <= Np.len pre + 1 <= Np.len (Species2.params st)).
    { unfold Np.len in *. simpl in HL. lia. }
    assert (Hns1 : Forall (fun n => Np.len pre + 1 <= n) (Species2.ns st)).
    { eapply Forall_impl; [| exact Hns]. intros n Hn. cbv beta in Hn.
      unfold Np.len in *. simpl in Hn. lia. }
    set (likes := UpdateOne_likes st (Np.len pre + 1) c g).
    assert (Hlikes : Forall posfin likes)
      by (apply UpdateOne_likes_pos; assumption).
    assert (Hll : length likes = length (Species2.ns st))
      by (apply UpdateOne_likes_length, Hst).
    destruct (wf_set_probs st likes Hwf Hlikes Hll) as [Hwf1 Hsum].
    set (st1 := Species2.set_probs st (reweight_val (Species2.probs st) likes)) in *.
    set (st2 := Species2.set_params st1 (pre ++ add64 p c :: suf)).
    assert (Hppos : Forall (fun a => 0 < a) (pre ++ add64 p c :: suf)).
    { destruct Hsh as [_ [_ [_ Hall]]]. rewrite Hpar in Hall.
      apply Forall_app in Hall. destruct Hall as [Hpre Hsuf].
      inversion Hsuf; subst. apply Forall_app. split; [exact Hpre |].
      constructor; [| assumption]. unfold add64. rewrite wrap64_small; lia. }
    assert (Hwf2 : wf st2).
    { apply wf_set_params; [exact Hwf1 | | exact Hppos].
      unfold st1. simpl. rewrite Hpar, !length_app. reflexivity. }
    destruct (IH (pre ++ [add64 p c]) suf st2
                 (ticks (Z.to_nat (Species2.iterations st)) g))
      as [st' [Hrun [Hwf' [Hnil [Hs' [Hns' [Hit' Hpar']]]]]]].
    + exact Hwf2.
    + apply ticks_positive, Hg.
    + unfold st2. simpl. rewrite <- app_assoc. reflexivity.
    + eapply Forall_impl; [| exact Hns]. intros n Hn. cbv beta in Hn.
      rewrite len_app_one. unfold Np.len in *. simpl in Hn. lia.
    + exact Hc.
    + exists st'. split.
      * cbn [for_enum]. unfold bind at 1. unfold Species5.step at 1.
        unfold bind at 1. unfold bind at 1.
        rewrite UpdateOne_eq by assumption.
        fold likes. fold st1. unfold lift.
        replace (Species2.params st1) with (pre ++ p :: suf) by (symmetry; exact Hpar).
        rewrite setitem_upd_app. unfold ret. fold st2.
        rewrite <- len_app_one with (x := add64 p c). rewrite Hrun.
        f_equal. f_equal. rewrite <- ticks_add. f_equal.
        change (Species2.iterations st2) with (Species2.iterations st).
        simpl length. lia.
      * split; [exact Hwf' |]. split; [discriminate |]. split.
        { intros _. destruct rest as [| c' rest'].
          - rewrite (Hnil eq_refl). exact Hsum.
          - apply Hs'. discriminate. }
        split; [rewrite Hns'; reflexivity |].
        split; [rewrite Hit'; reflexivity |].
        rewrite Hpar', <- app_assoc. reflexivity.
Qed.

(** One update of Species5 on a compatible batch. *)
Lemma Species5_Update_step (st : Species2.t) (data : list Z) (g : rng) :
  wf st -> positive_draws g ->
  compatible (Species2.ns st) (Species2.params st) data ->
  exists st',
    Species5.Update st data g
    = Ok (st', ticks (Z.to_nat (Species2.iterations st) * length data) g) /\
    wf st' /\ Np.sum (Species2.probs st') = Fin 1%R /\
    Species2.ns st' = Species2.ns st /\
    Species2.params st' = add_prefix (Species2.params st) data.
Proof.
  intros Hwf Hg [Hdne [Hm Hc]].
  destruct (Species5_steps data [] (Species2.params st) st g)
    as [st' [Hrun [Hwf' [_ [Hs' [Hns' [_ Hpar']]]]]]]; auto.
  exists st'. unfold Species5.Update. auto.
Qed.

(** *** Sequences of updates of the flattened suites *)

Lemma flat_Update_step (v : flat_variant) (st : Species2.t) (data : list Z) (g : rng) :
  wf st -> positive_draws g ->
  compatible (Species2.ns st) (Species2.params st) data ->
  exists st' g',
    flat_Update v st data g = Ok (st', g') /\ positive_draws g' /\
    wf st' /\ Np.sum (Species2.probs st') = Fin 1%R /\
    Species2.ns st' = Species2.ns st /\
    Species2.params st' = add_prefix (Species2.params st) data.
Proof.
  intros Hwf Hg Hc. destruct v; simpl.
  - destruct (Species2_Update_step st data g Hwf Hg Hc) as [st' [Hrun H]].
    exists st', (ticks 1000 g). split; [exact Hrun |].
    split; [apply ticks_positive, Hg | exact H].
  - destruct (Species3_Update_step st data g Hwf Hg Hc) as [st' [Hrun H]].
    eexists st', _. split; [exact Hrun |].
    split; [apply ticks_positive, Hg | exact H].
  - destruct (Species5_Update_step st data g Hwf Hg Hc) as [st' [Hrun H]].
    eexists st', _. split; [exact Hrun |].
    split; [apply ticks_positive, Hg | exact H].
Qed.



(** *** A suite built from a range of candidates is in such a state *)

Lemma range_list_length (a : Z) (k : nat) : length (range_list a k) = k.
Proof. unfold range_list. rewrite length_map, length_seq. reflexivity. Qed.

Lemma range_list_In (a : Z) (k : nat) (n : Z) :
  In n (range_list a k) <-> a <= n < a + Z.of_nat k.
Proof.
  unfold range_list. rewrite in_map_iff. split.
  - intros [i [<- Hi]]. apply in_seq in Hi. lia.
  - intros Hn. exists (Z.to_nat (n - a)). split; [lia |]. apply in_seq. lia.
Qed.

Lemma range_list_NoDup (a : Z) (k : nat) : NoDup (range_list a k).
Proof.
  unfold range_list. generalize 0%nat as s.
  induction k as [| k IH]; intros s; simpl; constructor.
  - rewrite in_map_iff. intros [i [E Hi]]. apply in_seq in Hi. lia.
  - apply IH.
Qed.

Lemma init_range_wf (a : Z) (k : nat) (iterations : Z) :
  1 <= a -> (0 < k)%nat -> 0 < iterations ->
  exists st,
    Species2.init (range_list a k) iterations = Ok st /\
    wf st /\
    Species2.ns st = range_list a k /\
    Species2.params st = repeat 1 (Z.to_nat (a + Z.of_nat k - 1)).
Proof.
  intros Ha Hk Hit.
  set (last := a + Z.of_nat k - 1).
  assert (Hget : Np.getitem (range_list a k) (-1) = Ok last).
  { unfold Np.getitem, Np.len. rewrite range_list_length.
    change (-1 <? 0) with true. cbv iota.
    destruct (Z.ltb_spec (Z.of_nat k + -1) 0); [lia |].
    destruct (Z.leb_spec (Z.of_nat k) (Z.of_nat k + -1)); [lia |]. simpl.
    unfold range_list. rewrite nth_error_map, nth_error_seq.
    destruct (Nat.ltb_spec (Z.to_nat (Z.of_nat k + -1)) k); [| lia].
    simpl. f_equal. unfold last. lia. }
  exists (Species2.mk (range_list a k) (repeat (Fin 1%R) (length (range_list a k)))
                      (repeat 1 (Z.to_nat last)) iterations).
  split.
  - unfold Species2.init. rewrite Hget. simpl. unfold Np.full.
    destruct (Z.ltb_spec last 0); [unfold last in *; lia | reflexivity].
  - split; [| split; reflexivity].
    unfold wf, range_ok, shapes_ok, Np.len. simpl.
    rewrite !repeat_length, range_list_length.
    repeat split.
    + intros E. apply (f_equal (@length Z)) in E.
      rewrite range_list_length in E. simpl in E. lia.
    + apply Forall_forall. intros n Hn. apply range_list_In in Hn.
      unfold last. lia.
    + apply repeat_Forall. lia.
    + assert (E : hd 0 (range_list a k) = a).
      { destruct k as [| k']; [lia |]. simpl. lia. }
      rewrite E. unfold last. lia.
    + apply range_list_NoDup.
    + apply repeat_Forall. simpl. lra.
    + exact Hit.
Qed.



(** ** C7: how many draws an update accumulates *)

(** C7 (the code departs from the claim).  [Species2([3], iterations)]
    followed by [Update([3, 2, 1])] makes 1000 calls of the sampler whatever
    [iterations] is, 10 for instance; [Species3] on the same state makes
    exactly [iterations] calls. *)
Theorem Species2_update_draws_1000 (iterations : Z) (g : rng) :
  exists st0 st2 g2 st3 g3,
    Species2.init [3] iterations = Ok st0 /\
    Species2.iterations st0 = iterations /\
    Species2.Update st0 [3; 2; 1] g = Ok (st2, g2) /\
    calls g2 = (calls g + 1000)%nat /\
    Species3.Update st0 [3; 2; 1] g = Ok (st3, g3) /\
    calls g3 = (calls g + Z.to_nat iterations)%nat.
Proof.
  eexists _, _, _, _, _. split; [apply init_three |]. split; [reflexivity |].
  split; [| split; [apply ticks_calls |]].
  - unfold Species2.Update. apply Species2_Update_with_eq.
    + apply shapes_ok_three. reflexivity.
    + unfold Np.len. simpl. lia.
  - split; [| apply ticks_calls].
    apply Species3_Update_eq.
    + apply range_ok_three. reflexivity.
    + unfold Np.len. simpl. lia.
Qed.

(** The other variants do use the configured count: [Species3.Update] makes
    [iterations] calls, [Species5.UpdateOne] makes [iterations] calls. *)
Lemma configured_draws (st : Species2.t) (data : list Z) (m count : Z) (g : rng) :
  range_ok st ->
  (Np.len data <= Np.len (Species2.params st) ->
   exists st' g', Species3.Update st data g = Ok (st', g') /\
                  calls g' = (calls g + Z.to_nat (Species2.iterations st))%nat) /\
  (1 <= m <= Np.len (Species2.params st) ->
   exists st' g', Species5.UpdateOne st m count g = Ok (st', g') /\
                  calls g' = (calls g + Z.to_nat (Species2.iterations st))%nat).
Proof.
  intros Hst. split; intros Hm.
  - eexists _, _. split; [apply Species3_Update_eq; assumption | apply ticks_calls].
  - eexists _, _. split; [apply UpdateOne_eq; assumption | apply ticks_calls].
Qed.

(** ** C9: a candidate smaller than the number of observed categories *)

Lemma zip_with_Forall2 {N A B C} (f : A -> B -> C)
    (P : N -> A -> Prop) (Q : N -> B -> Prop) (S : N -> C -> Prop)
    (ns : list N) (xs : list A) (ys : list B) :
  (forall n x y, P n x -> Q n y -> S n (f x y)) ->
  Forall2 P ns xs -> Forall2 Q ns ys -> Forall2 S ns (Np.zip_with f xs ys).
Proof.
  intros Hf Hxs. revert ys. induction Hxs as [| n x ns xs Hx Hxs IH];
    intros ys Hys; inversion Hys; subst; simpl; constructor; auto.
Qed.

Lemma Forall2_of_Forall {N A} (P : A -> Prop) (ns : list N) (xs : list A) :
  length xs = length ns -> Forall P xs -> Forall2 (fun _ x => P x) ns xs.
Proof.
  revert xs. induction ns as [| n ns IH]; intros [| x xs] Hlen Hxs; simpl in *;
    try congruence; constructor.
  - inversion Hxs; assumption.
  - apply IH; [congruence | inversion Hxs; assumption].
Qed.

Lemma Forall2_map_self {N A} (P : N -> A -> Prop) (f : N -> A) (ns : list N) :
  Forall (fun n => P n (f n)) ns -> Forall2 P ns (map f ns).
Proof. induction 1; simpl; constructor; assumption. Qed.

Lemma Forall2_impl {N A} (P Q : N -> A -> Prop) (ns : list N) (xs : list A) :
  (forall n x, P n x -> Q n x) -> Forall2 P ns xs -> Forall2 Q ns xs.
Proof. intros H. induction 1; constructor; auto. Qed.

Lemma Forall2_map_r {N A B} (P : N -> B -> Prop) (f : A -> B) (ns : list N) (xs : list A) :
  Forall2 (fun n x => P n (f x)) ns xs -> Forall2 P ns (map f xs).
Proof. induction 1; simpl; constructor; assumption. Qed.

Lemma acc_draws_Forall2 {N} (W A : N -> double -> Prop) (ns : list N)
    (sl : rng -> list double) (k : nat) (acc : list double) (g : rng) :
  (forall g', positive_draws g' -> Forall2 W ns (sl g')) ->
  (forall n a s, A n a -> W n s -> W n (fadd a s)) ->
  (forall n a, W n a -> A n a) ->
  positive_draws g -> (0 < k)%nat -> Forall2 A ns acc ->
  Forall2 W ns (acc_draws sl k acc g).
Proof.
  intros Hsl Hadd Hwa. revert acc g.
  induction k as [| k IH]; intros acc g Hg Hk Hacc; [lia |].
  simpl. assert (Hstep : Forall2 W ns (Np.zip_with fadd acc (sl g))).
  { apply zip_with_Forall2 with (P := A) (Q := W); auto. }
  destruct k as [| k'].
  - simpl. exact Hstep.
  - apply IH; [apply tick_positive, Hg | lia |].
    eapply Forall2_impl; [| exact Hstep]. exact Hwa.
Qed.

Lemma feasible_weight_mul (m n : Z) (p x : double) :
  posfin p -> feasible_weight m n x -> feasible_weight m n (fmul p x).
Proof.
  unfold feasible_weight. destruct (n <? m).
  - intros Hp ->. destruct (posfin_inv _ Hp) as [r [-> _]]. simpl. f_equal. lra.
  - apply fmul_pos.
Qed.

Lemma feasible_weight_add (m n : Z) (a s : double) :
  feasible_acc m n a -> feasible_weight m n s -> feasible_weight m n (fadd a s).
Proof.
  unfold feasible_acc, feasible_weight. destruct (n <? m).
  - intros -> ->. simpl. f_equal. lra.
  - apply fadd_nonneg_pos.
Qed.

Lemma feasible_weight_acc (m n : Z) (a : double) :
  feasible_weight m n a -> feasible_acc m n a.
Proof.
  unfold feasible_acc, feasible_weight. destruct (n <? m); [tauto |].
  destruct a; simpl; try tauto. lra.
Qed.

Lemma feasible_weight_div (m n : Z) (x t : double) :
  posfin t -> feasible_weight m n x -> feasible_weight m n (fdiv x t).
Proof.
  unfold feasible_weight. destruct (n <? m).
  - intros Ht ->. destruct (posfin_inv _ Ht) as [r [-> Hr]].
    rewrite fdiv_fin by assumption. f_equal. unfold Rdiv. lra.
  - intros Ht Hx. apply fdiv_pos; assumption.
Qed.

Lemma feasible_sum_pos (m : Z) (ns : list Z) (xs : list double) :
  Forall2 (feasible_weight m) ns xs -> Exists (fun n => m <= n) ns ->
  posfin (Np.sum xs).
Proof.
  intros Hw Hex.
  assert (Hfin : Forall finite xs).
  { clear Hex. induction Hw as [| n x ns xs Hx Hw IH]; constructor; [| exact IH].
    unfold feasible_weight in Hx. destruct (n <? m); [subst; exact I |].
    apply posfin_finite, Hx. }
  rewrite sum_finite by exact Hfin. simpl.
  assert (Hnn : forall ns xs, Forall2 (feasible_weight m) ns xs ->
                              (0 <= Rsum (map toR xs))%R).
  { clear. intros ns xs Hw. induction Hw as [| n x ns xs Hx Hw IH]; simpl; [lra |].
    unfold feasible_weight in Hx. destruct (n <? m).
    - subst. simpl. lra.
    - destruct (posfin_inv _ Hx) as [r [-> Hr]]. simpl. lra. }
  clear Hfin. induction Hw as [| n x ns xs Hx Hw IH]; [inversion Hex |].
  simpl. pose proof (Hnn ns xs Hw) as Hrest.
  inversion Hex as [? ? Hn | ? ? Hex']; subst.
  - unfold feasible_weight in Hx. destruct (Z.ltb_spec n m); [lia |].
    destruct (posfin_inv _ Hx) as [r [-> Hr]]. simpl. lra.
  - specialize (IH Hex').
    assert (0 <= toR x)%R.
    { unfold feasible_weight in Hx. destruct (n <? m).
      - subst. simpl. lra.
      - destruct (posfin_inv _ Hx) as [r [-> Hr]]. simpl. lra. }
    lra.
Qed.

Lemma coefs_feasible (st : Species2.t) (data : list Z) :
  shapes_ok st ->
  Forall2 (feasible_weight (Np.len data)) (Species2.ns st) (coefs st data).
Proof.
  intros [_ [_ [Hns _]]]. unfold coefs. apply Forall2_map_self.
  eapply Forall_impl; [| exact Hns]. intros n Hn. cbv beta in Hn.
  unfold feasible_weight. destruct (Z.ltb_spec n (Np.len data)).
  - apply BinomialCoef_zero. lia.
  - apply BinomialCoef_pos. unfold Np.len in *. lia.
Qed.

Lemma getitem_last {A} (l : list A) (d : A) :
  l <> [] -> Np.getitem l (-1) = Ok (last l d).
Proof.
  intros Hne. destruct (exists_last Hne) as [l' [a ->]].
  rewrite last_last. unfold Np.getitem, Np.len. rewrite length_app. simpl.
  destruct (Z.ltb_spec (Z.of_nat (length l' + 1) + -1) 0); [lia |].
  destruct (Z.leb_spec (Z.of_nat (length l' + 1)) (Z.of_nat (length l' + 1) + -1));
    [lia |]. simpl.
  replace (Z.to_nat (Z.of_nat (length l' + 1) + -1)) with (length l') by lia.
  rewrite nth_error_app2 by lia. rewrite Nat.sub_diag. reflexivity.
Qed.

(** The constructor looks at the last candidate only. *)
Lemma init_ok (ns : list Z) (iterations : Z) :
  ns <> [] -> 0 <= last ns 0 ->
  Species2.init ns iterations
  = Ok (Species2.mk ns (repeat (Fin 1%R) (length ns))
                    (repeat 1 (Z.to_nat (last ns 0))) iterations).
Proof.
  intros Hne Hlast. unfold Species2.init. rewrite (getitem_last ns 0 Hne). simpl.
  unfold Np.full. destruct (Z.ltb_spec (last ns 0) 0); [lia | reflexivity].
Qed.

Lemma ones_posfin (k : nat) : Forall posfin (repeat (Fin 1%R) k).
Proof. apply repeat_Forall. simpl. lra. Qed.

Lemma zeros_feasible_acc (m : Z) (ns : list Z) :
  Forall2 (feasible_acc m) ns (repeat (Fin 0%R) (length ns)).
Proof.
  induction ns as [| n ns IH]; simpl; constructor; [| exact IH].
  unfold feasible_acc. destruct (n <? m); [reflexivity | simpl; lra].
Qed.

(** An update of Species2 that draws [k > 0] samples, when the batch fits the
    parameter array and some candidate is feasible: it returns, with weight 0
    for every candidate below the number of observed categories and a
    positive weight for the others. *)
Lemma Species2_Update_with_feasible (k : nat) (st : Species2.t) (data : list Z) (g : rng) :
  (0 < k)%nat -> shapes_ok st -> Forall posfin (Species2.probs st) ->
  positive_draws g ->
  Np.len data <= Np.len (Species2.params st) ->
  Exists (fun n => Np.len data <= n) (Species2.ns st) ->
  exists st',
    Species2.Update_with k st data g = Ok (st', ticks k g) /\
    Forall2 (feasible_weight (Np.len data)) (Species2.ns st) (Species2.probs st').
Proof.
  intros Hk Hsh Hpos Hg Hm Hex.
  exists (Species2_after k st data g).
  split; [apply Species2_Update_with_eq; assumption |].
  unfold Species2_after.
  set (sl := fun g' => Np.zip_with fmul (exp_shift (log_likes_val g' st data))
                                   (coefs st data)).
  set (like := acc_draws sl k (repeat (Fin 0%R) (length (Species2.ns st))) g).
  assert (Hlike : Forall2 (feasible_weight (Np.len data)) (Species2.ns st) like).
  { unfold like.
    apply (acc_draws_Forall2 (feasible_weight (Np.len data))
                             (feasible_acc (Np.len data))).
    - intros g' Hg'. unfold sl.
      apply zip_with_Forall2 with (P := fun _ x => posfin x)
                                  (Q := feasible_weight (Np.len data)).
      + intros n x y Hx Hy. apply feasible_weight_mul; assumption.
      + apply Forall2_of_Forall.
        * rewrite exp_shift_length. unfold log_likes_val. rewrite length_map.
          reflexivity.
        * apply exp_shift_spec; [apply log_likes_val_finite; assumption |].
          unfold log_likes_val. destruct Hsh as [Hne _].
          destruct (Species2.ns st); [congruence | discriminate].
      + apply coefs_feasible, Hsh.
    - intros n a s. apply feasible_weight_add.
    - intros n a. apply feasible_weight_acc.
    - exact Hg.
    - exact Hk.
    - apply zeros_feasible_acc. }
  clearbody like. cbv zeta. cbn [Species2.probs]. unfold reweight_val.
  set (probs1 := Np.zip_with fmul (Species2.probs st) like).
  assert (Hp1 : Forall2 (feasible_weight (Np.len data)) (Species2.ns st) probs1).
  { unfold probs1.
    apply zip_with_Forall2 with (P := fun _ x => posfin x)
                                (Q := feasible_weight (Np.len data)).
    - intros n x y Hx Hy. apply feasible_weight_mul; assumption.
    - apply Forall2_of_Forall; [apply Hsh | exact Hpos].
    - exact Hlike. }
  pose proof (feasible_sum_pos _ _ _ Hp1 Hex) as Htot.
  apply Forall2_map_r. eapply Forall2_impl; [| exact Hp1].
  intros n x Hx. apply feasible_weight_div; assumption.
Qed.

(** C9 (as amended).  A candidate range is not checked against the batch,
    neither by the constructor nor by [Update].  For every non-empty list of
    candidates between 1 and the last one, and every batch of [m] categories
    with [m] at most the last candidate, [Species2(ns)] is built and its first
    [Update(data)] returns normally; a candidate [N < m] is kept, with
    posterior weight exactly 0, and every candidate [N >= m] has a positive
    weight. *)
Theorem infeasible_candidates_not_rejected (ns : list Z) (iterations : Z)
    (data : list Z) (g : rng) :
  ns <> [] ->
  Forall (fun n => 1 <= n <= last ns 0) ns ->
  Np.len data <= last ns 0 ->
  positive_draws g ->
  exists st0 st1,
    Species2.init ns iterations = Ok st0 /\
    Species2.Update st0 data g = Ok (st1, ticks 1000 g) /\
    Forall2 (feasible_weight (Np.len data)) ns (Species2.probs st1).
Proof.
  intros Hne Hns Hm Hg.
  assert (Hin : In (last ns 0) ns).
  { destruct (exists_last Hne) as [l' [a ->]]. rewrite last_last.
    apply in_or_app. right. left. reflexivity. }
  assert (Hlast : 1 <= last ns 0).
  { rewrite Forall_forall in Hns. apply (Hns _ Hin). }
  set (st0 := Species2.mk ns (repeat (Fin 1%R) (length ns))
                          (repeat 1 (Z.to_nat (last ns 0))) iterations).
  assert (Hsh : shapes_ok st0).
  { unfold shapes_ok, st0, Np.len. simpl. rewrite !repeat_length.
    split; [exact Hne |]. split; [reflexivity |]. split.
    - eapply Forall_impl; [| exact Hns]. intros n Hn. cbv beta in Hn. lia.
    - apply repeat_Forall. lia. }
  destruct (Species2_Update_with_feasible 1000 st0 data g) as [st1 [Hrun Hw]].
  - apply Nat.lt_0_succ.
  - exact Hsh.
  - apply ones_posfin.
  - exact Hg.
  - unfold st0, Np.len. simpl. rewrite repeat_length. unfold Np.len in Hm. lia.
  - apply Exists_exists. exists (last ns 0). split; [exact Hin | exact Hm].
  - exists st0, st1. split; [apply init_ok; [exact Hne | lia] |].
    split; [exact Hrun | exact Hw].
Qed.

Lemma infeasible_candidates_not_rejected_witness :
  exists st0 st1,
    Species2.init [2; 3] 1000 = Ok st0 /\
    Species2.Update st0 [1; 1; 1] unit_rng = Ok (st1, ticks 1000 unit_rng) /\
    Forall2 (feasible_weight 3) [2; 3] (Species2.probs st1).
Proof.
  apply (infeasible_candidates_not_rejected [2; 3] 1000 [1; 1; 1] unit_rng).
  - discriminate.
  - repeat constructor; simpl; lia.
  - unfold Np.len. simpl. lia.
  - exact unit_rng_positive.
Defined.

(** C9 (as stated) fails: with candidates [2, 3] and three observed
    categories, candidate 2 is below m = 3, yet the suite is built and its
    first update returns a state; no error is raised. *)
Lemma infeasible_range_counterexample :
  exists st0 st1 g1,
    2 < Np.len [1; 1; 1] /\
    Species2.init [2; 3] 1000 = Ok st0 /\
    Species2.Update st0 [1; 1; 1] unit_rng = Ok (st1, g1).
Proof.
  eexists _, _, _. split; [unfold Np.len; simpl; lia |].
  split; [reflexivity |].
  unfold Species2.Update. apply Species2_Update_with_eq.
  - unfold shapes_ok, Np.len. simpl. repeat split; try discriminate.
    + repeat constructor; simpl; lia.
    + repeat constructor.
  - unfold Np.len. simpl. lia.
Qed.

(** ** C5: the maximum is subtracted before exponentiating *)

(** *** The log-likelihoods of one draw, as real numbers *)

Lemma gamma_values_variates (g : rng) (shape : list Z) :
  gamma_values g shape = map Fin (variates g shape).
Proof. unfold gamma_values, variates. rewrite map_map. reflexivity. Qed.

Lemma variates_length (g : rng) (shape : list Z) :
  length (variates g shape) = length shape.
Proof. unfold variates. rewrite length_map, length_combine, length_seq. lia. Qed.

Lemma variates_pos (g : rng) (shape : list Z) :
  positive_draws g -> Forall (fun x => (0 < x)%R) (variates g shape).
Proof.
  intros Hg. unfold variates. rewrite Forall_map. apply Forall_forall.
  intros ja _. apply Hg.
Qed.

Lemma sum_of_reals (l : list R) : Np.sum (map Fin l) = Fin (Rsum l).
Proof.
  rewrite sum_finite.
  - rewrite map_map. cbn [toR]. rewrite map_id. reflexivity.
  - rewrite Forall_map. apply Forall_forall. intros x _. exact I.
Qed.

Lemma cumsum_from_nth (l : list R) :
  forall (a : R) (k : nat),
    (k < length l)%nat ->
    nth k (Np.cumsum_from (Fin a) (map Fin l)) NaN = Fin (a + Rsum (firstn (S k) l))%R.
Proof.
  induction l as [| x l IH]; intros a k Hk; [simpl in Hk; lia |].
  cbn [map Np.cumsum_from fadd]. destruct k as [| k].
  - cbn [nth firstn Rsum fold_right]. f_equal. lra.
  - cbn [nth]. cbn [length] in Hk. rewrite IH by lia.
    f_equal. cbn [firstn Rsum fold_right]. unfold Rsum. lra.
Qed.

(** [cumsum(gammas)[n-1]] is the sum of the first [n] variates. *)
Lemma cumsum_nth (l : list R) (n : Z) :
  1 <= n <= Np.len l ->
  nth (Z.to_nat (n - 1)) (Np.cumsum (map Fin l)) NaN = Fin (prefix_total l n).
Proof.
  intros Hn. unfold prefix_total, Np.len in *.
  replace (Z.to_nat n) with (S (Z.to_nat (n - 1))) by lia.
  destruct l as [| x l]; [simpl in Hn; lia |].
  cbn [map Np.cumsum]. destruct (Z.to_nat (n - 1)) as [| k] eqn:Ek.
  - cbn [nth firstn Rsum fold_right]. f_equal. lra.
  - cbn [nth]. rewrite cumsum_from_nth by (cbn [length] in Hn; lia).
    f_equal.
Qed.

Lemma Rsum_firstn_pos (l : list R) (k : nat) :
  Forall (fun x => (0 < x)%R) l -> (0 < k)%nat -> l <> [] ->
  (0 < Rsum (firstn k l))%R.
Proof.
  intros Hl. revert k. induction Hl as [| x l Hx Hl IH]; intros k Hk Hne; [congruence |].
  destruct k as [| k]; [lia |]. cbn [firstn Rsum fold_right].
  destruct k as [| k]; [simpl; lra |].
  destruct l as [| y l]; [simpl; lra |].
  assert (0 < Rsum (firstn (S k) (y :: l)))%R by (apply IH; [lia | discriminate]).
  unfold Rsum in *. lra.
Qed.

Lemma prefix_total_pos (l : list R) (n : Z) :
  Forall (fun x => (0 < x)%R) l -> 1 <= n <= Np.len l -> (0 < prefix_total l n)%R.
Proof.
  intros Hl Hn. unfold prefix_total. apply Rsum_firstn_pos; [exact Hl | lia |].
  intros ->. unfold Np.len in Hn. simpl in Hn. lia.
Qed.

Lemma flog_fin (x : R) : (0 < x)%R -> flog (Fin x) = Fin (ln x).
Proof. intros Hx. simpl. rewrite (Rsgn_pos _ Hx). reflexivity. Qed.

(** [numpy.log(row / c) * data], term by term. *)
Lemma log_terms (row : list R) (c : R) :
  Forall (fun x => (0 < x)%R) row -> (0 < c)%R ->
  forall data : list Z,
    Np.zip_with fmul (map flog (map (fun r => fdiv r (Fin c)) (map Fin row)))
                (map of_int data)
    = map Fin (map (fun xd => (ln (fst xd / c) * IZR (snd xd))%R) (combine row data)).
Proof.
  intros Hrow Hc. induction Hrow as [| x row Hx Hrow IH]; intros data; [reflexivity |].
  destruct data as [| d data]; [reflexivity |].
  cbn [map Np.zip_with combine fst snd]. rewrite IH. f_equal.
  rewrite fdiv_fin by exact Hc. rewrite flog_fin by (apply Rdiv_lt_0_compat; assumption).
  reflexivity.
Qed.

Lemma Forall_firstn {A} (P : A -> Prop) (k : nat) (l : list A) :
  Forall P l -> Forall P (firstn k l).
Proof.
  intros Hl. revert k. induction Hl as [| x l Hx Hl IH]; intros [| k]; simpl;
    constructor; auto.
Qed.

(** The sum of the terms of one candidate. *)
Lemma log_like_real (gam : list R) (data : list Z) (c : R) :
  Forall (fun x => (0 < x)%R) gam -> (0 < c)%R ->
  Np.sum (Np.zip_with fmul
            (map flog (map (fun r => fdiv r (Fin c))
                           (Np.take (map Fin gam) (Np.len data))))
            (map of_int data))
  = Fin (Rsum (map (fun xd => (ln (fst xd / c) * IZR (snd xd))%R) (combine gam data))).
Proof.
  intros Hgam Hc. unfold Np.take, Np.len. rewrite bound_of_nat, firstn_map.
  rewrite log_terms by (try apply Forall_firstn; assumption).
  rewrite sum_of_reals, <- combine_firstn_r. reflexivity.
Qed.

(** Species2: the log-likelihoods of one draw. *)
Lemma log_likes_real (g : rng) (st : Species2.t) (data : list Z) :
  positive_draws g -> shapes_ok st ->
  log_likes_val g st data
  = map Fin (map (log_likelihood (variates g (Species2.params st)) data)
                 (Species2.ns st)).
Proof.
  intros Hg (_ & _ & Hns & _). unfold log_likes_val. rewrite map_map.
  apply map_ext_in. intros n Hn. rewrite Forall_forall in Hns. specialize (Hns n Hn).
  unfold log_like_val. rewrite gamma_values_variates.
  pose proof (variates_pos g (Species2.params st) Hg) as Hpos.
  assert (Hn' : 1 <= n <= Np.len (variates g (Species2.params st))).
  { unfold Np.len in *. rewrite variates_length. exact Hns. }
  rewrite cumsum_nth by exact Hn'.
  apply log_like_real; [exact Hpos | apply prefix_total_pos; assumption].
Qed.

(** The tail of the cumulative sums holds, entry by entry, the sums of the
    candidates counted up from [ns[0]]. *)
Lemma tail_sums_real (g : rng) (st : Species2.t) :
  range_ok st ->
  tail_sums g st
  = map (fun n => Fin (prefix_total (variates g (Species2.params st)) n))
        (array_candidates st).
Proof.
  intros Hst. destruct (range_ok_first st Hst) as [_ Hfirst].
  destruct Hst as [_ Hlen]. unfold tail_sums, array_candidates, Np.drop, Np.bound.
  set (a := hd 0 (Species2.ns st)) in *.
  destruct (Z.ltb_spec (a - 1) 0); [lia |].
  rewrite (skipn_as_nth NaN). rewrite cumsum_length, gamma_values_length.
  unfold Np.len in Hlen, Hfirst.
  replace (length (Species2.params st) - Z.to_nat (a - 1))%nat
    with (length (Species2.ns st)) by lia.
  unfold range_list. rewrite map_map. apply map_ext_in. intros i Hi.
  apply in_seq in Hi. rewrite gamma_values_variates.
  rewrite <- cumsum_nth.
  - f_equal. lia.
  - unfold Np.len. rewrite variates_length. lia.
Qed.

Lemma array_candidates_range (st : Species2.t) :
  range_ok st ->
  Forall (fun n => 1 <= n <= Np.len (Species2.params st)) (array_candidates st).
Proof.
  intros Hst. destruct (range_ok_first st Hst) as [_ Hfirst].
  destruct Hst as [_ Hlen]. unfold array_candidates, range_list.
  set (a := hd 0 (Species2.ns st)) in *.
  rewrite Forall_map. apply Forall_forall. intros i Hi. apply in_seq in Hi.
  unfold Np.len in *. lia.
Qed.

(** Species3: the log-likelihoods of one draw. *)
Lemma log_likes3_real (g : rng) (st : Species2.t) (data : list Z) :
  positive_draws g -> range_ok st ->
  log_likes_val3 g st data
  = map Fin (map (log_likelihood (variates g (Species2.params st)) data)
                 (array_candidates st)).
Proof.
  intros Hg Hst. unfold log_likes_val3. rewrite (tail_sums_real g st Hst), !map_map.
  apply map_ext_in. intros n Hn.
  pose proof (array_candidates_range st Hst) as Hrange.
  rewrite Forall_forall in Hrange. specialize (Hrange n Hn).
  rewrite gamma_values_variates.
  pose proof (variates_pos g (Species2.params st) Hg) as Hpos.
  apply log_like_real; [exact Hpos |].
  apply prefix_total_pos; [exact Hpos |].
  unfold Np.len in *. rewrite variates_length. exact Hrange.
Qed.

(** Species5: the log-likelihoods of one draw. *)
Lemma log_likes5_real (g : rng) (st : Species2.t) (m count : Z) :
  positive_draws g -> range_ok st -> 1 <= m <= Np.len (Species2.params st) ->
  log_likes_val5 g st m count
  = map Fin (map (log_likelihood_one (variates g (Species2.params st)) m count)
                 (array_candidates st)).
Proof.
  intros Hg Hst Hm. unfold log_likes_val5. rewrite (tail_sums_real g st Hst), !map_map.
  apply map_ext_in. intros n Hn.
  pose proof (array_candidates_range st Hst) as Hrange.
  rewrite Forall_forall in Hrange. specialize (Hrange n Hn).
  pose proof (variates_pos g (Species2.params st) Hg) as Hpos.
  rewrite gamma_values_variates.
  replace (nth (Z.to_nat (m - 1)) (map Fin (variates g (Species2.params st))) NaN)
    with (Fin (nth (Z.to_nat (m - 1)) (variates g (Species2.params st)) 0%R)).
  2:{ rewrite (nth_indep _ NaN (Fin 0%R)).
      - rewrite (map_nth Fin). reflexivity.
      - rewrite length_map, variates_length. unfold Np.len in Hm. lia. }
  assert (Hgm : (0 < nth (Z.to_nat (m - 1)) (variates g (Species2.params st)) 0)%R).
  { rewrite Forall_forall in Hpos. apply Hpos, nth_In.
    rewrite variates_length. unfold Np.len in Hm. lia. }
  assert (Hc : (0 < prefix_total (variates g (Species2.params st)) n)%R).
  { apply prefix_total_pos; [exact Hpos |].
    unfold Np.len in *. rewrite variates_length. exact Hrange. }
  rewrite fdiv_fin by exact Hc.
  rewrite flog_fin by (apply Rdiv_lt_0_compat; assumption).
  reflexivity.
Qed.

(** The scaling step on real numbers: the largest of them is what is
    subtracted. *)
Lemma exp_shift_real (l : list R) :
  l <> [] ->
  exists mx, greatest mx l /\ exp_shift (map Fin l) = exp_minus mx l.
Proof.
  intros Hne.
  assert (Hfin : Forall finite (map Fin l)).
  { rewrite Forall_map. apply Forall_forall. intros x _. exact I. }
  assert (Hne' : map Fin l <> []) by (destruct l; [congruence | discriminate]).
  destruct (max_spec _ Hfin Hne') as (mx & Emx & Hin & Hall).
  rewrite max_nonempty in Emx by exact Hne'. inversion Emx as [Emx'].
  exists mx. split.
  - split.
    + apply in_map_iff in Hin. destruct Hin as (x & Hx & Hxl). inversion Hx; subst.
      exact Hxl.
    + rewrite Forall_map in Hall. exact Hall.
  - unfold exp_shift, exp_minus. rewrite Emx', !map_map. reflexivity.
Qed.

(** C5.  In one draw of [SampleLikelihood] of Species2, Species3 and Species5
    (gamma variates being positive, the arrays consistent), the likelihoods
    are [exp(log_likes - max(log_likes))], where [log_likes] holds, for
    every candidate, the log-likelihood of the batch under the variates
    drawn: the sum, over the observed categories, of the logarithm of the
    category's proportion among the first [n] variates, times its count.
    The largest of these log-likelihoods is subtracted before
    exponentiating, and the largest of the exponentials is exactly 1.  In
    Species2 and Species3 the binomial coefficients are multiplied in
    afterwards; in Species5 the method applies no correction at all. *)
Theorem sample_likelihood_max_is_one (st : Species2.t) (data : list Z) (m count : Z)
    (g : rng) :
  let gam := variates g (Species2.params st) in
  positive_draws g ->
  (shapes_ok st -> Np.len data <= Np.len (Species2.params st) ->
   let log_likes := map (log_likelihood gam data) (Species2.ns st) in
   exists mx,
     greatest mx log_likes /\
     Species2.SampleLikelihood_exp st data g = Ok (exp_minus mx log_likes, tick g) /\
     Np.max (exp_minus mx log_likes) = Ok (Fin 1%R) /\
     Species2.SampleLikelihood st data g
     = Ok (Np.zip_with fmul (exp_minus mx log_likes) (coefs st data), tick g)) /\
  (range_ok st -> Np.len data <= Np.len (Species2.params st) ->
   let log_likes := map (log_likelihood gam data) (array_candidates st) in
   exists mx,
     greatest mx log_likes /\
     Species3.SampleLikelihood_exp st data g = Ok (exp_minus mx log_likes, tick g) /\
     Np.max (exp_minus mx log_likes) = Ok (Fin 1%R) /\
     Species3.SampleLikelihood st data g
     = Ok (Np.zip_with fmul (exp_minus mx log_likes) (coefs st data), tick g)) /\
  (range_ok st -> 1 <= m <= Np.len (Species2.params st) ->
   let log_likes := map (log_likelihood_one gam m count) (array_candidates st) in
   exists mx,
     greatest mx log_likes /\
     Species5.SampleLikelihood st m count g = Ok (exp_minus mx log_likes, tick g) /\
     Np.max (exp_minus mx log_likes) = Ok (Fin 1%R)).
Proof.
  intros gam Hg. split; [| split].
  - intros Hst Hm log_likes.
    assert (Hne : log_likes <> []).
    { unfold log_likes. destruct Hst as [Hne _].
      destruct (Species2.ns st); [congruence | discriminate]. }
    destruct (exp_shift_real log_likes Hne) as (mx & Hmx & Eshift).
    pose proof (log_likes_real g st data Hg Hst) as Ereal. fold gam log_likes in Ereal.
    exists mx. split; [exact Hmx |].
    rewrite <- Eshift, <- Ereal.
    split; [apply Species2_SampleLikelihood_exp_eq; assumption |].
    split; [| apply Species2_SampleLikelihood_eq; assumption].
    apply exp_shift_spec; [apply log_likes_val_finite; assumption |].
    rewrite Ereal. destruct log_likes; [congruence | discriminate].
  - intros Hst Hm log_likes.
    assert (Hne : log_likes <> []).
    { unfold log_likes, array_candidates, range_list. destruct Hst as [[Hne _] _].
      destruct (Species2.ns st); [congruence | discriminate]. }
    destruct (exp_shift_real log_likes Hne) as (mx & Hmx & Eshift).
    pose proof (log_likes3_real g st data Hg Hst) as Ereal. fold gam log_likes in Ereal.
    exists mx. split; [exact Hmx |].
    rewrite <- Eshift, <- Ereal.
    split; [apply Species3_SampleLikelihood_exp_eq; assumption |].
    split; [| apply Species3_SampleLikelihood_eq; assumption].
    apply exp_shift_spec; [apply log_likes_val3_finite; assumption |].
    rewrite Ereal. destruct log_likes; [congruence | discriminate].
  - intros Hst Hm log_likes.
    assert (Hne : log_likes <> []).
    { unfold log_likes, array_candidates, range_list. destruct Hst as [[Hne _] _].
      destruct (Species2.ns st); [congruence | discriminate]. }
    destruct (exp_shift_real log_likes Hne) as (mx & Hmx & Eshift).
    pose proof (log_likes5_real g st m count Hg Hst Hm) as Ereal.
    fold gam log_likes in Ereal.
    exists mx. split; [exact Hmx |].
    rewrite <- Eshift, <- Ereal.
    split; [apply Species5_SampleLikelihood_eq; assumption |].
    apply exp_shift_spec; [apply log_likes_val5_finite; assumption |].
    rewrite Ereal. destruct log_likes; [congruence | discriminate].
Qed.

Lemma sample_likelihood_max_is_one_witness :
  let st := Species2.mk [3; 4] [Fin 1%R; Fin 1%R] [1; 1; 1; 1] 1000 in
  let log_likes := map (log_likelihood [1; 1; 1; 1]%R [3; 2; 1]) [3; 4] in
  exists mx,
    greatest mx log_likes /\
    Species3.SampleLikelihood_exp st [3; 2; 1] unit_rng
    = Ok (exp_minus mx log_likes, tick unit_rng) /\
    Np.max (exp_minus mx log_likes) = Ok (Fin 1%R).
Proof.
  intros st log_likes.
  assert (Hst : range_ok st).
  { split; [| reflexivity]. split; [discriminate |]. split; [reflexivity |].
    split; repeat constructor; unfold Np.len; simpl; lia. }
  destruct (sample_likelihood_max_is_one st [3; 2; 1] 1 3 unit_rng unit_rng_positive)
    as (_ & H3 & _).
  destruct (H3 Hst) as (mx & Hmx & Heq & Hmax & _).
  - unfold Np.len. simpl. lia.
  - exists mx. split; [exact Hmx |]. split; [exact Heq | exact Hmax].
Defined.

(** ** C8: weights that sum to zero *)

Lemma nonneg_sum_zero (l : list double) :
  Forall nonnegfin l -> Rsum (map toR l) = 0%R -> Forall (fun x => x = Fin 0%R) l.
Proof.
  intros Hl. assert (Hnn : forall l', Forall nonnegfin l' -> (0 <= Rsum (map toR l'))%R).
  { clear. intros l' H. induction H as [| x l' Hx Hl' IH]; simpl; [lra |].
    destruct x; simpl in *; try contradiction. lra. }
  induction Hl as [| x l Hx Hl IH]; intros Hsum; constructor.
  - simpl in Hsum. pose proof (Hnn l Hl). destruct x; simpl in *; try contradiction.
    f_equal. lra.
  - apply IH. simpl in Hsum. pose proof (Hnn l Hl).
    destruct x; simpl in *; try contradiction. lra.
Qed.

Lemma nonnegfin_finite (x : double) : nonnegfin x -> finite x.
Proof. destruct x; simpl; tauto. Qed.

(** The renormalisation when the reweighted weights are not negative and sum
    to zero: every weight is 0/0, that is nan. *)
Lemma reweight_val_zero_sum (probs like : list double) :
  length probs = length like ->
  Forall nonnegfin (Np.zip_with fmul probs like) ->
  Np.sum (Np.zip_with fmul probs like) = Fin 0%R ->
  reweight_val probs like = repeat NaN (length probs).
Proof.
  intros Hlen Hnn Hsum. unfold reweight_val. rewrite Hsum.
  assert (Hz : Forall (fun x => x = Fin 0%R) (Np.zip_with fmul probs like)).
  { apply nonneg_sum_zero; [exact Hnn |].
    rewrite sum_finite in Hsum
      by (eapply Forall_impl; [| exact Hnn]; exact nonnegfin_finite).
    inversion Hsum. reflexivity. }
  rewrite <- (zip_with_length fmul probs like Hlen).
  induction Hz as [| x l Hx Hz IH]; simpl; [reflexivity |].
  subst x. rewrite fdiv_zero_zero. f_equal. apply IH.
  - inversion Hnn; assumption.
  - rewrite sum_finite
      by (inversion Hnn; subst; eapply Forall_impl; [| eassumption];
          exact nonnegfin_finite).
    f_equal. clear IH Hnn Hsum. induction Hz as [| y l' Hy Hz' IH']; simpl; [reflexivity |].
    subst y. simpl. rewrite IH'. lra.
Qed.

Lemma accumulated_eq (SampleLikelihood : M (list double)) (sl : rng -> list double)
    (k : nat) (st : Species2.t) (g : rng) :
  (forall g', SampleLikelihood g' = Ok (sl g', tick g')) ->
  accumulated SampleLikelihood k st g
  = acc_draws sl k (repeat (Fin 0%R) (length (Species2.ns st))) g.
Proof.
  intros H. unfold accumulated. apply acc_draws_ext.
  intros g'. unfold returned. rewrite H. reflexivity.
Qed.

(** C8 (as amended).  The renormalisation [probs *= like; probs /= probs.sum()]
    is not guarded.  With consistent arrays, [Species2.Update],
    [Species3.Update] and [Species5.UpdateOne] return normally; the weights
    they leave are the weights they found, multiplied by the likelihoods
    accumulated over the draws of [SampleLikelihood] (in Species5, times the
    number of unseen species) and divided by their sum; and when these
    reweighted weights sum to zero every weight of the returned state is nan
    (0/0): no error is surfaced by the renormalisation. *)
Theorem zero_sum_not_surfaced (st : Species2.t) (data : list Z) (m count : Z) (g : rng) :
  range_ok st ->
  Np.len data <= Np.len (Species2.params st) ->
  1 <= m <= Np.len (Species2.params st) ->
  (let like := accumulated (Species2.SampleLikelihood st data) 1000 st g in
   exists st',
     Species2.Update st data g = Ok (st', ticks 1000 g) /\
     Species2.probs st' = reweight_val (Species2.probs st) like /\
     (zero_sum (Species2.probs st) like ->
      Species2.probs st' = repeat NaN (length (Species2.ns st)))) /\
  (let like := accumulated (Species3.SampleLikelihood st data)
                           (Z.to_nat (Species2.iterations st)) st g in
   exists st',
     Species3.Update st data g
     = Ok (st', ticks (Z.to_nat (Species2.iterations st)) g) /\
     Species2.probs st' = reweight_val (Species2.probs st) like /\
     (zero_sum (Species2.probs st) like ->
      Species2.probs st' = repeat NaN (length (Species2.ns st)))) /\
  (let like := Np.zip_with fmul
                 (accumulated (Species5.SampleLikelihood st m count)
                              (Z.to_nat (Species2.iterations st)) st g)
                 (map of_int (Species5.unseen_species st m)) in
   exists st',
     Species5.UpdateOne st m count g
     = Ok (st', ticks (Z.to_nat (Species2.iterations st)) g) /\
     Species2.probs st' = reweight_val (Species2.probs st) like /\
     (zero_sum (Species2.probs st) like ->
      Species2.probs st' = repeat NaN (length (Species2.ns st)))).
Proof.
  intros Hst Hm Hm1. pose proof Hst as [[_ [Hpl _]] _].
  split; [| split].
  - intros like.
    assert (Elike : like = acc_draws
                             (fun g' => Np.zip_with fmul
                                          (exp_shift (log_likes_val g' st data))
                                          (coefs st data))
                             1000 (repeat (Fin 0%R) (length (Species2.ns st))) g).
    { apply accumulated_eq. intros g'.
      apply Species2_SampleLikelihood_eq; [apply Hst | exact Hm]. }
    assert (Hll : length like = length (Species2.ns st)).
    { rewrite Elike. apply (acc_draws_length _ (length (Species2.ns st))).
      - intros g'. apply Species2_sl_length.
      - apply repeat_length. }
    exists (Species2_after 1000 st data g).
    split; [apply Species2_Update_with_eq; [apply Hst | exact Hm] |].
    unfold Species2_after. rewrite <- Elike. clearbody like. cbn [Species2.probs].
    split; [reflexivity |]. intros [Hnn Hsum].
    rewrite <- Hpl. apply reweight_val_zero_sum; [congruence | exact Hnn | exact Hsum].
  - intros like.
    assert (Elike : like = acc_draws
                             (fun g' => Np.zip_with fmul
                                          (exp_shift (log_likes_val3 g' st data))
                                          (coefs st data))
                             (Z.to_nat (Species2.iterations st))
                             (repeat (Fin 0%R) (length (Species2.ns st))) g).
    { apply accumulated_eq. intros g'.
      apply Species3_SampleLikelihood_eq; assumption. }
    assert (Hll : length like = length (Species2.ns st)).
    { rewrite Elike. apply (acc_draws_length _ (length (Species2.ns st))).
      - intros g'. apply Species3_sl_length, Hst.
      - apply repeat_length. }
    exists (Species3_after st data g).
    split; [apply Species3_Update_eq; assumption |].
    unfold Species3_after. rewrite <- Elike. clearbody like. cbn [Species2.probs].
    split; [reflexivity |]. intros [Hnn Hsum].
    rewrite <- Hpl. apply reweight_val_zero_sum; [congruence | exact Hnn | exact Hsum].
  - intros like.
    assert (Elike : like = UpdateOne_likes st m count g).
    { unfold like, UpdateOne_likes. f_equal. apply accumulated_eq. intros g'.
      apply Species5_SampleLikelihood_eq; assumption. }
    eexists. split; [apply UpdateOne_eq; assumption |].
    rewrite <- Elike. cbn [Species2.set_probs Species2.probs].
    split; [reflexivity |]. intros [Hnn Hsum].
    rewrite <- Hpl. apply reweight_val_zero_sum; [| exact Hnn | exact Hsum].
    rewrite Elike, UpdateOne_likes_length by exact Hst. exact Hpl.
Qed.

Lemma zero_sum_not_surfaced_witness :
  let st := Species2.mk [3] [Fin 1%R] [1; 1; 1] 0 in
  let like := accumulated (Species3.SampleLikelihood st [3; 2; 1]) 0 st unit_rng in
  exists st',
    Species3.Update st [3; 2; 1] unit_rng = Ok (st', unit_rng) /\
    zero_sum [Fin 1%R] like /\
    Species2.probs st' = [NaN].
Proof.
  intros st like.
  assert (Hzero : zero_sum [Fin 1%R] like).
  { unfold like, accumulated. cbn [acc_draws Z.to_nat st Species2.ns length repeat].
    split.
    - constructor; [simpl; lra | constructor].
    - unfold Np.sum. simpl. f_equal. lra. }
  destruct (zero_sum_not_surfaced st [3; 2; 1] 1 3 unit_rng) as (_ & H3 & _).
  - apply range_ok_three. reflexivity.
  - unfold Np.len. simpl. lia.
  - unfold Np.len. simpl. lia.
  - destruct H3 as (st' & Hrun & _ & Hnan).
    exists st'. split; [exact Hrun |]. split; [exact Hzero |].
    exact (Hnan Hzero).
Defined.

(** C8 (as stated) fails.  With no draw accumulated ([iterations = 0]) every
    likelihood is 0 and the weights sum to zero after reweighting;
    [Species3.Update] returns normally and leaves the weight nan.  The
    renormalisation of weights [1, 1] by likelihoods [0, 0] likewise returns
    [nan, nan]. *)
Lemma zero_sum_counterexample :
  Species3.Update (Species2.mk [3] [Fin 1%R] [1; 1; 1] 0) [3; 2; 1] unit_rng
  = Ok (Species2.mk [3] [NaN] [4; 3; 2] 0, unit_rng) /\
  Species2.reweight [Fin 1%R; Fin 1%R] [Fin 0%R; Fin 0%R] = Ok [NaN; NaN].
Proof.
  assert (Hz : forall probs,
             Forall posfin probs ->
             reweight_val probs (repeat (Fin 0%R) (length probs))
             = repeat NaN (length probs)).
  { intros probs Hp.
    assert (Hall : Forall (fun x => x = Fin 0%R)
                          (Np.zip_with fmul probs (repeat (Fin 0%R) (length probs)))).
    { induction Hp as [| p l Hp Hl IH]; simpl; constructor; [| exact IH].
      destruct (posfin_inv _ Hp) as [r [-> _]]. simpl. f_equal. lra. }
    apply reweight_val_zero_sum.
    - rewrite repeat_length. reflexivity.
    - eapply Forall_impl; [| exact Hall]. intros x ->. simpl. lra.
    - rewrite sum_finite by (eapply Forall_impl; [| exact Hall]; intros x ->; exact I).
      f_equal. induction Hall as [| x l Hx Hl IH]; simpl; [reflexivity |].
      subst x. simpl. rewrite IH. lra. }
  split.
  - rewrite Species3_Update_eq.
    + unfold Species3_after. cbn [Species2.iterations Species2.ns Species2.probs
                                   Species2.params Z.to_nat acc_draws length repeat ticks].
      assert (H1 : Forall posfin [Fin 1%R]) by (repeat constructor; simpl; lra).
      apply Hz in H1. cbn [length repeat] in H1. rewrite H1. reflexivity.
    + apply range_ok_three. reflexivity.
    + unfold Np.len. simpl. lia.
  - rewrite reweight_eq by reflexivity.
    assert (H2 : Forall posfin [Fin 1%R; Fin 1%R]) by (repeat constructor; simpl; lra).
    apply Hz in H2. cbn [length repeat] in H2. rewrite H2. reflexivity.
Qed.

(** ** C3: the incremental variants *)

(** *** Species5 *)

Lemma setitem_upd_ok {A} (l : list A) (i : Z) (f : A -> A) :
  0 <= i < Np.len l -> Np.setitem_upd l i f = Ok (Np.update l (Z.to_nat i) f).
Proof.
  unfold Np.setitem_upd, Np.len. intros Hi.
  destruct (Z.ltb_spec i 0); [lia |].
  destruct (Z.ltb_spec i 0); [lia |].
  destruct (Z.leb_spec (Z.of_nat (length l)) i); [lia |]. reflexivity.
Qed.

Lemma Species5_step_eq (i count : Z) (st : Species2.t) (g : rng) :
  range_ok st -> 0 <= i < Np.len (Species2.params st) ->
  Species5.step i count st g = Ok (incremental_step (i + 1) count st g).
Proof.
  intros Hst Hi. unfold Species5.step. unfold bind at 1.
  rewrite UpdateOne_eq by (try assumption; lia).
  unfold bind, lift. cbn [Species2.set_probs Species2.params].
  rewrite setitem_upd_ok by exact Hi.
  unfold incremental_step, ret, UpdateOne_likes, Species5.unseen_species.
  rewrite map_map. replace (i + 1 - 1) with i by lia. reflexivity.
Qed.

Lemma range_ok_step (m count : Z) (st : Species2.t) (g : rng)
    (pre suf : list Z) (p : Z) :
  range_ok st -> Species2.params st = pre ++ p :: suf -> m = Np.len pre + 1 ->
  0 <= count -> p + count < 2 ^ 63 ->
  range_ok (fst (incremental_step m count st g)) /\
  Species2.params (fst (incremental_step m count st g))
  = (pre ++ [add64 p count]) ++ suf.
Proof.
  intros [[Hne [Hpl [Hns Hpar]]] Hrange] Hp Hm Hc Hov.
  unfold incremental_step. cbn [fst Species2.params].
  assert (Hupd : Np.update (Species2.params st) (Z.to_nat (m - 1))
                           (fun q => add64 q count)
                 = (pre ++ [add64 p count]) ++ suf).
  { rewrite Hp, Hm. unfold Np.len.
    replace (Z.to_nat (Z.of_nat (length pre) + 1 - 1)) with (length pre) by lia.
    rewrite update_app, <- app_assoc. reflexivity. }
  split; [| exact Hupd].
  unfold range_ok, shapes_ok, Np.len in *.
  cbn [Species2.ns Species2.probs Species2.params].
  rewrite Hupd.
  assert (Hlen : length ((pre ++ [add64 p count]) ++ suf)
                 = length (Species2.params st)).
  { rewrite Hp, !length_app. simpl. lia. }
  rewrite Hlen. repeat split; try assumption.
  - rewrite reweight_val_length; [exact Hpl |].
    rewrite zip_with_length.
    + rewrite Hpl. symmetry. apply (acc_draws_length _ (length (Species2.ns st))).
      * intros g'. apply Species5_sl_length.
        unfold range_ok, shapes_ok, Np.len. tauto.
      * apply repeat_length.
    + rewrite length_map. apply (acc_draws_length _ (length (Species2.ns st))).
      * intros g'. apply Species5_sl_length.
        unfold range_ok, shapes_ok, Np.len. tauto.
      * apply repeat_length.
  - rewrite Hp in Hpar. apply Forall_app in Hpar. destruct Hpar as [Hpre Hsuf].
    inversion Hsuf; subst. rewrite <- app_assoc. apply Forall_app.
    split; [assumption |]. constructor; [| assumption].
    unfold add64. rewrite wrap64_small; lia.
Qed.

(** [Species5.Update] follows the specification's steps, from position
    [len pre] on. *)
Lemma Species5_Update_refines (rest : list Z) :
  forall (pre suf : list Z) (st : Species2.t) (g : rng),
    range_ok st -> Species2.params st = pre ++ suf ->
    (length rest <= length suf)%nat -> counts_ok suf rest ->
    for_enum Species5.step (Np.len pre) rest st g
    = Ok (incremental (Np.len pre + 1) rest st g).
Proof.
  induction rest as [| c rest IH]; intros pre suf st g Hst Hp Hlen Hc.
  - reflexivity.
  - destruct suf as [| p suf]; [simpl in Hlen; lia |].
    destruct Hc as [[Hc0 Hcp] Hc].
    cbn [for_enum incremental]. unfold bind.
    rewrite Species5_step_eq.
    + destruct (range_ok_step (Np.len pre + 1) c st g pre suf p Hst Hp eq_refl Hc0 Hcp)
        as [Hst' Hp'].
      destruct (incremental_step (Np.len pre + 1) c st g) as [st' g'].
      cbn [fst] in *. rewrite <- len_app_one with (x := add64 p c).
      apply IH with (suf := suf); try assumption. simpl in Hlen. lia.
    + exact Hst.
    + rewrite Hp. unfold Np.len. rewrite length_app. simpl. lia.
Qed.

Lemma update_nth_same {A} (l : list A) (i : nat) (f : A -> A) (d : A) :
  (i < length l)%nat -> nth i (Np.update l i f) d = f (nth i l d).
Proof.
  revert i. induction l as [| x l IH]; intros [| i] Hi; simpl in *; try lia.
  - reflexivity.
  - apply IH. lia.
Qed.

Lemma update_nth_other {A} (l : list A) (i j : nat) (f : A -> A) (d : A) :
  i <> j -> nth j (Np.update l i f) d = nth j l d.
Proof.
  revert i j. induction l as [| x l IH]; intros [| i] [| j] Hij; simpl; try reflexivity.
  - lia.
  - apply IH. lia.
Qed.

(** *** Species4 *)

Lemma for_range_sum (L : M double) (f : rng -> double) (k : nat) (acc : double) (g : rng) :
  (forall g', L g' = Ok (f g', tick g')) ->
  for_range k (fun like => x <- L ;; ret (fadd like x)) acc g
  = Ok (sum_draws f k acc g, ticks k g).
Proof.
  intros HL. revert acc g. induction k as [| k IH]; intros acc g.
  - reflexivity.
  - cbn [for_range sum_draws ticks]. unfold bind at 1. unfold bind at 1.
    rewrite HL. unfold ret at 1. apply IH.
Qed.

Lemma mapM_weigh {H} (Lik : H -> M double) (like : H -> rng -> double) (k : nat)
    (hs : list (H * double)) (g : rng) :
  (forall h g', In h (map fst hs) -> Lik h g' = Ok (like h g', ticks k g')) ->
  thinkbayes.mapM (fun hp => x <- Lik (fst hp) ;; ret (fst hp, fmul (snd hp) x)) hs g
  = Ok (weigh like k hs g, ticks (k * length hs) g).
Proof.
  revert g. induction hs as [| hp hs IH]; intros g HL.
  - rewrite Nat.mul_0_r. reflexivity.
  - cbn [thinkbayes.mapM weigh]. unfold bind at 1. unfold bind at 1.
    rewrite HL by (left; reflexivity). unfold ret at 1. unfold bind at 1.
    rewrite IH by (intros; apply HL; right; assumption).
    unfold ret. f_equal. f_equal. rewrite <- ticks_add. f_equal. simpl length. lia.
Qed.

Section Species4_steps.

Context {TB : thinkbayes.Absent}.

Lemma Dirichlet_Likelihood_eq (h : thinkbayes.Dirichlet) (data : list Z) (g : rng) :
  Forall (fun a => 0 < a) (thinkbayes.params h) ->
  thinkbayes.Dirichlet_Likelihood h data g = Ok (dirichlet_draw h data g, tick g).
Proof.
  intros Hp. unfold thinkbayes.Dirichlet_Likelihood, thinkbayes.Dirichlet_Likelihood_with,
    thinkbayes.Dirichlet_Random, bind.
  rewrite gamma_ok by exact Hp. reflexivity.
Qed.

Lemma Species4_Likelihood_eq (self : thinkbayes.Suite thinkbayes.Dirichlet) (k : Z)
    (h : thinkbayes.Dirichlet) (data : list Z) (g : rng) :
  thinkbayes.iterations self = Some k ->
  Forall (fun a => 0 < a) (thinkbayes.params h) ->
  Species4.Likelihood self h data g
  = Ok (unseen_like (Z.to_nat k) (Np.len data) data h g, ticks (Z.to_nat k) g).
Proof.
  intros Hk Hp. unfold Species4.Likelihood. rewrite Hk. unfold bind at 1.
  cbn [hypo_Likelihood Species.Dirichlet_Hypo].
  rewrite (for_range_sum _ (dirichlet_draw h data)).
  - reflexivity.
  - intros g'. apply Dirichlet_Likelihood_eq, Hp.
Qed.

Lemma one_length (i count : Z) : 0 <= i -> Np.len (Species4.one i count) = i + 1.
Proof.
  intros Hi. unfold Species4.one, Np.len. rewrite length_app, repeat_length. simpl. lia.
Qed.

Lemma update_id {A} (l : list A) (i : nat) (f : A -> A) :
  (forall x, f x = x) -> Np.update l i f = l.
Proof.
  intros Hf. revert i. induction l as [| x l IH]; intros [| i]; simpl; try reflexivity.
  - rewrite Hf. reflexivity.
  - rewrite IH. reflexivity.
Qed.

Lemma combine_app_same {A B} (xs xs' : list A) (ys ys' : list B) :
  length xs = length ys ->
  combine (xs ++ xs') (ys ++ ys') = combine xs ys ++ combine xs' ys'.
Proof.
  revert ys. induction xs as [| x xs IH]; intros [| y ys] Hlen; simpl in *;
    try congruence. f_equal. apply IH. congruence.
Qed.

Lemma Dirichlet_Update_zeros (z : nat) :
  forall (s : nat) (tail : list (Z * Z)) (ps : list Z),
    (s + z <= length ps)%nat ->
    fold_left (fun acc id => rbind acc (fun ps' =>
                 Np.setitem_upd ps' (fst id) (fun p => p + snd id)))
              (combine (map Z.of_nat (seq s z)) (repeat 0 z) ++ tail) (Ok ps)
    = fold_left (fun acc id => rbind acc (fun ps' =>
                   Np.setitem_upd ps' (fst id) (fun p => p + snd id)))
                tail (Ok ps).
Proof.
  induction z as [| z IH]; intros s tail ps Hlen; [reflexivity |].
  cbn [seq map repeat combine app fold_left rbind fst snd].
  rewrite setitem_upd_ok by (unfold Np.len; lia).
  rewrite update_id by (intros; lia).
  apply IH. lia.
Qed.

Lemma Dirichlet_Update_one (h : thinkbayes.Dirichlet) (m count : Z) :
  1 <= m <= Np.len (thinkbayes.params h) ->
  thinkbayes.Dirichlet_Update h (Species4.one (m - 1) count) = Ok (bump m count h).
Proof.
  intros Hm. unfold thinkbayes.Dirichlet_Update, Species4.one.
  rewrite length_app, repeat_length. cbn [length].
  rewrite seq_app, map_app. cbn [seq map Nat.add].
  rewrite combine_app_same by (rewrite length_map, length_seq, repeat_length; reflexivity).
  rewrite Dirichlet_Update_zeros by (unfold Np.len in Hm; lia).
  cbn [combine fold_left rbind fst snd].
  rewrite setitem_upd_ok by (unfold Np.len in *; lia).
  rewrite Nat2Z.id. reflexivity.
Qed.

End Species4_steps.

Section Species4_refinement.

Context {TB : thinkbayes.Absent}.

Lemma weigh_fst {H} (like : H -> rng -> double) (k : nat) (hs : list (H * double))
    (g : rng) :
  map fst (weigh like k hs g) = map fst hs.
Proof.
  revert g. induction hs as [| hp hs IH]; intros g; simpl; [reflexivity |].
  rewrite IH. reflexivity.
Qed.

Lemma Normalize_fst {V} (pmf : thinkbayes.Pmf V) :
  map fst (fst (thinkbayes.Normalize pmf)) = map fst pmf.
Proof.
  unfold thinkbayes.Normalize. simpl. rewrite map_map. simpl. reflexivity.
Qed.

Lemma Species4_one_step (m count k : Z)
    (self : thinkbayes.Suite thinkbayes.Dirichlet) (g : rng) :
  thinkbayes.iterations self = Some k -> 1 <= m ->
  models_ok m (thinkbayes.d self) ->
  Species.Update_with Species4.Likelihood self (Species4.one (m - 1) count) g
  = Ok (suite_incremental_step m count self g).
Proof.
  intros Hk Hm Hok. unfold Species.Update_with, thinkbayes.Suite_Update.
  unfold bind at 1. unfold bind at 1.
  set (one := Species4.one (m - 1) count).
  assert (Hone : Np.len one = m) by (unfold one; rewrite one_length; lia).
  rewrite (mapM_weigh (fun h => Species4.Likelihood self h one)
                      (unseen_like (Z.to_nat k) m one) (Z.to_nat k)).
  - unfold ret at 1. unfold bind, lift.
    cbn [thinkbayes.d thinkbayes.iterations].
    rewrite (rmapM_ok _ (fun hp => (bump m count (fst hp), snd hp))).
    + unfold suite_incremental_step, ret. rewrite Hk. reflexivity.
    + intros hp Hin. cbn [hypo_Update Species.Dirichlet_Hypo].
      assert (Hf : In (fst hp) (map fst (thinkbayes.d self))).
      { rewrite <- (weigh_fst (unseen_like (Z.to_nat k) m one) (Z.to_nat k)
                             (thinkbayes.d self) g).
        rewrite <- Normalize_fst. apply in_map. exact Hin. }
      apply in_map_iff in Hf. destruct Hf as [hp0 [E Hin0]].
      unfold models_ok in Hok. rewrite Forall_forall in Hok.
      destruct (Hok hp0 Hin0) as [_ Hlen]. rewrite E in Hlen.
      unfold one. rewrite Dirichlet_Update_one by lia. reflexivity.
  - intros h g' Hin. apply in_map_iff in Hin. destruct Hin as [hp0 [E Hin0]].
    unfold models_ok in Hok. rewrite Forall_forall in Hok.
    destruct (Hok hp0 Hin0) as [Hpos _]. rewrite E in Hpos.
    rewrite (Species4_Likelihood_eq self k h one g' Hk Hpos). rewrite Hone.
    reflexivity.
Qed.

Lemma update_length {A} (l : list A) (i : nat) (f : A -> A) :
  length (Np.update l i f) = length l.
Proof.
  revert i. induction l as [| x l IH]; intros [| i]; simpl; try reflexivity.
  rewrite IH. reflexivity.
Qed.

Lemma update_Forall {A} (P : A -> Prop) (l : list A) (i : nat) (f : A -> A) :
  (forall x, P x -> P (f x)) -> Forall P l -> Forall P (Np.update l i f).
Proof.
  intros Hf Hl. revert i. induction Hl as [| x l Hx Hl IH]; intros [| i]; simpl;
    constructor; auto.
Qed.

Lemma models_ok_step (m m' count : Z)
    (self : thinkbayes.Suite thinkbayes.Dirichlet) (g : rng) :
  0 <= count -> models_ok m' (thinkbayes.d self) ->
  models_ok m' (thinkbayes.d (fst (suite_incremental_step m count self g))) /\
  thinkbayes.iterations (fst (suite_incremental_step m count self g))
  = thinkbayes.iterations self.
Proof.
  intros Hc Hok. split; [| reflexivity].
  unfold suite_incremental_step. cbn [fst thinkbayes.d].
  set (k := match thinkbayes.iterations self with
            | Some k => Z.to_nat k | None => 0%nat end).
  set (w := weigh (unseen_like k m (Species4.one (m - 1) count)) k (thinkbayes.d self) g).
  unfold models_ok in *. rewrite Forall_map. apply Forall_forall. intros hp Hin.
  cbn [fst]. unfold bump. cbn [thinkbayes.params].
  assert (Hf : In (fst hp) (map fst (thinkbayes.d self))).
  { unfold w in Hin. rewrite <- (weigh_fst (unseen_like k m (Species4.one (m - 1) count))
                                          k (thinkbayes.d self) g).
    rewrite <- Normalize_fst. apply in_map. exact Hin. }
  apply in_map_iff in Hf. destruct Hf as [hp0 [E Hin0]].
  rewrite Forall_forall in Hok. destruct (Hok hp0 Hin0) as [Hpos Hlen].
  rewrite E in Hpos, Hlen. split.
  - apply update_Forall; [intros; lia | exact Hpos].
  - unfold Np.len in *. rewrite update_length. exact Hlen.
Qed.

(** [Species4.Update] follows the specification's steps, from step [m] on. *)
Lemma Species4_Update_refines (rest : list Z) :
  forall (m k : Z) (self : thinkbayes.Suite thinkbayes.Dirichlet) (g : rng),
    thinkbayes.iterations self = Some k -> 1 <= m ->
    models_ok (m - 1 + Np.len rest) (thinkbayes.d self) ->
    Forall (fun c => 0 <= c) rest ->
    for_enum (fun i count self' =>
                Species.Update_with Species4.Likelihood self' (Species4.one i count))
             (m - 1) rest self g
    = Ok (suite_incremental m rest self g).
Proof.
  induction rest as [| c rest IH]; intros m k self g Hk Hm Hok Hc.
  - reflexivity.
  - inversion Hc as [| ? ? Hc0 Hc']; subst.
    assert (Hlen : Np.len (c :: rest) = Np.len rest + 1)
      by (unfold Np.len; simpl length; lia).
    assert (Hrest : 0 <= Np.len rest) by (unfold Np.len; lia).
    cbn [for_enum suite_incremental]. unfold bind.
    rewrite (Species4_one_step m c k self g Hk Hm).
    + destruct (models_ok_step m (m - 1 + Np.len (c :: rest)) c self g Hc0 Hok)
        as [Hok' Hit'].
      destruct (suite_incremental_step m c self g) as [self' g'].
      cbn [fst] in *.
      replace (m - 1 + 1) with (m + 1 - 1) by lia.
      apply (IH (m + 1) k self' g').
      * rewrite Hit'. exact Hk.
      * lia.
      * replace (m + 1 - 1 + Np.len rest) with (m - 1 + Np.len (c :: rest)) by lia.
        exact Hok'.
      * exact Hc'.
    + unfold models_ok in *. eapply Forall_impl; [| exact Hok].
      intros hp [Hp Hl]. split; [exact Hp | lia].
Qed.

End Species4_refinement.

(** *** Both variants *)

(** C3.  [Species5.Update] and [Species4.Update] process the batch one observed
    category at a time, as [incremental] and [suite_incremental] spell out:
    at step [m] (the [m]-th category revealed, starting with 1) the
    Monte-Carlo likelihood of every candidate N, drawn from the state before
    the step, is multiplied by [N - m + 1]; the candidates are reweighted and
    renormalised; and only after that the concentration state is updated, at
    position [m - 1] only and by that category's count only.  For Species4
    the reweighting is the parent class's update as the specification
    describes it. *)
Theorem incremental_update_steps {TB : thinkbayes.Absent}
    (st : Species2.t) (self : thinkbayes.Suite thinkbayes.Dirichlet) (k : Z)
    (data : list Z) (g : rng) :
  (range_ok st ->
   Np.len data <= Np.len (Species2.params st) ->
   counts_ok (Species2.params st) data ->
   Species5.Update st data g = Ok (incremental 1 data st g)) /\
  (thinkbayes.iterations self = Some k ->
   models_ok (Np.len data) (thinkbayes.d self) ->
   Forall (fun c => 0 <= c) data ->
   Species4.Update self data g = Ok (suite_incremental 1 data self g)).
Proof.
  split.
  - intros Hst Hm Hc. unfold Species5.Update.
    apply (Species5_Update_refines data [] (Species2.params st) st g Hst eq_refl);
      [unfold Np.len in Hm; lia | exact Hc].
  - intros Hk Hok Hc. unfold Species4.Update.
    apply (Species4_Update_refines data 1 k self g Hk); [lia | | exact Hc].
    replace (1 - 1 + Np.len data) with (Np.len data) by lia. exact Hok.
Qed.

Lemma incremental_update_steps_witness :
  let st := Species2.mk [3] [Fin 1%R] [1; 1; 1] 1000 in
  let self := thinkbayes.mkSuite [(thinkbayes.mkDirichlet 3 [1; 1; 1], Fin 1%R)]
                                 (Some 1000) in
  Species5.Update st [3; 2; 1] unit_rng = Ok (incremental 1 [3; 2; 1] st unit_rng) /\
  Species4.Update (HI := Species.Dirichlet_Hypo (TB := grid_absent)) self [3; 2; 1] unit_rng
  = Ok (suite_incremental (TB := grid_absent) 1 [3; 2; 1] self unit_rng).
Proof.
  intros st self.
  destruct (incremental_update_steps (TB := grid_absent) st self 1000 [3; 2; 1] unit_rng)
    as [H5 H4].
  split.
  - apply H5.
    + apply range_ok_three. reflexivity.
    + unfold Np.len. simpl. lia.
    + simpl. lia.
  - apply H4.
    + reflexivity.
    + repeat constructor; unfold Np.len; simpl; lia.
    + repeat constructor; lia.
Defined.

(** ** C6: the likelihood of a candidate in the per-N suite *)

Lemma Dirichlet_Update_fold (rest : list Z) :
  forall (pre suf : list Z),
    (length rest <= length suf)%nat ->
    fold_left (fun acc id => rbind acc (fun ps' =>
                 Np.setitem_upd ps' (fst id) (fun p => p + snd id)))
              (combine (map Z.of_nat (seq (length pre) (length rest))) rest)
              (Ok (pre ++ suf))
    = Ok (pre ++ plain_add suf rest).
Proof.
  induction rest as [| c rest IH]; intros pre suf Hlen.
  - simpl. destruct suf; reflexivity.
  - destruct suf as [| p suf]; [simpl in Hlen; lia |].
    cbn [length seq map combine fold_left rbind fst snd].
    rewrite (setitem_upd_app pre p suf).
    replace (pre ++ (p + c) :: suf) with ((pre ++ [p + c]) ++ suf)
      by (rewrite <- app_assoc; reflexivity).
    replace (S (length pre)) with (length (pre ++ [p + c]))
      by (rewrite length_app; simpl; lia).
    rewrite IH by (simpl in Hlen; lia).
    rewrite <- app_assoc. reflexivity.
Qed.

Lemma Dirichlet_Update_eq (h : thinkbayes.Dirichlet) (data : list Z) :
  Np.len data <= Np.len (thinkbayes.params h) ->
  thinkbayes.Dirichlet_Update h data = Ok (dirichlet_updated data h).
Proof.
  intros Hlen. unfold thinkbayes.Dirichlet_Update.
  assert (E := Dirichlet_Update_fold data [] (thinkbayes.params h)).
  cbn [length app] in E. rewrite E by (unfold Np.len in Hlen; lia).
  reflexivity.
Qed.

Section Species_likelihood.

Context {TB : thinkbayes.Absent}.

Lemma Species_Likelihood_eq (self : thinkbayes.Suite thinkbayes.Dirichlet) (k : Z)
    (h : thinkbayes.Dirichlet) (data : list Z) (g : rng) :
  thinkbayes.iterations self = Some k ->
  Forall (fun a => 0 < a) (thinkbayes.params h) ->
  Species.Likelihood self h data g
  = Ok (binomial_like (Z.to_nat k) data h g, ticks (Z.to_nat k) g).
Proof.
  intros Hk Hp. unfold Species.Likelihood. rewrite Hk. unfold bind at 1.
  cbn [hypo_Likelihood Species.Dirichlet_Hypo].
  rewrite (for_range_sum _ (dirichlet_draw h data)).
  - reflexivity.
  - intros g'. apply Dirichlet_Likelihood_eq, Hp.
Qed.

Lemma Species_Update_eq (self : thinkbayes.Suite thinkbayes.Dirichlet) (k : Z)
    (data : list Z) (g : rng) :
  thinkbayes.iterations self = Some k ->
  models_ok (Np.len data) (thinkbayes.d self) ->
  Species.Update self data g
  = Ok (Species_after (Z.to_nat k) data self g,
        ticks (Z.to_nat k * length (thinkbayes.d self)) g).
Proof.
  intros Hk Hok.
  unfold Species.Update, Species.Update_with, thinkbayes.Suite_Update.
  unfold bind at 1. unfold bind at 1.
  rewrite (mapM_weigh (fun h' => Species.Likelihood self h' data)
                      (binomial_like (Z.to_nat k) data) (Z.to_nat k)).
  - unfold ret at 1. unfold bind, lift.
    cbn [thinkbayes.d thinkbayes.iterations].
    rewrite (rmapM_ok _ (fun hp => (dirichlet_updated data (fst hp), snd hp))).
    + reflexivity.
    + intros hp Hin. cbn [hypo_Update Species.Dirichlet_Hypo].
      assert (Hf : In (fst hp) (map fst (thinkbayes.d self))).
      { rewrite <- (weigh_fst (binomial_like (Z.to_nat k) data) (Z.to_nat k)
                             (thinkbayes.d self) g).
        rewrite <- Normalize_fst. apply in_map. exact Hin. }
      apply in_map_iff in Hf. destruct Hf as [hp0 [E Hin0]].
      unfold models_ok in Hok. rewrite Forall_forall in Hok.
      destruct (Hok hp0 Hin0) as [_ Hlen]. rewrite E in Hlen.
      rewrite Dirichlet_Update_eq by exact Hlen. reflexivity.
  - intros h' g' Hin. apply in_map_iff in Hin. destruct Hin as [hp0 [E Hin0]].
    unfold models_ok in Hok. rewrite Forall_forall in Hok.
    destruct (Hok hp0 Hin0) as [Hpos _]. rewrite E in Hpos.
    apply Species_Likelihood_eq; assumption.
Qed.

(** C6 (as amended).  In the per-N baseline variant the likelihood assigned to
    a candidate N for a batch is the sum (not the average) of [iterations]
    Monte-Carlo likelihood draws from that N's own Dirichlet model, multiplied
    by the binomial coefficient C(N, m), m being the number of observed
    categories; [Update] reweights and renormalises the candidates with these
    likelihoods, drawn from the models as they are before the update, and
    only then updates every model with the full batch. *)
Theorem per_candidate_likelihood_is_sum
    (self : thinkbayes.Suite thinkbayes.Dirichlet) (k : Z)
    (h : thinkbayes.Dirichlet) (data : list Z) (g : rng) :
  thinkbayes.iterations self = Some k ->
  (Forall (fun a => 0 < a) (thinkbayes.params h) ->
   Species.Likelihood self h data g
   = Ok (fmul (sum_draws (dirichlet_draw h data) (Z.to_nat k) (Fin 0%R) g)
              (thinkbayes.BinomialCoef (thinkbayes.n h) (Np.len data)),
         ticks (Z.to_nat k) g)) /\
  (models_ok (Np.len data) (thinkbayes.d self) ->
   let weighted := weigh (binomial_like (Z.to_nat k) data) (Z.to_nat k)
                         (thinkbayes.d self) g in
   let renormalized := fst (thinkbayes.Normalize weighted) in
   Species.Update self data g
   = Ok (thinkbayes.mkSuite
           (map (fun hp => (dirichlet_updated data (fst hp), snd hp)) renormalized)
           (thinkbayes.iterations self),
         ticks (Z.to_nat k * length (thinkbayes.d self)) g)).
Proof.
  intros Hk. split.
  - intros Hp. apply Species_Likelihood_eq; assumption.
  - intros Hok. apply Species_Update_eq; assumption.
Qed.

End Species_likelihood.

Lemma fpow_nat_pos (a : double) (k : nat) : posfin a -> posfin (fpow_nat a k).
Proof.
  intros Ha. induction k as [| k IH]; simpl; [lra |]. apply fmul_pos; assumption.
Qed.

Lemma fpow_pos (a : double) (z : Z) : posfin a -> posfin (fpow a z).
Proof.
  intros Ha. unfold fpow. destruct (z <? 0).
  - apply fdiv_pos; [simpl; lra | apply fpow_nat_pos, Ha].
  - apply fpow_nat_pos, Ha.
Qed.

Lemma fold_fmul_pos (l : list double) (acc : double) :
  posfin acc -> Forall posfin l -> posfin (fold_left fmul l acc).
Proof.
  revert acc. induction l as [| x l IH]; intros acc Hacc Hl; simpl; [exact Hacc |].
  inversion Hl; subst. apply IH; [apply fmul_pos |]; assumption.
Qed.

Lemma power_product_pos (p : list double) (x : list Z) :
  Forall posfin p -> posfin (power_product p x).
Proof.
  intros Hp. unfold power_product. apply fold_fmul_pos; [simpl; lra |].
  revert x. induction Hp as [| a p Ha Hp IH]; intros [| z x]; simpl; constructor.
  - apply fpow_pos, Ha.
  - apply IH.
Qed.

Lemma grid_draw_pos (h : thinkbayes.Dirichlet) (data : list Z) (g : rng) :
  thinkbayes.params h <> [] -> positive_draws g ->
  posfin (dirichlet_draw (TB := grid_absent) h data g).
Proof.
  intros Hne Hg. unfold dirichlet_draw. cbn [thinkbayes.multinomial grid_absent].
  apply power_product_pos. rewrite Forall_map.
  pose proof (gamma_values_pos g (thinkbayes.params h) Hg) as Hgv.
  assert (Hsum : posfin (Np.sum (gamma_values g (thinkbayes.params h)))).
  { apply sum_posfin; [exact Hgv |]. intros E.
    apply (f_equal (@length double)) in E. rewrite gamma_values_length in E.
    destruct (thinkbayes.params h); [congruence | discriminate]. }
  eapply Forall_impl; [| exact Hgv]. intros x Hx. apply fdiv_pos; assumption.
Qed.

Lemma sum_draws_pos (f : rng -> double) (k : nat) (acc : double) (g : rng) :
  (forall g', positive_draws g' -> posfin (f g')) -> positive_draws g ->
  (posfin acc \/ (nonnegfin acc /\ (0 < k)%nat)) ->
  posfin (sum_draws f k acc g).
Proof.
  intros Hf. revert acc g. induction k as [| k IH]; intros acc g Hg Hacc; simpl.
  - destruct Hacc as [Hacc | [_ Hk]]; [exact Hacc | lia].
  - apply IH; [apply tick_positive, Hg |]. left.
    destruct Hacc as [Hacc | [Hacc _]].
    + apply fadd_pos; auto.
    + apply fadd_nonneg_pos; auto.
Qed.

Lemma sum_is_not_average (s c : double) :
  posfin s -> posfin c -> fmul s c <> fmul (fdiv s (of_int 2)) c.
Proof.
  intros Hs Hc. destruct (posfin_inv _ Hs) as [x [-> Hx]].
  destruct (posfin_inv _ Hc) as [y [-> Hy]].
  unfold of_int. rewrite fdiv_fin by lra. simpl. intros E. inversion E as [E'].
  assert (x * y = x * y / 2)%R by (rewrite E' at 1; field).
  assert (0 < x * y)%R by (apply Rmult_lt_0_compat; assumption).
  lra.
Qed.

Lemma per_candidate_likelihood_is_sum_witness :
  let h := thinkbayes.mkDirichlet 3 [1; 1; 1] in
  let self := thinkbayes.mkSuite [(h, Fin 1%R)] (Some 2) in
  Species.Likelihood (HI := Species.Dirichlet_Hypo (TB := grid_absent))
                     self h [3; 2; 1] unit_rng
  = Ok (fmul (sum_draws (dirichlet_draw (TB := grid_absent) h [3; 2; 1]) 2
                        (Fin 0%R) unit_rng)
             (thinkbayes.BinomialCoef 3 3),
        ticks 2 unit_rng).
Proof.
  intros h self.
  destruct (per_candidate_likelihood_is_sum (TB := grid_absent) self 2 h [3; 2; 1]
                                            unit_rng eq_refl) as [HL _].
  apply HL. repeat constructor.
Defined.

(** C6 (as stated) fails: with two iterations on the 3-category model and the
    batch [3, 2, 1], the likelihood of the candidate is the sum of the two
    draws times C(3, 3), which differs from their average times C(3, 3). *)
Lemma likelihood_average_counterexample :
  let h := thinkbayes.mkDirichlet 3 [1; 1; 1] in
  let self := thinkbayes.mkSuite [(h, Fin 1%R)] (Some 2) in
  exists like g',
    Species.Likelihood (HI := Species.Dirichlet_Hypo (TB := grid_absent))
                       self h [3; 2; 1] unit_rng = Ok (like, g') /\
    like <> average_like (TB := grid_absent) 2 [3; 2; 1] h unit_rng.
Proof.
  intros h self. eexists _, _. split.
  - apply (Species_Likelihood_eq (TB := grid_absent) self 2 h [3; 2; 1] unit_rng eq_refl).
    repeat constructor.
  - unfold binomial_like, average_like. apply sum_is_not_average.
    + apply sum_draws_pos.
      * intros g' Hg'. apply grid_draw_pos; [discriminate | exact Hg'].
      * exact unit_rng_positive.
      * right. split; [simpl; lra | simpl; lia].
    + apply BinomialCoef_pos. unfold Np.len. simpl. lia.
Qed.

(** ** C4: the importance weight of OversampledDirichlet *)


Lemma plain_add_slices (params data : list Z) :
  Np.zip_with Z.add (Np.take params (Np.len data)) data ++ Np.drop params (Np.len data)
  = plain_add params data.
Proof.
  unfold Np.take, Np.drop, Np.len. rewrite !bound_of_nat.
  revert data. induction params as [| p ps IH]; intros [| d ds]; simpl; try reflexivity.
  f_equal. apply IH.
Qed.


Lemma MakeConditionals_loop_spec (xs : list Z) :
  forall (rest : list Z) (total : Z),
    total = fold_left Z.add (xs ++ rest) 0 ->
    OversampledDirichlet.MakeConditionals_loop total xs
    = map (fun i => thinkbayes.mkBeta (nth i (xs ++ rest) 0) (sum_from (S i) (xs ++ rest)))
          (seq 0%nat (length xs)).
Proof.
  induction xs as [| x xs IH]; intros rest total Ht; [reflexivity |].
  cbn [OversampledDirichlet.MakeConditionals_loop length seq map].
  assert (Hrest : total - x = fold_left Z.add (xs ++ rest) 0).
  { rewrite Ht. cbn [app fold_left]. rewrite (fold_add_shift _ (0 + x)). lia. }
  f_equal.
  - unfold sum_from. cbn [app nth skipn]. rewrite Hrest. reflexivity.
  - rewrite (IH rest (total - x) Hrest).
    rewrite <- seq_shift, map_map. apply map_ext. intros i. reflexivity.
Qed.

Lemma setitem_upd_last {A} (l : list A) (x : A) (f : A -> A) :
  Np.setitem_upd (l ++ [x]) (-1) f = Ok (l ++ [f x]).
Proof.
  unfold Np.setitem_upd, Np.len. rewrite length_app. simpl length.
  change (-1 <? 0) with true. cbv iota.
  destruct (Z.ltb_spec (Z.of_nat (length l + 1) + -1) 0); [lia |].
  destruct (Z.leb_spec (Z.of_nat (length l + 1)) (Z.of_nat (length l + 1) + -1)); [lia |].
  cbn [orb].
  replace (Z.to_nat (Z.of_nat (length l + 1) + -1)) with (length l) by lia.
  rewrite update_app. reflexivity.
Qed.



Section Oversampled_weight.

Context {TB : thinkbayes.Absent}.

Lemma MakeConditionals_loop_length (xs : list Z) (total : Z) :
  length (OversampledDirichlet.MakeConditionals_loop total xs) = length xs.
Proof.
  revert total. induction xs as [| x xs IH]; intros total; simpl; [reflexivity |].
  rewrite IH. reflexivity.
Qed.

(** A model of [n] coordinates has [n - 1] conditional tables: the last
    coordinate takes what is left of the stick. *)
Lemma prior_tables_length (params : list Z) :
  length (map thinkbayes.MakePmf (OversampledDirichlet.MakeConditionals params))
  = (length params - 1)%nat.
Proof.
  unfold OversampledDirichlet.MakeConditionals.
  rewrite length_map, MakeConditionals_loop_length.
  unfold Np.take, Np.bound, Np.len. change (-1 <? 0) with true. cbv iota.
  rewrite length_firstn. lia.
Qed.

Lemma Peek_ok (self : OversampledDirichlet.t) (data : list Z) :
  Np.len data <= Np.len (thinkbayes.params (OversampledDirichlet.base self)) ->
  exists w cs,
    OversampledDirichlet.Peek self data
    = Ok (OversampledDirichlet.mk (OversampledDirichlet.base self) (Some w) (Some cs)).
Proof.
  intros Hlen. unfold OversampledDirichlet.Peek, OversampledDirichlet.TrimMarginals.
  cbn [OversampledDirichlet.base OversampledDirichlet.conditionals
       OversampledDirichlet.weight].
  rewrite inplace_same_length
    by (rewrite take_length_le; unfold Np.len in *; lia).
  cbn [rbind]. rewrite plain_add_slices.
  destruct (OversampledDirichlet.bounds
              (plain_add (thinkbayes.params (OversampledDirichlet.base self)) data))
    as [lows highs] eqn:Eb.
  eexists _, _. reflexivity.
Qed.









End Oversampled_weight.

(** *** The example instance has defined tables *)




Lemma zip3_Forall {A B C} (P : A -> Prop) (Q : B -> Prop) (S : C -> Prop)
    (xs : list A) (ys : list B) (zs : list C) :
  Forall P xs -> Forall Q ys -> Forall S zs ->
  Forall (fun t => P (fst (fst t)) /\ Q (snd (fst t)) /\ S (snd t))
         (OversampledDirichlet.zip3 xs ys zs).
Proof.
  intros Hxs. revert ys zs. induction Hxs as [| x xs Hx Hxs IH];
    intros ys zs Hys Hzs; simpl; [constructor |].
  destruct Hys as [| y ys Hy Hys]; [constructor |].
  destruct Hzs as [| z zs Hz Hzs]; constructor; auto.
Qed.



(** ** C10: Species6 never completes an update *)

Section Species6_update.

Context {TB : thinkbayes.Absent}.

Lemma Oversampled_init_ok (n : Z) :
  0 <= n -> OversampledDirichlet.init n = Ok (fresh_model n).
Proof.
  intros Hn. unfold OversampledDirichlet.init, thinkbayes.Dirichlet_init, Np.full.
  destruct (Z.ltb_spec n 0); [lia | reflexivity].
Qed.

Lemma Species6_init_ok (ns : list Z) :
  Forall (fun n => 0 <= n) ns ->
  Species6.init ns
  = Ok (thinkbayes.mkSuite (thinkbayes.Suite_init (map fresh_model ns)) None).
Proof.
  intros Hns. unfold Species6.init.
  rewrite (rmapM_ok _ fresh_model); [reflexivity |].
  intros n Hn. apply Oversampled_init_ok. rewrite Forall_forall in Hns. auto.
Qed.

(** The parent class's update stops at the first hypothesis when the suite
    has no [iterations] attribute. *)
Lemma Suite_Update_no_iterations {H} {HI : Hypo H} (self : thinkbayes.Suite H)
    (data : list Z) (g : rng) :
  thinkbayes.iterations self = None -> thinkbayes.d self <> [] ->
  thinkbayes.Suite_Update Species.Likelihood self data g = Raise AttributeError.
Proof.
  intros Hit Hne. unfold thinkbayes.Suite_Update.
  destruct (thinkbayes.d self) as [| hp rest]; [congruence |].
  cbn [thinkbayes.mapM]. unfold bind at 1. unfold bind at 1. unfold bind at 1.
  unfold Species.Likelihood. rewrite Hit. reflexivity.
Qed.

(** With no [iterations] attribute and at least one hypothesis, the update
    raises: whatever the [Peek] phase raises, or else AttributeError. *)
Lemma Species6_Update_raises (self : thinkbayes.Suite OversampledDirichlet.t)
    (data : list Z) (g : rng) :
  thinkbayes.iterations self = None -> thinkbayes.d self <> [] ->
  (exists e, Species6.Update self data g = Raise e) /\
  (Forall (fun hp => Np.len data
                     <= Np.len (thinkbayes.params (OversampledDirichlet.base (fst hp))))
          (thinkbayes.d self) ->
   Species6.Update self data g = Raise AttributeError).
Proof.
  intros Hit Hne. unfold Species6.Update, bind, lift.
  destruct (rmapM (fun hp => rbind (OversampledDirichlet.Peek (fst hp) data)
                                   (fun h => Ok (h, snd hp))) (thinkbayes.d self))
    as [d1 | e] eqn:Epeek.
  - assert (Hd1 : d1 <> []).
    { apply rmapM_length in Epeek. intros ->.
      destruct (thinkbayes.d self); [congruence | discriminate]. }
    assert (HU : thinkbayes.Suite_Update Species.Likelihood
                   (thinkbayes.mkSuite d1 (thinkbayes.iterations self)) data g
                 = Raise AttributeError).
    { apply Suite_Update_no_iterations; [exact Hit | exact Hd1]. }
    rewrite HU. split; [eexists; reflexivity | reflexivity].
  - split; [eexists; reflexivity |].
    intros Hall. exfalso. revert Epeek. clear Hne.
    induction Hall as [| hp rest Hhp Hall IH]; [discriminate |].
    cbn [rmapM]. destruct (Peek_ok (fst hp) data Hhp) as [w [cs Hp]].
    rewrite Hp. cbn [rbind].
    destruct (rmapM _ rest) as [d' |] eqn:Er; [discriminate |].
    intros E. apply IH. 
    cbn [rbind] in E. exact E.
Qed.

(** C10 (as amended).  For every non-empty candidate range of non-negative
    candidates and every batch, [Species6(ns)] is built without an
    [iterations] attribute and [Update(data)] never returns: it raises.  The
    exception is the AttributeError of the inherited [Species.Likelihood]
    whenever the [Peek] phase completes, in particular whenever every
    candidate N is at least the number of observed categories; otherwise it
    is the exception that [Peek] raises first. *)
Theorem Species6_update_never_completes (ns : list Z) (data : list Z) (g : rng) :
  ns <> [] -> Forall (fun n => 0 <= n) ns ->
  exists self,
    Species6.init ns = Ok self /\
    thinkbayes.iterations self = None /\
    (exists e, Species6.Update self data g = Raise e) /\
    (Forall (fun n => Np.len data <= n) ns ->
     Species6.Update self data g = Raise AttributeError).
Proof.
  intros Hne Hns. eexists. split; [apply Species6_init_ok, Hns |].
  split; [reflexivity |].
  assert (Hd : thinkbayes.d (thinkbayes.mkSuite
                               (thinkbayes.Suite_init (map fresh_model ns)) None) <> []).
  { cbn [thinkbayes.d]. unfold thinkbayes.Suite_init.
    destruct ns; [congruence | discriminate]. }
  destruct (Species6_Update_raises
              (thinkbayes.mkSuite (thinkbayes.Suite_init (map fresh_model ns)) None)
              data g eq_refl Hd) as [Hex Hattr].
  split; [exact Hex |].
  intros Hm. apply Hattr. cbn [thinkbayes.d]. unfold thinkbayes.Suite_init.
  rewrite Forall_map, Forall_map. cbn [fst].
  apply Forall_forall. intros n Hn.
  rewrite Forall_forall in Hm, Hns. specialize (Hm n Hn). specialize (Hns n Hn).
  unfold fresh_model, Np.len in *.
  cbn [OversampledDirichlet.base thinkbayes.params]. rewrite repeat_length. lia.
Qed.

End Species6_update.

Lemma Species6_update_never_completes_witness :
  exists self,
    Species6.init (TB := grid_absent) [3; 4] = Ok self /\
    Species6.Update self [3; 2; 1] unit_rng = Raise AttributeError.
Proof.
  destruct (Species6_update_never_completes (TB := grid_absent) [3; 4] [3; 2; 1] unit_rng)
    as [self [Hinit [_ [_ Hattr]]]].
  - discriminate.
  - repeat constructor; lia.
  - exists self. split; [exact Hinit |]. apply Hattr.
    repeat constructor; unfold Np.len; simpl; lia.
Defined.

(** C10 (as stated) fails: with the single candidate 2 and a batch of three
    categories, [Peek] raises ValueError at [params[:m] += data] before
    [Species.Likelihood] is reached; the exception is not an
    AttributeError. *)
Lemma Species6_exception_counterexample :
  exists self,
    Species6.init (TB := grid_absent) [2] = Ok self /\
    [1; 1; 1] <> [] /\
    Species6.Update self [1; 1; 1] unit_rng = Raise ValueError /\
    Species6.Update self [1; 1; 1] unit_rng <> Raise AttributeError.
Proof.
  exists (thinkbayes.mkSuite
            (thinkbayes.Suite_init [fresh_model (TB := grid_absent) 2]) None).
  split; [apply (Species6_init_ok (TB := grid_absent) [2]); repeat constructor; lia |].
  split; [discriminate |].
  assert (E : Species6.Update
                (thinkbayes.mkSuite
                   (thinkbayes.Suite_init [fresh_model (TB := grid_absent) 2]) None)
                [1; 1; 1] unit_rng = Raise ValueError) by reflexivity.
  split; [exact E |]. rewrite E. discriminate.
Qed.

(** ** C2, continued: the suites with one model per candidate *)

Section Suite_normalization.

Context {TB : thinkbayes.Absent}.











End Suite_normalization.

Section Suite_incremental_normalization.

Context {TB : thinkbayes.Absent}.





End Suite_incremental_normalization.

(** *** Sequences of updates of the suites with one model per candidate *)

Section Suite_sequences.

Context {TB : thinkbayes.Absent}.

(** The suite that [Species(range(a, a + k), iterations)] builds is in such a
    state. *)
Lemma Species_init_range_wf (a : Z) (k : nat) (iterations : Z) :
  1 <= a -> (0 < k)%nat -> 0 < iterations ->
  exists self,
    Species.init (range_list a k) iterations = Ok self /\
    suite_wf self /\ candidates self = range_list a k.
Proof.
  intros Ha Hk Hit.
  set (model := fun n => thinkbayes.mkDirichlet n (repeat 1 (Z.to_nat n))).
  assert (Hinit : rmapM thinkbayes.Dirichlet_init (range_list a k)
                  = Ok (map model (range_list a k))).
  { apply rmapM_ok. intros n Hn. apply range_list_In in Hn.
    unfold thinkbayes.Dirichlet_init, Np.full.
    destruct (Z.ltb_spec n 0); [lia | reflexivity]. }
  exists (thinkbayes.mkSuite (thinkbayes.Suite_init (map model (range_list a k)))
                             (Some iterations)).
  split; [unfold Species.init; rewrite Hinit; reflexivity |].
  assert (Hcand : candidates (thinkbayes.mkSuite
                                (thinkbayes.Suite_init (map model (range_list a k)))
                                (Some iterations)) = range_list a k).
  { unfold candidates, thinkbayes.Suite_init. cbn [thinkbayes.d].
    rewrite !map_map. cbn [fst]. unfold model. cbn [thinkbayes.n]. apply map_id. }
  split; [| exact Hcand].
  unfold suite_wf. rewrite Hcand. cbn [thinkbayes.d thinkbayes.iterations].
  unfold thinkbayes.Suite_init. split.
  - intros E. apply (f_equal (@length _)) in E.
    rewrite !length_map, range_list_length in E. simpl in E. lia.
  - split; [exists iterations; split; [reflexivity | exact Hit] |].
    split; [apply range_list_NoDup |]. split.
    + rewrite !map_map. cbn [snd]. rewrite Forall_map.
      apply Forall_forall. intros h _. unfold of_int, Np.len.
      rewrite length_map, range_list_length.
      assert (0 < IZR (Z.of_nat k))%R by (apply IZR_lt; lia).
      rewrite fdiv_fin by assumption. simpl. apply Rdiv_lt_0_compat; lra.
    + rewrite !map_map. cbn [fst]. rewrite Forall_map.
      apply Forall_forall. intros n Hn. apply range_list_In in Hn.
      unfold model, Np.len. cbn [thinkbayes.params thinkbayes.n].
      rewrite repeat_length. split; [apply repeat_Forall; lia | lia].
Qed.



End Suite_sequences.




(** * Properties of the rest of the code *)

(** ** Subjects and ReadData *)

Lemma tuple_lt_asym (a b : Z * String.string) :
  Subject.tuple_lt a b = true -> Subject.tuple_lt b a = false.
Proof.
  unfold Subject.tuple_lt, String.ltb. intros H.
  apply orb_true_iff in H. apply orb_false_iff.
  destruct H as [H | H].
  - apply Z.ltb_lt in H. split; [apply Z.ltb_ge; lia |].
    apply andb_false_iff. left. apply Z.eqb_neq. lia.
  - apply andb_true_iff in H. destruct H as [He Hs]. apply Z.eqb_eq in He.
    split; [apply Z.ltb_ge; lia |].
    apply andb_false_iff. right.
    rewrite String.compare_antisym.
    destruct (String.compare (snd a) (snd b)); simpl; congruence.
Qed.

Lemma insert_HdRel (x y : Z * String.string) (l : list (Z * String.string)) :
  tuple_le y x -> HdRel tuple_le y l -> HdRel tuple_le y (Subject.insert x l).
Proof.
  intros Hyx Hl. destruct l as [| z l]; simpl.
  - constructor. exact Hyx.
  - destruct (Subject.tuple_lt z x); constructor.
    + inversion Hl; subst. assumption.
    + exact Hyx.
Qed.

Lemma insert_sorted (x : Z * String.string) (l : list (Z * String.string)) :
  Sorted tuple_le l -> Sorted tuple_le (Subject.insert x l).
Proof.
  induction l as [| y l IH]; intros Hs; simpl.
  - constructor; constructor.
  - inversion Hs as [| ? ? Hl Hhd]; subst.
    destruct (Subject.tuple_lt y x) eqn:E.
    + constructor; [apply IH; assumption |].
      apply insert_HdRel; [| assumption].
      unfold tuple_le. apply tuple_lt_asym. exact E.
    + constructor; [assumption |]. constructor. exact E.
Qed.

Lemma sort_sorted (l : list (Z * String.string)) : Sorted tuple_le (Subject.sort l).
Proof.
  induction l as [| x l IH]; simpl; [constructor |]. apply insert_sorted. exact IH.
Qed.

Lemma insert_perm (x : Z * String.string) (l : list (Z * String.string)) :
  Permutation (x :: l) (Subject.insert x l).
Proof.
  induction l as [| y l IH]; simpl; [apply Permutation_refl |].
  destruct (Subject.tuple_lt y x); [| apply Permutation_refl].
  eapply perm_trans; [apply perm_swap |]. apply perm_skip. exact IH.
Qed.

Lemma sort_perm (l : list (Z * String.string)) : Permutation l (Subject.sort l).
Proof.
  induction l as [| x l IH]; simpl; [apply perm_nil |].
  eapply perm_trans; [apply perm_skip; exact IH |]. apply insert_perm.
Qed.

Lemma tuple_le_counts (a b : Z * String.string) : tuple_le a b -> fst a <= fst b.
Proof.
  unfold tuple_le, Subject.tuple_lt. intros H.
  apply orb_false_iff in H. destruct H as [H _]. apply Z.ltb_ge in H. exact H.
Qed.

Lemma sorted_counts (l : list (Z * String.string)) :
  Sorted tuple_le l -> Sorted Z.le (map fst l).
Proof.
  induction 1 as [| x l Hs IH Hhd]; simpl; constructor; [assumption |].
  destruct Hhd; simpl; constructor. apply tuple_le_counts. assumption.
Qed.

(** X1.  [Subject.Sort] puts the entries of a subject in ascending order of
    count (ties by name): afterwards [GetCounts] is non-decreasing, and the
    entries are the same as before, each as often. *)
Theorem Sort_orders_by_count (s : Subject.t) :
  sorted_subject (Subject.Sort s) /\
  Sorted Z.le (Subject.GetCounts (Subject.Sort s)) /\
  Permutation (Subject.species s) (Subject.species (Subject.Sort s)) /\
  Subject.code (Subject.Sort s) = Subject.code s.
Proof.
  unfold sorted_subject, Subject.GetCounts. destruct s as [c sp]. simpl.
  split; [apply sort_sorted |].
  split; [apply sorted_counts, sort_sorted |].
  split; [apply sort_perm | reflexivity].
Qed.

Lemma getitem_fields {A} (c sp field : A) (rest : list A) :
  Np.getitem (c :: sp :: field :: rest) 0 = Ok c /\
  Np.getitem (c :: sp :: field :: rest) 1 = Ok sp /\
  Np.getitem (c :: sp :: field :: rest) 2 = Ok field.
Proof.
  assert (H : forall i, 0 <= i < 3 ->
            Np.getitem (c :: sp :: field :: rest) i
            = Ok (nth (Z.to_nat i) (c :: sp :: field :: rest) c)).
  { intros i Hi. apply getitem_nth. unfold Np.len. simpl length. lia. }
  split; [| split].
  - apply (H 0). lia.
  - apply (H 1). lia.
  - apply (H 2). lia.
Qed.

Lemma getitem_short {A} (l : list A) (i : Z) :
  Np.len l <= i -> Np.getitem l i = Raise IndexError.
Proof.
  unfold Np.getitem, Np.len. intros H.
  destruct (Z.ltb_spec i 0); [lia |].
  destruct (Z.ltb_spec i 0); [lia |].
  destruct (Z.leb_spec (Z.of_nat (length l)) i); [| lia].
  reflexivity.
Qed.

Section ReadData_model.

Variable int : String.string -> result Z.

Lemma ReadData_row_ok (t : list String.string) (st : loader)
    (gs : list Subject.t * Subject.t) (r : String.string * (Z * String.string)) :
  loader_shape st gs -> parse_row int t = Some r ->
  exists st', ReadData_row int t st = Return st' /\ loader_shape st' (group_step gs r).
Proof.
  intros (Hh & Hs & Hss) Hp.
  destruct t as [| c [| sp [| field rest]]]; try discriminate.
  unfold parse_row in Hp. destruct (int field) as [count |] eqn:Hint; [| discriminate].
  inversion Hp; subst r; clear Hp.
  destruct (getitem_fields c sp field rest) as (G0 & G1 & G2).
  destruct gs as [pre cur]. simpl in Hh, Hs, Hss.
  unfold ReadData_row. rewrite G0. cbn [of_result obind]. rewrite G1, G2.
  cbn [of_result obind]. rewrite Hint. cbn [of_result obind].
  assert (Hd : deref (heap st) (subject st) = cur).
  { unfold deref. rewrite Hh, Hs. apply nth_middle. }
  rewrite Hd. unfold group_step. cbn [fst snd].
  destruct (String.eqb c (Subject.code cur)); cbn [negb].
  - eexists. split; [reflexivity |].
    unfold loader_shape. cbn [heap subject subjects fst snd].
    rewrite Hh, Hs, update_app. auto.
  - eexists. split; [reflexivity |].
    unfold loader_shape. cbn [heap subject subjects fst snd].
    rewrite Hh, Hs, update_app, update_app.
    split; [reflexivity |]. split; [reflexivity |].
    rewrite Hss, !length_app. simpl length.
    replace (length pre + 1)%nat with (S (length pre)) by lia.
    rewrite seq_S. reflexivity.
Qed.

Lemma ReadData_row_bad (t : list String.string) (st : loader) :
  parse_row int t = None -> exists e, ReadData_row int t st = Throw (Std e).
Proof.
  intros Hp. unfold ReadData_row.
  destruct t as [| c [| sp [| field rest]]].
  - exists IndexError. reflexivity.
  - exists IndexError.
    assert (G0 : Np.getitem [c] 0 = Ok c) by reflexivity.
    assert (G1 : Np.getitem [c] 1 = Raise IndexError) by reflexivity.
    rewrite G0. cbn [of_result obind]. rewrite G1. reflexivity.
  - exists IndexError.
    assert (G0 : Np.getitem [c; sp] 0 = Ok c) by reflexivity.
    assert (G1 : Np.getitem [c; sp] 1 = Ok sp) by reflexivity.
    assert (G2 : Np.getitem [c; sp] 2 = Raise IndexError) by reflexivity.
    rewrite G0. cbn [of_result obind]. rewrite G1. cbn [of_result obind].
    rewrite G2. reflexivity.
  - destruct (getitem_fields c sp field rest) as (G0 & G1 & G2).
    unfold parse_row in Hp. destruct (int field) as [count | e] eqn:Hint; [discriminate |].
    exists e. rewrite G0. cbn [of_result obind]. rewrite G1, G2.
    cbn [of_result obind]. rewrite Hint. reflexivity.
Qed.

(** The loop follows [group] as long as the rows can be parsed, and ends in
    an exception at the first row that cannot. *)
Lemma ReadData_loop_ok (rows : list (list String.string)) :
  forall (st : loader) (gs : list Subject.t * Subject.t)
         (rs : list (String.string * (Z * String.string))),
    loader_shape st gs ->
    Forall2 (fun t r => parse_row int t = Some r) rows rs ->
    exists st', ReadData_loop int rows st = Return st' /\ loader_shape st' (group rs gs).
Proof.
  induction rows as [| t rows IH]; intros st gs rs Hsh Hrs.
  - inversion Hrs; subst. exists st. split; [reflexivity | exact Hsh].
  - inversion Hrs as [| ? r ? rs' Hp Hrest]; subst.
    destruct (ReadData_row_ok t st gs r Hsh Hp) as (st1 & E1 & Hsh1).
    destruct (IH st1 (group_step gs r) rs' Hsh1 Hrest) as (st' & E' & Hsh').
    exists st'. split; [| exact Hsh'].
    cbn [ReadData_loop]. rewrite E1. exact E'.
Qed.

Lemma ReadData_loop_bad (rows : list (list String.string)) :
  forall (st : loader) (gs : list Subject.t * Subject.t),
    loader_shape st gs ->
    Exists (fun t => parse_row int t = None) rows ->
    exists e, ReadData_loop int rows st = Throw (Std e).
Proof.
  induction rows as [| t rows IH]; intros st gs Hsh Hex.
  - inversion Hex.
  - cbn [ReadData_loop].
    destruct (parse_row int t) as [r |] eqn:Hp.
    + destruct (ReadData_row_ok t st gs r Hsh Hp) as (st1 & E1 & Hsh1).
      rewrite E1. cbn [obind]. apply (IH st1 (group_step gs r) Hsh1).
      inversion Hex; subst; [congruence | assumption].
    + destruct (ReadData_row_bad t st Hp) as (e & E). exists e. rewrite E. reflexivity.
Qed.

Lemma parse_all (rows : list (list String.string)) :
  Forall (fun t => parse_row int t <> None) rows ->
  exists rs, Forall2 (fun t r => parse_row int t = Some r) rows rs.
Proof.
  induction 1 as [| t rows Ht _ IH].
  - exists []. constructor.
  - destruct IH as (rs & Hrs). destruct (parse_row int t) as [r |] eqn:E; [| congruence].
    exists (r :: rs). constructor; assumption.
Qed.

Lemma map_deref_tail (h : list Subject.t) (x : Subject.t) :
  map (deref (x :: h)) (seq 1%nat (length h)) = h.
Proof.
  revert x. induction h as [| y h IH]; intros x; [reflexivity |].
  cbn [length]. rewrite <- cons_seq. cbn [map]. f_equal.
  rewrite <- seq_shift, map_map.
  rewrite <- (IH y) at 2. apply map_ext. intros i. reflexivity.
Qed.

Lemma ReadData_parsed (header : list String.string) (rows : list (list String.string))
    (rs : list (String.string * (Z * String.string))) :
  Forall2 (fun t r => parse_row int t = Some r) rows rs ->
  ReadData int (header :: rows) = Return (subjects_of (group rs start)).
Proof.
  intros Hrs. unfold ReadData.
  assert (Hsh : loader_shape (mkLoader [Subject.init String.EmptyString] 0 []) start).
  { unfold loader_shape, start. simpl. auto. }
  destruct (ReadData_loop_ok rows _ _ rs Hsh Hrs) as (st' & E & (Hh & Hs & Hss)).
  rewrite E. cbn [obind]. f_equal. unfold subjects_of.
  rewrite Hh, Hss.
  destruct (fst (group rs start)) as [| x pre]; [reflexivity |].
  cbn [app tl length].
  rewrite <- (map_deref_tail (pre ++ [snd (group rs start)]) x) at 2.
  rewrite length_app. simpl length.
  replace (length pre + 1)%nat with (S (length pre)) by lia. reflexivity.
Qed.

End ReadData_model.

Section ReadData_properties.

Variable int : String.string -> result Z.

Lemma parse_or_not (rows : list (list String.string)) :
  Forall (fun t => parse_row int t <> None) rows \/
  Exists (fun t => parse_row int t = None) rows.
Proof.
  induction rows as [| t rows IH]; [left; constructor |].
  destruct (parse_row int t) as [r |] eqn:E.
  - destruct IH as [IH | IH].
    + left. constructor; [congruence | assumption].
    + right. apply Exists_cons_tl. assumption.
  - right. apply Exists_cons_hd. assumption.
Qed.

(** A call that returns has read a header and parsed every row. *)
Lemma ReadData_inv (rows : list (list String.string)) (subs : list Subject.t) :
  ReadData int rows = Return subs ->
  exists header rows' rs,
    rows = header :: rows' /\
    Forall2 (fun t r => parse_row int t = Some r) rows' rs /\
    subs = subjects_of (group rs start).
Proof.
  intros H. destruct rows as [| header rows']; [discriminate |].
  destruct (parse_or_not rows') as [Hall | Hex].
  - destruct (parse_all int rows' Hall) as (rs & Hrs).
    rewrite (ReadData_parsed int header rows' rs Hrs) in H.
    inversion H; subst. exists header, rows', rs. auto.
  - exfalso. unfold ReadData in H.
    assert (Hsh : loader_shape (mkLoader [Subject.init String.EmptyString] 0 []) start).
    { unfold loader_shape, start. simpl. auto. }
    destruct (ReadData_loop_bad int rows' _ _ Hsh Hex) as (e & E).
    rewrite E in H. discriminate.
Qed.

Lemma group_step_prefix (pre : list Subject.t) (cur : Subject.t)
    (r : String.string * (Z * String.string)) :
  group_step (pre, cur) r
  = (pre ++ fst (group_step ([], cur) r), snd (group_step ([], cur) r)).
Proof.
  unfold group_step. cbn [fst snd].
  destruct (String.eqb (fst r) (Subject.code cur)); cbn [fst snd app].
  - rewrite app_nil_r. reflexivity.
  - reflexivity.
Qed.

(** The closed subjects are never touched again. *)
Lemma group_prefix (rs : list (String.string * (Z * String.string))) :
  forall (pre : list Subject.t) (cur : Subject.t),
    group rs (pre, cur)
    = (pre ++ fst (group rs ([], cur)), snd (group rs ([], cur))).
Proof.
  induction rs as [| r rs IH]; intros pre cur.
  - cbn. rewrite app_nil_r. reflexivity.
  - unfold group. cbn [fold_left]. fold (group rs (group_step (pre, cur) r)).
    fold (group rs (group_step ([], cur) r)).
    rewrite group_step_prefix.
    destruct (group_step ([], cur) r) as [p1 c1]. cbn [fst snd].
    rewrite (IH (pre ++ p1) c1), (IH p1 c1). cbn [fst snd].
    rewrite app_assoc. reflexivity.
Qed.

Lemma group_sorted (rs : list (String.string * (Z * String.string))) :
  forall (gs : list Subject.t * Subject.t),
    Forall sorted_subject (fst gs) -> Forall sorted_subject (fst (group rs gs)).
Proof.
  induction rs as [| r rs IH]; intros gs Hs; [exact Hs |].
  unfold group. cbn [fold_left]. apply IH.
  unfold group_step. destruct (String.eqb _ _); cbn [fst]; [exact Hs |].
  apply Forall_app. split; [exact Hs |].
  constructor; [| constructor]. apply sort_sorted.
Qed.

Lemma removelast_subjects_of (gs : list Subject.t * Subject.t) :
  removelast (subjects_of gs) = tl (fst gs).
Proof.
  unfold subjects_of. destruct gs as [[| x pre] cur]; [reflexivity |].
  cbn [fst snd app tl]. apply removelast_last.
Qed.

End ReadData_properties.

(** X2.  Every subject that [ReadData] returns, except the last one, has its
    entries in ascending order of count: a subject is sorted when the next
    code is met, and nothing sorts the subject the file ends with. *)
Theorem ReadData_sorts_all_but_last (int : String.string -> result Z)
    (rows : list (list String.string)) (subs : list Subject.t) :
  ReadData int rows = Return subs ->
  Forall sorted_subject (removelast subs).
Proof.
  intros H.
  destruct (ReadData_inv int rows subs H) as (header & rows' & rs & _ & _ & Hsubs).
  subst subs. rewrite removelast_subjects_of.
  assert (Hs : Forall sorted_subject (fst (group rs start))).
  { apply group_sorted. constructor. }
  destruct (fst (group rs start)) as [| x pre]; [constructor |].
  inversion Hs; subst. assumption.
Qed.

Lemma ReadData_sorts_all_but_last_witness :
  ReadData digit_int example_rows
  = Return [Subject.mk "B1" [(2, "y"); (5, "x")];
            Subject.mk "B2" [(7, "z"); (3, "w")]]%string /\
  Forall sorted_subject [Subject.mk "B1" [(2, "y"); (5, "x")]]%string.
Proof.
  assert (H : ReadData digit_int example_rows
              = Return [Subject.mk "B1" [(2, "y"); (5, "x")];
                        Subject.mk "B2" [(7, "z"); (3, "w")]]%string)
    by reflexivity.
  split; [exact H |].
  exact (ReadData_sorts_all_but_last digit_int example_rows _ H).
Defined.

Section ReadData_groups.

Variable int : String.string -> result Z.

Lemma parse_code (t : list String.string) (r : String.string * (Z * String.string)) :
  parse_row int t = Some r -> row_code t = fst r.
Proof.
  destruct t as [| c [| sp [| field rest]]]; try discriminate.
  unfold parse_row. destruct (int field); [| discriminate].
  intros H. inversion H; subst. reflexivity.
Qed.

Lemma parsed_codes (rows : list (list String.string))
    (rs : list (String.string * (Z * String.string))) :
  Forall2 (fun t r => parse_row int t = Some r) rows rs ->
  map row_code rows = map fst rs.
Proof.
  induction 1 as [| t r rows rs Hp _ IH]; [reflexivity |].
  simpl. rewrite (parse_code t r Hp), IH. reflexivity.
Qed.

Lemma parsed_entries (rows : list (list String.string))
    (rs : list (String.string * (Z * String.string))) :
  Forall2 (fun t r => parse_row int t = Some r) rows rs ->
  entries int rows = map snd rs.
Proof.
  unfold entries. induction 1 as [| t r rows rs Hp _ IH]; [reflexivity |].
  simpl. rewrite Hp, IH. reflexivity.
Qed.

Lemma group_app (rs1 rs2 : list (String.string * (Z * String.string)))
    (gs : list Subject.t * Subject.t) :
  group (rs1 ++ rs2) gs = group rs2 (group rs1 gs).
Proof. unfold group. apply fold_left_app. Qed.

Lemma last_cons_default {A} (l : list A) :
  forall x d : A, last (x :: l) d = last l x.
Proof.
  induction l as [| y l IH]; intros x d; [reflexivity |].
  change (last (x :: y :: l) d) with (last (y :: l) d).
  rewrite (IH y d), (IH y x). reflexivity.
Qed.

Lemma group_code (rs : list (String.string * (Z * String.string))) :
  forall gs : list Subject.t * Subject.t,
    Subject.code (snd (group rs gs)) = last (map fst rs) (Subject.code (snd gs)).
Proof.
  induction rs as [| r rs IH]; intros gs; [reflexivity |].
  unfold group. cbn [fold_left]. fold (group rs (group_step gs r)).
  rewrite IH.
  assert (E : Subject.code (snd (group_step gs r)) = fst r).
  { unfold group_step. destruct (String.eqb_spec (fst r) (Subject.code (snd gs)));
      cbn [snd]; [symmetry; assumption | reflexivity]. }
  rewrite E. cbn [map]. symmetry. apply last_cons_default.
Qed.

Lemma group_same_code (rs : list (String.string * (Z * String.string))) :
  forall (pre : list Subject.t) (cur : Subject.t),
    Forall (fun r => fst r = Subject.code cur) rs ->
    group rs (pre, cur)
    = (pre, Subject.mk (Subject.code cur) (Subject.species cur ++ map snd rs)).
Proof.
  induction rs as [| r rs IH]; intros pre cur Hall.
  - cbn. rewrite app_nil_r. destruct cur; reflexivity.
  - inversion Hall as [| ? ? Hr Hrs]; subst.
    unfold group. cbn [fold_left]. fold (group rs (group_step (pre, cur) r)).
    unfold group_step. cbn [fst snd]. rewrite Hr, String.eqb_refl.
    rewrite IH; [| exact Hrs].
    unfold Subject.Add. cbn [Subject.code Subject.species map].
    destruct r as [c [z sp]]. cbn [fst snd].
    rewrite <- app_assoc. reflexivity.
Qed.

Lemma group_new_run (rs : list (String.string * (Z * String.string)))
    (c : String.string) (pre : list Subject.t) (cur : Subject.t) :
  rs <> [] -> Forall (fun r => fst r = c) rs -> Subject.code cur <> c ->
  group rs (pre, cur) = (pre ++ [Subject.Sort cur], Subject.mk c (map snd rs)).
Proof.
  intros Hne Hall Hc. destruct rs as [| r rs]; [congruence |].
  inversion Hall as [| ? ? Hr Hrs]; subst.
  unfold group. cbn [fold_left]. fold (group rs (group_step (pre, cur) r)).
  unfold group_step. cbn [fst snd].
  destruct (String.eqb_spec (fst r) (Subject.code cur)) as [E | _]; [congruence |].
  rewrite group_same_code; [| exact Hrs].
  destruct r as [c' [z sp]]. reflexivity.
Qed.

Lemma last_subjects_of (pre : list Subject.t) (x cur d : Subject.t) :
  last (subjects_of (pre ++ [x], cur)) d = cur.
Proof.
  unfold subjects_of. cbn [fst snd].
  destruct pre as [| y pre]; [reflexivity |].
  cbn [app tl]. apply last_last.
Qed.

Lemma snoc_differ (l : list String.string) (a b : String.string) :
  neighbours_differ (l ++ [a]) -> a <> b -> neighbours_differ ((l ++ [a]) ++ [b]).
Proof.
  unfold neighbours_differ. induction l as [| x l IH]; intros Hs Hab.
  - simpl. constructor; [constructor; constructor | constructor; assumption].
  - simpl in *. inversion Hs as [| ? ? Hl Hhd]; subst.
    constructor; [apply IH; assumption |].
    destruct l as [| y l]; simpl in *; inversion Hhd; subst; constructor; assumption.
Qed.

Lemma sort_nonempty (l : list (Z * String.string)) : l <> [] -> Subject.sort l <> [].
Proof.
  intros Hl E. apply Hl. apply Permutation_nil. rewrite <- E. apply Permutation_sym, sort_perm.
Qed.

Lemma group_step_runs (gs : list Subject.t * Subject.t)
    (r : String.string * (Z * String.string)) :
  runs_ok gs -> runs_ok (group_step gs r).
Proof.
  destruct gs as [pre cur]. intros (N1 & N2 & N3 & N4).
  unfold runs_ok, group_step in *. cbn [fst snd] in *.
  destruct (String.eqb_spec (fst r) (Subject.code cur)) as [E | E]; cbn [fst snd].
  - split; [exact N1 |]. split; [exact N2 |].
    split.
    + intros _. unfold Subject.Add. cbn [Subject.species].
      intros H. apply app_eq_nil in H. destruct H; discriminate.
    + destruct pre; [exact N4 | exact N4].
  - split.
    { rewrite map_app. cbn [map]. apply snoc_differ; [exact N1 |].
      intros H. apply E. symmetry. exact H. }
    split.
    { destruct pre as [| x pre]; [constructor |].
      cbn [app tl] in *. apply Forall_app. split; [exact N2 |].
      constructor; [| constructor]. cbn [Subject.Sort Subject.species].
      apply sort_nonempty. apply N3. discriminate. }
    split.
    { intros _. unfold Subject.Add. cbn [Subject.species Subject.init app]. discriminate. }
    destruct pre; exact N4.
Qed.

Lemma group_runs (rs : list (String.string * (Z * String.string))) :
  forall gs : list Subject.t * Subject.t, runs_ok gs -> runs_ok (group rs gs).
Proof.
  induction rs as [| r rs IH]; intros gs H; [exact H |].
  unfold group. cbn [fold_left]. apply IH. apply group_step_runs. exact H.
Qed.

Lemma flat_map_snoc (pre : list Subject.t) (c : Subject.t) :
  flat_map Subject.species (pre ++ [c])
  = flat_map Subject.species pre ++ Subject.species c.
Proof. rewrite flat_map_app. cbn [flat_map]. rewrite app_nil_r. reflexivity. Qed.

Lemma group_entries (rs : list (String.string * (Z * String.string))) :
  forall gs : list Subject.t * Subject.t,
    Permutation (flat_map Subject.species (fst (group rs gs) ++ [snd (group rs gs)]))
                (flat_map Subject.species (fst gs ++ [snd gs]) ++ map snd rs).
Proof.
  induction rs as [| r rs IH]; intros gs.
  - cbn [group fold_left map]. rewrite app_nil_r. apply Permutation_refl.
  - unfold group. cbn [fold_left]. fold (group rs (group_step gs r)).
    eapply perm_trans; [apply IH |].
    cbn [map].
    replace (flat_map Subject.species (fst gs ++ [snd gs]) ++ snd r :: map snd rs)
      with ((flat_map Subject.species (fst gs ++ [snd gs]) ++ [snd r]) ++ map snd rs)
      by (rewrite <- app_assoc; reflexivity).
    apply Permutation_app_tail.
    destruct gs as [pre cur]. destruct r as [c [z sp]].
    unfold group_step. cbn [fst snd].
    destruct (String.eqb c (Subject.code cur)); cbn [fst snd];
      rewrite !flat_map_snoc; cbn [Subject.Add Subject.Sort Subject.species Subject.init app].
    + rewrite app_assoc. apply Permutation_refl.
    + apply Permutation_app_tail. apply Permutation_app_head.
      apply Permutation_sym, sort_perm.
Qed.

End ReadData_groups.

(** X3.  The subject the file ends with is returned unsorted: its entries
    are the [(count, species)] pairs of the last run of rows with one code, in
    the order of the file. *)
Theorem ReadData_last_subject_in_file_order (int : String.string -> result Z)
    (header : list String.string) (pre post : list (list String.string))
    (c : String.string) (subs : list Subject.t) :
  ReadData int (header :: pre ++ post) = Return subs ->
  post <> [] ->
  Forall (fun t => row_code t = c) post ->
  last (map row_code pre) String.EmptyString <> c ->
  last subs (Subject.init String.EmptyString) = Subject.mk c (entries int post).
Proof.
  intros H Hne Hpost Hc.
  destruct (ReadData_inv int _ subs H) as (header' & rows' & rs & E & Hrs & Hsubs).
  inversion E; subst header' rows'; clear E.
  apply Forall2_app_inv_l in Hrs. destruct Hrs as (rs1 & rs2 & H1 & H2 & Ers). subst rs.
  rewrite (parsed_entries int post rs2 H2).
  rewrite (parsed_codes int pre rs1 H1) in Hc.
  assert (Hcodes : Forall (fun r => fst r = c) rs2).
  { assert (Hm : map row_code post = map fst rs2) by (apply (parsed_codes int); exact H2).
    apply Forall_forall. intros r Hr.
    assert (Hin : In (fst r) (map row_code post)) by (rewrite Hm; apply in_map; exact Hr).
    apply in_map_iff in Hin. destruct Hin as (t & Et & Ht).
    rewrite Forall_forall in Hpost. rewrite <- Et. apply Hpost. exact Ht. }
  assert (Hne2 : rs2 <> []).
  { intros E. subst rs2. inversion H2; subst. congruence. }
  subst subs. rewrite group_app.
  destruct (group rs1 start) as [p1 c1] eqn:E1.
  assert (Hc1 : Subject.code c1 <> c).
  { assert (G := group_code rs1 start). rewrite E1 in G. cbn [snd] in G.
    rewrite G. exact Hc. }
  rewrite (group_new_run rs2 c p1 c1 Hne2 Hcodes Hc1).
  apply last_subjects_of.
Qed.

Lemma ReadData_last_subject_in_file_order_witness :
  last [Subject.mk "B1" [(2, "y"); (5, "x")];
        Subject.mk "B2" [(7, "z"); (3, "w")]]%string
       (Subject.init String.EmptyString)
  = Subject.mk "B2"%string
      (entries digit_int [["B2"; "z"; "7"]; ["B2"; "w"; "3"]]%string).
Proof.
  apply (ReadData_last_subject_in_file_order digit_int
           ["code"; "species"; "count"]%string
           [["B1"; "x"; "5"]; ["B1"; "y"; "2"]]%string
           [["B2"; "z"; "7"]; ["B2"; "w"; "3"]]%string
           "B2"%string).
  - reflexivity.
  - discriminate.
  - repeat constructor.
  - simpl. discriminate.
Defined.

(** X4.  [ReadData] groups the rows by runs of equal codes: neighbouring
    subjects of the result have different codes, the first one does not have
    the empty code, and every subject has at least one entry. *)
Theorem ReadData_groups_runs (int : String.string -> result Z)
    (rows : list (list String.string)) (subs : list Subject.t) :
  ReadData int rows = Return subs ->
  neighbours_differ (String.EmptyString :: map Subject.code subs) /\
  Forall (fun s => Subject.species s <> []) subs.
Proof.
  intros H.
  destruct (ReadData_inv int rows subs H) as (header & rows' & rs & _ & _ & Hsubs).
  assert (R : runs_ok (group rs start)).
  { apply group_runs. unfold runs_ok, start, neighbours_differ. cbn.
    split; [repeat constructor |]. split; [constructor |].
    split; [congruence | reflexivity]. }
  subst subs. unfold subjects_of.
  destruct (group rs start) as [pre cur]. destruct R as (N1 & N2 & N3 & N4).
  cbn [fst snd] in *. destruct pre as [| x pre].
  - cbn. split; [repeat constructor | constructor].
  - cbn [app tl hd map] in *. split.
    + rewrite <- N4. rewrite map_app. exact N1.
    + apply Forall_app. split; [exact N2 |].
      constructor; [| constructor]. apply N3. discriminate.
Qed.

Lemma ReadData_groups_runs_witness :
  neighbours_differ
    (String.EmptyString ::
     map Subject.code [Subject.mk "B1" [(2, "y"); (5, "x")];
                       Subject.mk "B2" [(7, "z"); (3, "w")]]%string) /\
  Forall (fun s => Subject.species s <> [])
         [Subject.mk "B1" [(2, "y"); (5, "x")];
          Subject.mk "B2" [(7, "z"); (3, "w")]]%string.
Proof.
  apply (ReadData_groups_runs digit_int example_rows). reflexivity.
Defined.

(** X5.  No row is lost and none is counted twice: when the first row does
    not have the empty code, the entries of the returned subjects, taken
    together, are the [(count, species)] pairs of the rows, each as often. *)
Theorem ReadData_keeps_every_row (int : String.string -> result Z)
    (header : list String.string) (rows : list (list String.string))
    (subs : list Subject.t) :
  ReadData int (header :: rows) = Return subs ->
  (forall t, hd_error rows = Some t -> row_code t <> String.EmptyString) ->
  Permutation (flat_map Subject.species subs) (entries int rows).
Proof.
  intros H Hfirst.
  destruct (ReadData_inv int _ subs H) as (header' & rows' & rs & E & Hrs & Hsubs).
  inversion E; subst header' rows'; clear E.
  rewrite (parsed_entries int rows rs Hrs).
  assert (P := group_entries rs start).
  assert (Hhead : exists d, fst (group rs start) ++ [snd (group rs start)]
                            = d :: subjects_of (group rs start) /\
                            Subject.species d = []).
  { destruct rs as [| r rs'].
    - exists (Subject.init String.EmptyString). split; reflexivity.
    - destruct rows as [| t rows']; [inversion Hrs |].
      inversion Hrs as [| ? ? ? ? Hp _]; subst.
      assert (Hr : fst r <> String.EmptyString).
      { rewrite <- (parse_code int t r Hp). apply Hfirst. reflexivity. }
      unfold group. cbn [fold_left]. fold (group rs' (group_step start r)).
      unfold group_step, start. cbn [fst snd Subject.init Subject.code].
      destruct (String.eqb_spec (fst r) String.EmptyString) as [E | _]; [congruence |].
      rewrite group_prefix. cbn [fst snd app].
      eexists. split; [reflexivity |]. reflexivity. }
  destruct Hhead as (d & Ed & Hd).
  rewrite Ed in P. cbn [flat_map] in P. rewrite Hd in P.
  cbn [app start fst snd flat_map Subject.init Subject.species] in P.
  subst subs. exact P.
Qed.

Lemma ReadData_keeps_every_row_witness :
  Permutation
    (flat_map Subject.species [Subject.mk "B1" [(2, "y"); (5, "x")];
                               Subject.mk "B2" [(7, "z"); (3, "w")]]%string)
    (entries digit_int (tl example_rows)).
Proof.
  apply (ReadData_keeps_every_row digit_int ["code"; "species"; "count"]%string).
  - reflexivity.
  - intros t Ht. inversion Ht; subst. discriminate.
Defined.

Lemma subjects_of_current (rs : list (String.string * (Z * String.string))) :
  forall cur cur' : Subject.t,
    Subject.code cur = Subject.code cur' ->
    subjects_of (group rs ([], cur)) = subjects_of (group rs ([], cur')).
Proof.
  induction rs as [| r rs IH]; intros cur cur' Hc; [reflexivity |].
  unfold group. cbn [fold_left].
  fold (group rs (group_step ([], cur) r)). fold (group rs (group_step ([], cur') r)).
  unfold group_step. cbn [fst snd]. rewrite <- Hc.
  destruct (String.eqb (fst r) (Subject.code cur)).
  - apply IH. unfold Subject.Add. cbn [Subject.code]. exact Hc.
  - cbn [app]. rewrite (group_prefix rs [Subject.Sort cur]).
    rewrite (group_prefix rs [Subject.Sort cur']). reflexivity.
Qed.

(** X6.  Rows at the head of the file whose code is empty are dropped
    without notice: they go to the subject that [ReadData] starts with, which
    is in no list. *)
Theorem ReadData_drops_leading_rows_without_code (int : String.string -> result Z)
    (header : list String.string) (pre rest : list (list String.string))
    (subs : list Subject.t) :
  Forall (fun t => row_code t = String.EmptyString /\ parse_row int t <> None) pre ->
  ReadData int (header :: rest) = Return subs ->
  ReadData int (header :: pre ++ rest) = Return subs.
Proof.
  intros Hpre H.
  destruct (ReadData_inv int _ subs H) as (header' & rows' & rs2 & E & H2 & Hsubs).
  inversion E; subst header' rows'; clear E.
  assert (Hp : Forall (fun t => parse_row int t <> None) pre).
  { eapply Forall_impl; [| exact Hpre]. intros t [_ Ht]. exact Ht. }
  destruct (parse_all int pre Hp) as (rs1 & H1).
  rewrite (ReadData_parsed int header (pre ++ rest) (rs1 ++ rs2)
             (Forall2_app H1 H2)).
  f_equal. subst subs. rewrite group_app.
  assert (Hcodes : Forall (fun r => fst r = String.EmptyString) rs1).
  { assert (Hm : map row_code pre = map fst rs1) by (apply (parsed_codes int); exact H1).
    apply Forall_forall. intros r Hr.
    assert (Hin : In (fst r) (map row_code pre)) by (rewrite Hm; apply in_map; exact Hr).
    apply in_map_iff in Hin. destruct Hin as (t & Et & Ht).
    rewrite Forall_forall in Hpre. rewrite <- Et. apply (Hpre t Ht). }
  unfold start at 1.
  rewrite (group_same_code rs1 [] (Subject.init String.EmptyString) Hcodes).
  apply subjects_of_current. reflexivity.
Qed.

Lemma ReadData_drops_leading_rows_without_code_witness :
  ReadData digit_int
    (["code"; "species"; "count"] :: [[String.EmptyString; "u"; "9"]] ++ tl example_rows)%string
  = Return [Subject.mk "B1" [(2, "y"); (5, "x")];
            Subject.mk "B2" [(7, "z"); (3, "w")]]%string.
Proof.
  apply (ReadData_drops_leading_rows_without_code digit_int).
  - constructor; [| constructor]. split; [reflexivity | discriminate].
  - reflexivity.
Defined.

(** X7.  [ReadData] ends in [StopIteration] when there is no header line,
    returns no subject when there is nothing but the header, and otherwise
    returns exactly when every row has three fields, the third of which
    [int] accepts; the header itself is never looked at. *)
Theorem ReadData_returns_iff_rows_parse (int : String.string -> result Z) :
  ReadData int [] = Throw StopIteration /\
  (forall header, ReadData int [header] = Return []) /\
  (forall header rows,
      (exists subs, ReadData int (header :: rows) = Return subs) <->
      Forall (fun t => parse_row int t <> None) rows).
Proof.
  split; [reflexivity |]. split; [reflexivity |].
  intros header rows. split.
  - intros (subs & H).
    destruct (ReadData_inv int _ subs H) as (header' & rows' & rs & E & Hrs & _).
    inversion E; subst header' rows'; clear E.
    clear H. induction Hrs as [| t r rows rs Hp _ IH].
    + constructor.
    + constructor; [congruence | exact IH].
  - intros Hall. destruct (parse_all int rows Hall) as (rs & Hrs).
    exists (subjects_of (group rs start)). apply ReadData_parsed. exact Hrs.
Qed.

Lemma group_closed_count (rs : list (String.string * (Z * String.string))) :
  forall (pre : list Subject.t) (cur : Subject.t),
    length (fst (group rs (pre, cur)))
    = (length pre + code_changes (Subject.code cur) (map fst rs))%nat.
Proof.
  induction rs as [| r rs IH]; intros pre cur.
  - cbn. lia.
  - unfold group. cbn [fold_left]. fold (group rs (group_step (pre, cur) r)).
    unfold group_step. cbn [fst snd map code_changes].
    destruct (String.eqb_spec (fst r) (Subject.code cur)) as [E | E].
    + rewrite IH. unfold Subject.Add. cbn [Subject.code]. rewrite E. lia.
    + rewrite IH. unfold Subject.Add. cbn [Subject.code Subject.init].
      rewrite length_app. simpl length. lia.
Qed.

(** X8.  [ReadData] starts a subject at every row whose code differs from
    the code of the row before it (the empty code before the first row), so
    a code that comes back later in the file gives a second subject: the
    number of subjects returned is the number of such rows. *)
Theorem ReadData_starts_subject_at_code_change (int : String.string -> result Z)
    (header : list String.string) (rows : list (list String.string))
    (subs : list Subject.t) :
  ReadData int (header :: rows) = Return subs ->
  length subs = code_changes String.EmptyString (map row_code rows).
Proof.
  intros H.
  destruct (ReadData_inv int _ subs H) as (header' & rows' & rs & E & Hrs & Hsubs).
  inversion E; subst header' rows'; clear E.
  rewrite (parsed_codes int rows rs Hrs). subst subs.
  pose proof (group_closed_count rs [] (Subject.init String.EmptyString)) as Hc.
  fold start in Hc. cbn [length Nat.add Subject.init Subject.code] in Hc.
  unfold subjects_of.
  destruct (fst (group rs start)) as [| x pre]; cbn [app tl length] in *.
  - exact Hc.
  - rewrite length_app. simpl length. lia.
Qed.

Lemma ReadData_starts_subject_at_code_change_witness :
  length [Subject.mk "B1" [(5, "x")]; Subject.mk "B2" [(7, "z")]; Subject.mk "B1" [(2, "y")]]%string
  = code_changes String.EmptyString
      (map row_code [["B1"; "x"; "5"]; ["B2"; "z"; "7"]; ["B1"; "y"; "2"]]%string).
Proof.
  apply (ReadData_starts_subject_at_code_change digit_int ["code"; "species"; "count"]%string).
  reflexivity.
Defined.

(** ** OffsetCurve and PlotCurves *)

Lemma offset_eq (d : R) (i n : Z) :
  n - 1 <> 0 -> offset (Fin d) i n = Return (Fin (offset_val d i n)).
Proof.
  intros Hn. unfold offset, offset_val.
  destruct (Z.eqb_spec (n - 1) 0) as [E | _]; [contradiction |].
  f_equal. unfold of_int. cbn [fmul fneg fdiv fadd].
  assert (Hz : IZR (n - 1) <> 0%R) by (apply not_0_IZR; exact Hn).
  unfold Rsgn. destruct (total_order_T 0 (IZR (n - 1))) as [[H | H] | H].
  - reflexivity.
  - exfalso. apply Hz. symmetry. exact H.
  - reflexivity.
Qed.

Lemma offset_val_bounds (d : R) (i n : Z) :
  (0 <= d)%R -> 2 <= n -> 0 <= i <= n - 1 ->
  (- d <= offset_val d i n <= d)%R.
Proof.
  intros Hd Hn Hi. unfold offset_val.
  assert (Hp : (0 < IZR (n - 1))%R) by (apply IZR_lt; lia).
  assert (H0 : (0 <= IZR i)%R) by (apply IZR_le; lia).
  assert (H1 : (IZR i <= IZR (n - 1))%R) by (apply IZR_le; lia).
  assert (Hq : (0 <= IZR i / IZR (n - 1) <= 1)%R).
  { split.
    - apply Rmult_le_pos; [exact H0 |]. left. apply Rinv_0_lt_compat. exact Hp.
    - apply (Rmult_le_reg_r (IZR (n - 1))); [exact Hp |].
      unfold Rdiv. rewrite Rmult_assoc, Rinv_l; lra. }
  replace (2 * d * IZR i / IZR (n - 1))%R with (2 * d * (IZR i / IZR (n - 1)))%R
    by (unfold Rdiv; ring).
  nra.
Qed.

Lemma offset_val_first (d : R) (n : Z) : offset_val d 0 n = (- d)%R.
Proof. unfold offset_val, Rdiv. rewrite Rmult_0_r, Rmult_0_l. ring. Qed.

Lemma offset_val_last (d : R) (n : Z) : n - 1 <> 0 -> offset_val d (n - 1) n = d.
Proof.
  intros Hn. unfold offset_val.
  assert (Hz : IZR (n - 1) <> 0%R) by (apply not_0_IZR; exact Hn).
  field. exact Hz.
Qed.

(** X9.  With at least two curves, [OffsetCurve] moves curve [i] of [n] by an
    offset between [-dx] and [dx] (and [-dy] and [dy]): the first curve by
    [(-dx, -dy)], the last by [(dx, dy)]; every point is moved by the same
    amount. *)
Theorem OffsetCurve_spreads_curves (c : curve) (i n : Z) (dx dy : R) :
  2 <= n -> 0 <= i <= n - 1 -> (0 <= dx)%R -> (0 <= dy)%R ->
  OffsetCurve c i n (Fin dx) (Fin dy)
  = Return (shifted c (offset_val dx i n) (offset_val dy i n)) /\
  (- dx <= offset_val dx i n <= dx)%R /\
  (- dy <= offset_val dy i n <= dy)%R /\
  (i = 0 -> offset_val dx i n = (- dx)%R /\ offset_val dy i n = (- dy)%R) /\
  (i = n - 1 -> offset_val dx i n = dx /\ offset_val dy i n = dy).
Proof.
  intros Hn Hi Hdx Hdy.
  assert (Hn1 : n - 1 <> 0) by lia.
  split.
  { unfold OffsetCurve. rewrite !offset_eq by exact Hn1. reflexivity. }
  split; [apply offset_val_bounds; assumption |].
  split; [apply offset_val_bounds; assumption |].
  split.
  - intros E. subst i. split; apply offset_val_first.
  - intros E. subst i. split; apply offset_val_last; exact Hn1.
Qed.

Lemma OffsetCurve_spreads_curves_witness :
  OffsetCurve [(Fin 1, Fin 2)] 1 3 (Fin (3 / 10)) (Fin (3 / 10))
  = Return (shifted [(Fin 1%R, Fin 2%R)] (offset_val (3 / 10) 1 3) (offset_val (3 / 10) 1 3)) /\
  (- (3 / 10) <= offset_val (3 / 10) 1 3 <= 3 / 10)%R /\
  (- (3 / 10) <= offset_val (3 / 10) 1 3 <= 3 / 10)%R /\
  (1 = 0 -> offset_val (3 / 10) 1 3 = (- (3 / 10))%R /\
            offset_val (3 / 10) 1 3 = (- (3 / 10))%R) /\
  (1 = 3 - 1 -> offset_val (3 / 10) 1 3 = (3 / 10)%R /\
                offset_val (3 / 10) 1 3 = (3 / 10)%R).
Proof.
  apply (OffsetCurve_spreads_curves [(Fin 1%R, Fin 2%R)] 1 3 (3 / 10) (3 / 10)); lia || lra.
Defined.

Lemma PlotCurves_loop_no_division_error (n : Z) (curves : list curve) :
  n - 1 <> 0 -> forall i, PlotCurves_loop n i curves <> Throw ZeroDivisionError.
Proof.
  intros Hn. induction curves as [| c curves IH]; intros i; [discriminate |].
  cbn [PlotCurves_loop]. unfold OffsetCurve.
  rewrite !offset_eq by exact Hn. cbn [obind].
  destruct (unzip_curve _) as [xsys | e]; cbn [of_result obind]; [| discriminate].
  specialize (IH (i + 1)).
  destruct (PlotCurves_loop n (i + 1) curves) as [rest | e]; cbn [obind];
    [discriminate | exact IH].
Qed.

(** X10.  [PlotCurves] ends in [ZeroDivisionError] exactly when it is given
    one curve: the offsets divide by the number of curves less one. *)
Theorem PlotCurves_fails_on_single_curve (curves : list curve) :
  PlotCurves curves = Throw ZeroDivisionError <-> length curves = 1%nat.
Proof.
  unfold PlotCurves. split.
  - intros H. destruct (Nat.eq_dec (length curves) 1) as [E | E]; [exact E |].
    exfalso. revert H. apply PlotCurves_loop_no_division_error.
    unfold Np.len. lia.
  - intros H. destruct curves as [| c [| c' curves]]; try discriminate.
    reflexivity.
Qed.

(** ** OversampledDirichlet: the conditionals and Random *)

(** X11.  [MakeConditionals] builds the stick-breaking conditionals: for
    every coordinate [i] but the last, a Beta distribution whose first
    parameter is [params[i]] and whose second is the sum of the parameters
    after [i]. *)
Theorem MakeConditionals_stick_breaking (params : list Z) :
  OversampledDirichlet.MakeConditionals params
  = map (fun i => thinkbayes.mkBeta (nth i params 0) (sum_from (S i) params))
        (seq 0%nat (length params - 1)).
Proof.
  unfold OversampledDirichlet.MakeConditionals, Np.take, Np.bound, Np.len.
  change (-1 <? 0) with true. cbv iota.
  replace (Z.to_nat (Z.of_nat (length params) + -1)) with (length params - 1)%nat by lia.
  rewrite (MakeConditionals_loop_spec (firstn (length params - 1) params)
             (skipn (length params - 1) params)).
  - rewrite firstn_skipn, length_firstn.
    replace (Init.Nat.min (length params - 1) (length params)) with (length params - 1)%nat
      by lia.
    reflexivity.
  - rewrite firstn_skipn. reflexivity.
Qed.

Section Random_properties.

Context {TB : thinkbayes.Absent}.

Lemma zip3_length_le {A B C} (xs : list A) (ys : list B) (zs : list C) :
  (length (OversampledDirichlet.zip3 xs ys zs) <= length xs)%nat.
Proof.
  revert ys zs. induction xs as [| x xs IH]; intros ys zs; [simpl; lia |].
  destruct ys as [| y ys]; [simpl; lia |]. destruct zs as [| z zs]; [simpl; lia |].
  simpl. specialize (IH ys zs). lia.
Qed.

(** After [Peek] the conditionals are cumulative distributions, one for
    every coordinate but the last. *)
Lemma Peek_conditionals (self self' : OversampledDirichlet.t) (data : list Z) :
  OversampledDirichlet.Peek self data = Ok self' ->
  OversampledDirichlet.base self' = OversampledDirichlet.base self /\
  exists cs,
    OversampledDirichlet.conditionals self' = Some (OversampledDirichlet.Cdfs cs) /\
    length cs = (length (thinkbayes.params (OversampledDirichlet.base self)) - 1)%nat.
Proof.
  unfold OversampledDirichlet.Peek, OversampledDirichlet.TrimMarginals.
  cbn [OversampledDirichlet.base OversampledDirichlet.conditionals
       OversampledDirichlet.weight].
  destruct (Np.inplace Z.add _ data) as [head |]; [| discriminate].
  cbn [rbind].
  destruct (OversampledDirichlet.bounds _) as [lows highs].
  intros E. inversion E; subst self'; clear E.
  cbn [OversampledDirichlet.base OversampledDirichlet.conditionals].
  split; [reflexivity |]. eexists. split; [reflexivity |].
  rewrite length_map, length_app, !length_map, length_skipn.
  pose proof (zip3_length_le
                (map thinkbayes.MakePmf
                     (OversampledDirichlet.MakeConditionals
                        (thinkbayes.params (OversampledDirichlet.base self))))
                lows highs) as Hle.
  rewrite prior_tables_length in *. lia.
Qed.

Lemma Rsum_app (l1 l2 : list R) : Rsum (l1 ++ l2) = (Rsum l1 + Rsum l2)%R.
Proof. induction l1 as [| x l1 IH]; simpl; [lra | rewrite IH; lra]. Qed.

Lemma Rsum_zeros (k : nat) : Rsum (map toR (repeat (Fin 0%R) k)) = 0%R.
Proof. induction k as [| k IH]; simpl; [reflexivity | rewrite IH; lra]. Qed.

(** The loop of [Random]: the slots filled so far and the fraction that is
    left always add up to the same. *)
Lemma Random_loop (cs : list thinkbayes.Cdf) :
  forall (filled : list double) (k : nat) (f : R) (g : rng),
    finite_draws thinkbayes.Cdf_Random -> (length cs <= k)%nat ->
    exists filled' f' g',
      for_enum OversampledDirichlet.Random_step (Np.len filled)
               (map thinkbayes.Cdf_Random cs)
               (filled ++ repeat (Fin 0%R) k, Fin f) g
      = Ok ((filled ++ filled' ++ repeat (Fin 0%R) (k - length cs), Fin f'), g') /\
      length filled' = length cs /\
      Forall finite filled' /\
      (Rsum (map toR filled') + f' = f)%R /\
      (unit_draws thinkbayes.Cdf_Random -> (0 <= f <= 1)%R ->
       Forall probability filled' /\ (0 <= f' <= 1)%R).
Proof.
  induction cs as [| c cs IH]; intros filled k f g Hfin Hk.
  - exists [], f, g. cbn [map for_enum length app]. rewrite Nat.sub_0_r.
    split; [reflexivity |]. split; [reflexivity |]. split; [constructor |].
    split; [simpl; lra |]. intros _ Hf. split; [constructor | exact Hf].
  - cbn [length] in Hk. destruct k as [| k]; [lia |].
    destruct (Hfin c g) as (p & g1 & Ep).
    destruct (IH (filled ++ [Fin (p * f)%R]) k (f * (1 + - p))%R g1 Hfin ltac:(lia))
      as (filled1 & f1 & g2 & E1 & Hlen & Hf1 & Hsum & Hunit).
    exists (Fin (p * f)%R :: filled1), f1, g2.
    split.
    { cbn [map for_enum]. unfold bind at 1. unfold OversampledDirichlet.Random_step at 1.
      unfold bind at 1. rewrite Ep. cbn [fst snd fmul].
      cbn [repeat]. unfold bind at 1, lift at 1.
      rewrite setitem_upd_app. unfold ret at 1. cbn [fsub fneg fadd fmul].
      rewrite len_app_one in E1.
      replace (filled ++ Fin (p * f)%R :: repeat (Fin 0%R) k)
        with ((filled ++ [Fin (p * f)%R]) ++ repeat (Fin 0%R) k)
        by (rewrite <- app_assoc; reflexivity).
      rewrite E1. cbn [length Nat.sub]. rewrite <- app_assoc. reflexivity. }
    split; [cbn [length]; lia |].
    split; [constructor; [exact I | exact Hf1] |].
    split; [cbn [map Rsum fold_right toR]; unfold Rsum in Hsum; lra |].
    intros Hu Hf.
    assert (Hp : (0 <= p <= 1)%R) by (apply (Hu c g p g1 Ep)).
    destruct (Hunit Hu) as [Hall Hf1']; [nra |].
    split; [| exact Hf1'].
    constructor; [cbn [probability]; nra | exact Hall].
Qed.

(** X12.  On a model of [n >= 1] coordinates on which [Peek] has returned,
    [Random] returns [n] numbers that sum to one, whatever numbers the
    conditional distributions hand out; they are probabilities when the
    numbers drawn are. *)
Theorem Random_is_normalized (n : Z) (data : list Z) (g : rng) :
  1 <= n -> Np.len data <= n -> finite_draws thinkbayes.Cdf_Random ->
  exists d d' ps g',
    OversampledDirichlet.init n = Ok d /\
    OversampledDirichlet.Peek d data = Ok d' /\
    OversampledDirichlet.Random d' g = Ok (ps, g') /\
    Np.len ps = n /\
    Np.sum ps = Fin 1%R /\
    (unit_draws thinkbayes.Cdf_Random -> Forall probability ps).
Proof.
  intros Hn Hdata Hfin.
  assert (Hlen : Np.len (thinkbayes.params (OversampledDirichlet.base (fresh_model n))) = n).
  { unfold fresh_model, Np.len. cbn. rewrite repeat_length. lia. }
  destruct (Peek_ok (fresh_model n) data) as (w & cs & Hpeek).
  { rewrite Hlen. exact Hdata. }
  destruct (Peek_conditionals _ _ _ Hpeek) as (_ & l & Hl & Hll).
  cbn [OversampledDirichlet.conditionals] in Hl. inversion Hl; subst cs; clear Hl.
  assert (Hll' : length l = (Z.to_nat n - 1)%nat).
  { rewrite Hll. unfold Np.len in Hlen. lia. }
  destruct (Random_loop l [] (Z.to_nat n) 1 g Hfin ltac:(lia))
    as (filled & f & g' & Eloop & Hlf & Hff & Hsum & Hunit).
  cbn [app] in Eloop. change (Np.len []) with 0 in Eloop.
  replace (Z.to_nat n - length l)%nat with 1%nat in Eloop by lia.
  exists (fresh_model n). eexists. exists (filled ++ [Fin f]), g'.
  split; [apply Oversampled_init_ok; lia |].
  split; [exact Hpeek |].
  split.
  { unfold OversampledDirichlet.Random.
    cbn [OversampledDirichlet.base OversampledDirichlet.conditionals thinkbayes.n
         fresh_model].
    unfold Np.full. destruct (Z.ltb_spec n 0); [lia |].
    unfold bind at 1, lift at 1. unfold bind at 1. rewrite Eloop.
    cbn [fst snd repeat]. unfold lift. rewrite setitem_upd_last. reflexivity. }
  split; [unfold Np.len; rewrite length_app; simpl length; lia |].
  assert (Hall : Forall finite (filled ++ [Fin f])).
  { apply Forall_app. split; [exact Hff | constructor; [exact I | constructor]]. }
  split.
  { rewrite (sum_finite _ Hall). f_equal. rewrite map_app, Rsum_app. simpl. lra. }
  intros Hu. destruct (Hunit Hu) as [Hp Hf]; [lra |].
  apply Forall_app. split; [exact Hp | constructor; [exact Hf | constructor]].
Qed.

End Random_properties.

Lemma Random_is_normalized_witness :
  exists ps g',
    TestOversampledDirichlet (TB := grid_absent) unit_rng = Ok (ps, g') /\
    Np.len ps = 3 /\
    Np.sum ps = Fin 1%R.
Proof.
  destruct (Random_is_normalized (TB := grid_absent) 3 [3; 2; 1] unit_rng)
    as (d & d' & ps & g' & Hinit & Hpeek & Hrandom & Hlen & Hsum & _).
  - lia.
  - unfold Np.len. simpl. lia.
  - intros c g. exists (1 / 2)%R, g. reflexivity.
  - exists ps, g'. split; [| split; assumption].
    unfold TestOversampledDirichlet. unfold bind at 1, lift at 1. rewrite Hinit.
    unfold bind at 1, lift at 1. rewrite Hpeek. exact Hrandom.
Defined.

Section Before_Peek.

Context {TB : thinkbayes.Absent}.

(** X13.  A model on which [Peek] was never called has neither [weight]
    nor [conditionals]: [Random] and [Likelihood] end in [AttributeError]. *)
Theorem fresh_model_needs_Peek (n : Z) (data : list Z) (g : rng) :
  0 <= n ->
  exists d,
    OversampledDirichlet.init n = Ok d /\
    OversampledDirichlet.Random d g = Raise AttributeError /\
    OversampledDirichlet.Likelihood d data g = Raise AttributeError.
Proof.
  intros Hn. exists (fresh_model n).
  split; [apply Oversampled_init_ok; exact Hn |].
  assert (HR : OversampledDirichlet.Random (fresh_model n) g = Raise AttributeError).
  { unfold OversampledDirichlet.Random, fresh_model.
    cbn [OversampledDirichlet.base OversampledDirichlet.conditionals thinkbayes.n].
    unfold Np.full. destruct (Z.ltb_spec n 0); [lia |]. reflexivity. }
  split; [exact HR |].
  unfold OversampledDirichlet.Likelihood, thinkbayes.Dirichlet_Likelihood_with.
  unfold bind at 1. unfold bind at 1. rewrite HR. reflexivity.
Qed.

End Before_Peek.

Lemma fresh_model_needs_Peek_witness :
  exists d,
    OversampledDirichlet.init (TB := grid_absent) 3 = Ok d /\
    OversampledDirichlet.Random d unit_rng = Raise AttributeError /\
    OversampledDirichlet.Likelihood d [3; 2; 1] unit_rng = Raise AttributeError.
Proof.
  apply (fresh_model_needs_Peek (TB := grid_absent)). lia.
Defined.




(** ** Species2 and Species3: the order and the spacing of the candidates *)

Lemma range_as_range_list (a b : Z) : range a b = range_list a (Z.to_nat (b - a)).
Proof. reflexivity. Qed.

(** On a range of candidates that ends with the parameter array, the tail
    of the cumulative sums holds, for each candidate, the entry that the
    loop of Species2 looks up. *)
Lemma tail_sums_range (g : rng) (st : Species2.t) (a : Z) (k : nat) :
  1 <= a -> (0 < k)%nat ->
  Species2.ns st = range_list a k ->
  Np.len (Species2.params st) = a + Z.of_nat k - 1 ->
  tail_sums g st
  = map (fun n => nth (Z.to_nat (n - 1))
                      (Np.cumsum (gamma_values g (Species2.params st))) NaN)
        (range_list a k).
Proof.
  intros Ha Hk Hns Hlen. unfold tail_sums. rewrite Hns.
  assert (Hhd : hd 0 (range_list a k) = a).
  { destruct k as [| k']; [lia |]. simpl. lia. }
  rewrite Hhd. unfold Np.drop, Np.bound.
  destruct (Z.ltb_spec (a - 1) 0); [lia |].
  rewrite (skipn_as_nth NaN).
  rewrite cumsum_length, gamma_values_length.
  unfold Np.len in Hlen.
  replace (length (Species2.params st) - Z.to_nat (a - 1))%nat with k by lia.
  unfold range_list. rewrite map_map. apply map_ext. intros i.
  f_equal. lia.
Qed.

Lemma log_likes_range (g : rng) (st : Species2.t) (data : list Z) (a : Z) (k : nat) :
  1 <= a -> (0 < k)%nat ->
  Species2.ns st = range_list a k ->
  Np.len (Species2.params st) = a + Z.of_nat k - 1 ->
  log_likes_val3 g st data = log_likes_val g st data.
Proof.
  intros Ha Hk Hns Hlen. unfold log_likes_val3, log_likes_val.
  rewrite (tail_sums_range g st a k Ha Hk Hns Hlen), Hns, map_map.
  apply map_ext. intros n. reflexivity.
Qed.

Lemma range_is_range_ok (st : Species2.t) (a : Z) (k : nat) :
  shapes_ok st -> Species2.ns st = range_list a k ->
  Np.len (Species2.params st) = a + Z.of_nat k - 1 ->
  1 <= a /\ (0 < k)%nat /\ range_ok st.
Proof.
  intros Hsh Hns Hlen. pose proof Hsh as (Hne & _ & Hall & _).
  assert (Hk : (0 < k)%nat).
  { destruct k; [| lia]. rewrite Hns in Hne. exfalso. apply Hne. reflexivity. }
  assert (Hhd : hd 0 (Species2.ns st) = a).
  { rewrite Hns. destruct k as [| k']; [lia |]. simpl. lia. }
  assert (Ha : 1 <= a).
  { rewrite Hns in Hall. rewrite Forall_forall in Hall.
    specialize (Hall a). cbv beta in Hall.
    assert (In a (range_list a k)) by (apply range_list_In; lia).
    apply Hall in H. lia. }
  split; [exact Ha |]. split; [exact Hk |].
  split; [exact Hsh |]. rewrite Hhd, Hlen.
  unfold Np.len. rewrite Hns, range_list_length. lia.
Qed.

(** X15.  On candidates [range(a, b)] whose last one is the length of the
    parameter array, the vectorised likelihood of Species3 is the likelihood
    that Species2 computes candidate by candidate, draw for draw; an update of
    Species3 is an update of Species2 with [self.iterations] draws in place of
    the 1000. *)
Theorem Species3_agrees_with_Species2 (st : Species2.t) (a b : Z) (data : list Z)
    (g : rng) :
  shapes_ok st ->
  Species2.ns st = range a b ->
  Np.len (Species2.params st) = b - 1 ->
  Np.len data <= Np.len (Species2.params st) ->
  Species3.SampleLikelihood st data g = Species2.SampleLikelihood st data g /\
  Species3.Update st data g
  = Species2.Update_with (Z.to_nat (Species2.iterations st)) st data g /\
  (Species2.iterations st = 1000 ->
   Species3.Update st data g = Species2.Update st data g).
Proof.
  intros Hsh Hns Hlen Hm. rewrite range_as_range_list in Hns.
  set (k := Z.to_nat (b - a)) in *.
  assert (Hab : a < b).
  { destruct (Z_lt_le_dec a b) as [H | H]; [exact H |].
    exfalso. destruct Hsh as (Hne & _). apply Hne. rewrite Hns.
    unfold k. replace (Z.to_nat (b - a)) with 0%nat by lia. reflexivity. }
  assert (Hlen' : Np.len (Species2.params st) = a + Z.of_nat k - 1) by (unfold k; lia).
  destruct (range_is_range_ok st a k Hsh Hns Hlen') as (Ha & Hk & Hro).
  assert (Hll : forall g', log_likes_val3 g' st data = log_likes_val g' st data).
  { intros g'. apply (log_likes_range g' st data a k); assumption. }
  assert (Hupd : Species3.Update st data g
                 = Species2.Update_with (Z.to_nat (Species2.iterations st)) st data g).
  { rewrite Species3_Update_eq by assumption.
    rewrite Species2_Update_with_eq by assumption.
    unfold Species3_after, Species2_after.
    rewrite (acc_draws_ext
               (fun g' => Np.zip_with fmul (exp_shift (log_likes_val3 g' st data))
                                      (coefs st data))
               (fun g' => Np.zip_with fmul (exp_shift (log_likes_val g' st data))
                                      (coefs st data))).
    - reflexivity.
    - intros g'. rewrite Hll. reflexivity. }
  split.
  - rewrite Species3_SampleLikelihood_eq, Species2_SampleLikelihood_eq by assumption.
    rewrite Hll. reflexivity.
  - split; [exact Hupd |].
    intros Hit. rewrite Hupd, Hit. reflexivity.
Qed.

Lemma shapes_ok_example : shapes_ok (Species2.mk [3; 4] [Fin 1%R; Fin 1%R] [1; 1; 1; 1] 1000).
Proof.
  unfold shapes_ok, Np.len. simpl.
  split; [discriminate |]. split; [reflexivity |].
  split; repeat constructor; lia.
Qed.

Lemma Species3_agrees_with_Species2_witness :
  let st := Species2.mk [3; 4] [Fin 1%R; Fin 1%R] [1; 1; 1; 1] 1000 in
  Species3.SampleLikelihood st [3; 2; 1] unit_rng
  = Species2.SampleLikelihood st [3; 2; 1] unit_rng /\
  Species3.Update st [3; 2; 1] unit_rng
  = Species2.Update_with (Z.to_nat (Species2.iterations st)) st [3; 2; 1] unit_rng /\
  (Species2.iterations st = 1000 ->
   Species3.Update st [3; 2; 1] unit_rng = Species2.Update st [3; 2; 1] unit_rng).
Proof.
  intros st. apply (Species3_agrees_with_Species2 st 3 5 [3; 2; 1] unit_rng).
  - exact shapes_ok_example.
  - reflexivity.
  - reflexivity.
  - unfold Np.len. simpl. lia.
Defined.

Lemma init_inv (ns : list Z) (iterations : Z) (st : Species2.t) :
  Species2.init ns iterations = Ok st ->
  ns <> [] /\ 0 <= last ns 0 /\
  st = Species2.mk ns (repeat (Fin 1%R) (length ns))
                   (repeat 1 (Z.to_nat (last ns 0))) iterations.
Proof.
  intros H. destruct ns as [| n ns]; [discriminate |].
  assert (Hne : n :: ns <> []) by discriminate.
  split; [exact Hne |].
  unfold Species2.init in H. rewrite (getitem_last (n :: ns) 0 Hne) in H.
  cbn [rbind] in H. unfold Np.full in H.
  destruct (Z.ltb_spec (last (n :: ns) 0) 0); [discriminate |].
  split; [assumption |]. cbn [rbind] in H. inversion H. reflexivity.
Qed.

Lemma getitem_cases {A} (l : list A) (i : Z) :
  (exists x, Np.getitem l i = Ok x) \/ Np.getitem l i = Raise IndexError.
Proof.
  unfold Np.getitem. destruct (_ || _); [right; reflexivity |].
  destruct (nth_error l _) as [x |]; [left; exists x; reflexivity | right; reflexivity].
Qed.

Lemma rmapM_raise {A B} (f : A -> result B) (e : exn) (l : list A) :
  Forall (fun a => (exists b, f a = Ok b) \/ f a = Raise e) l ->
  Exists (fun a => f a = Raise e) l ->
  rmapM f l = Raise e.
Proof.
  induction 1 as [| a l Ha _ IH]; intros Hex; [inversion Hex |].
  cbn [rmapM]. destruct Ha as [(b & Eb) | Ea].
  - rewrite Eb. cbn [rbind]. rewrite IH; [reflexivity |].
    inversion Hex; subst; [congruence | assumption].
  - rewrite Ea. reflexivity.
Qed.

Lemma for_range_raise {A B} (SL : M B) (f : A -> B -> M A) (e : exn) (k : nat)
    (acc : A) (g : rng) :
  (0 < k)%nat -> SL g = Raise e ->
  for_range k (fun like => s <- SL ;; f like s) acc g = Raise e.
Proof.
  intros Hk H. destruct k as [| k]; [lia |].
  cbn [for_range]. unfold bind. rewrite H. reflexivity.
Qed.

Lemma ones_positive (k : nat) : Forall (fun a => 0 < a) (repeat 1 k).
Proof. apply repeat_Forall. lia. Qed.

(** X16.  Species2 sizes its parameter array by the last candidate: when a
    candidate is larger than the last one, every update ends in
    [IndexError]. *)
Theorem Species2_needs_largest_candidate_last (ns : list Z) (iterations : Z)
    (st : Species2.t) (data : list Z) (g : rng) :
  Species2.init ns iterations = Ok st ->
  Exists (fun n => last ns 0 < n) ns ->
  Np.len data <= last ns 0 ->
  Species2.Update st data g = Raise IndexError.
Proof.
  intros Hinit Hex Hm. destruct (init_inv ns iterations st Hinit) as (Hne & Hlast & Est).
  set (L := Z.to_nat (last ns 0)) in *.
  assert (Hsl : forall g', Species2.SampleLikelihood st data g' = Raise IndexError).
  { intros g'. unfold Species2.SampleLikelihood, Species2.SampleLikelihood_exp, bind.
    subst st. cbn [Species2.params Species2.ns].
    rewrite gamma_ok by apply ones_positive.
    set (gammas := gamma_values g' (repeat 1 L)).
    assert (Hgl : length gammas = L).
    { unfold gammas. rewrite gamma_values_length. apply repeat_length. }
    assert (Hrow : length (Np.take gammas (Np.len data)) = length data).
    { rewrite take_length_le; unfold Np.len in *; lia. }
    unfold lift.
    rewrite (rmapM_raise _ IndexError); [reflexivity | |].
    - apply Forall_forall. intros n _. unfold Species2.log_like.
      destruct (getitem_cases (Np.cumsum gammas) (n - 1)) as [(c & Ec) | Ec];
        rewrite Ec; cbn [rbind]; [| right; reflexivity].
      left. rewrite bcast_same_length by (rewrite !length_map; exact Hrow).
      eexists. reflexivity.
    - eapply Exists_impl; [| exact Hex]. intros n Hn. cbv beta in Hn.
      unfold Species2.log_like. rewrite getitem_short; [reflexivity |].
      unfold Np.len. rewrite cumsum_length, Hgl. lia. }
  unfold Species2.Update, Species2.Update_with. unfold bind at 1.
  rewrite (for_range_raise (Species2.SampleLikelihood st data)
             (fun like s => lift (Np.inplace fadd like s)) IndexError).
  - reflexivity.
  - apply Nat.lt_0_succ.
  - apply Hsl.
Qed.

Lemma Species2_needs_largest_candidate_last_witness :
  Species2.Update (Species2.mk [3; 5; 4] [Fin 1%R; Fin 1%R; Fin 1%R] [1; 1; 1; 1] 10)
                  [3; 2; 1] unit_rng
  = Raise IndexError.
Proof.
  apply (Species2_needs_largest_candidate_last [3; 5; 4] 10).
  - reflexivity.
  - apply Exists_cons_tl. apply Exists_cons_hd. simpl. lia.
  - unfold Np.len. simpl. lia.
Defined.

(** One draw of Species3 when the first candidate is a position of the
    parameter array, whatever the other candidates are. *)
Lemma Species3_SampleLikelihood_exp_first (st : Species2.t) (data : list Z) (g : rng) :
  Forall (fun a => 0 < a) (Species2.params st) ->
  Species2.ns st <> [] ->
  1 <= hd 0 (Species2.ns st) <= Np.len (Species2.params st) ->
  Np.len data <= Np.len (Species2.params st) ->
  Species3.SampleLikelihood_exp st data g
  = Ok (exp_shift (log_likes_val3 g st data), tick g) /\
  Np.len (log_likes_val3 g st data)
  = Np.len (Species2.params st) - hd 0 (Species2.ns st) + 1.
Proof.
  intros Hpar Hne Hfirst Hm.
  assert (Hget : Np.getitem (Species2.ns st) 0 = Ok (hd 0 (Species2.ns st))).
  { destruct (Species2.ns st); [congruence | reflexivity]. }
  assert (Hlen : Np.len (tail_sums g st)
                 = Np.len (Species2.params st) - hd 0 (Species2.ns st) + 1).
  { unfold tail_sums. rewrite drop_length.
    - unfold Np.len in *. rewrite cumsum_length, gamma_values_length. lia.
    - unfold Np.len in *. rewrite cumsum_length, gamma_values_length. lia. }
  split.
  - unfold Species3.SampleLikelihood_exp, bind. rewrite gamma_ok by assumption.
    unfold lift. rewrite Hget.
    set (gammas := gamma_values g (Species2.params st)).
    assert (Hrow : length (Np.take gammas (Np.len data)) = length data).
    { rewrite take_length_le; unfold Np.len in *; [lia |].
      unfold gammas. rewrite gamma_values_length. lia. }
    rewrite bcast_same_length by exact Hrow.
    rewrite (rmapM_ok _ (fun ps => Np.zip_with fmul (map flog ps) (map of_int data))).
    + rewrite max_nonempty.
      * unfold log_likes_val3, tail_sums, exp_shift. fold gammas.
        rewrite !map_map. reflexivity.
      * rewrite !map_map. fold (tail_sums g st).
        intros E. apply map_eq_nil in E. change (tail_sums g st = []) in E.
        rewrite E in Hlen. unfold Np.len in *. cbn [length] in Hlen. lia.
    + intros ps Hps. apply in_map_iff in Hps. destruct Hps as [c [<- _]].
      apply bcast_same_length. rewrite !length_map. exact Hrow.
  - unfold log_likes_val3. unfold Np.len in *. rewrite length_map. exact Hlen.
Qed.

Lemma inplace_mismatch {A B} (f : A -> B -> A) (xs : list A) (ys : list B) :
  length xs <> length ys -> length ys <> 1%nat ->
  Np.inplace f xs ys = Raise ValueError.
Proof.
  intros Hne H1. unfold Np.inplace.
  destruct (Nat.eqb_spec (length xs) (length ys)); [contradiction |].
  destruct ys as [| y [| y' ys]]; try reflexivity. simpl in H1. congruence.
Qed.

Lemma last_single {A} (x d : A) (l : list A) : length (x :: l) = 1%nat -> last (x :: l) d = x.
Proof. destruct l; [reflexivity | discriminate]. Qed.

(** X17.  Species3 takes the candidates to be the consecutive integers from
    the first to the last: on a list with a gap (or a repetition), where
    their number is not [last - first + 1], every update ends in
    [ValueError]. *)
Theorem Species3_needs_consecutive_candidates (ns : list Z) (iterations : Z)
    (st : Species2.t) (data : list Z) (g : rng) :
  Species2.init ns iterations = Ok st ->
  1 <= hd 0 ns <= last ns 0 ->
  Np.len data <= last ns 0 ->
  Np.len ns <> last ns 0 - hd 0 ns + 1 ->
  0 < iterations ->
  Species3.Update st data g = Raise ValueError.
Proof.
  intros Hinit Hfirst Hm Hgap Hit.
  destruct (init_inv ns iterations st Hinit) as (Hne & Hlast & Est).
  assert (Hpl : Np.len (Species2.params st) = last ns 0).
  { subst st. unfold Np.len. cbn [Species2.params]. rewrite repeat_length. lia. }
  assert (Hns : Species2.ns st = ns) by (subst st; reflexivity).
  assert (Hpar : Forall (fun a => 0 < a) (Species2.params st)).
  { subst st. apply ones_positive. }
  assert (Hsl : forall g', Species3.SampleLikelihood st data g' = Raise ValueError).
  { intros g'. unfold Species3.SampleLikelihood, bind.
    destruct (Species3_SampleLikelihood_exp_first st data g') as [E Hlen];
      try assumption; try (rewrite Hns; assumption); try (rewrite Hns, Hpl; assumption);
      try (rewrite Hpl; assumption).
    rewrite E. unfold lift. rewrite inplace_mismatch; [reflexivity | |].
    - rewrite exp_shift_length, length_map, Hns.
      rewrite Hns, Hpl in Hlen. unfold Np.len in *. lia.
    - rewrite length_map, Hns. intros H1. apply Hgap.
      destruct ns as [| n ns']; [discriminate |].
      rewrite (last_single n 0 ns' H1). unfold Np.len. rewrite H1.
      cbn [hd]. lia. }
  unfold Species3.Update. unfold bind at 1.
  rewrite (for_range_raise (Species3.SampleLikelihood st data)
             (fun like s => lift (Np.inplace fadd like s)) ValueError).
  - reflexivity.
  - subst st. cbn [Species2.iterations]. lia.
  - apply Hsl.
Qed.

Lemma Species3_needs_consecutive_candidates_witness :
  Species3.Update (Species2.mk [3; 5] [Fin 1%R; Fin 1%R] [1; 1; 1; 1; 1] 10)
                  [3; 2; 1] unit_rng
  = Raise ValueError.
Proof.
  apply (Species3_needs_consecutive_candidates [3; 5] 10).
  - reflexivity.
  - simpl. lia.
  - unfold Np.len. simpl. lia.
  - unfold Np.len. simpl. lia.
  - lia.
Defined.

(** ** Species2.MarginalBeta after an update *)

Lemma total_app (l1 l2 : list Z) : total (l1 ++ l2) = total l1 + total l2.
Proof.
  unfold total. rewrite fold_left_app, (fold_add_shift l2 (fold_left Z.add l1 0)).
  reflexivity.
Qed.

Lemma total_cons (x : Z) (l : list Z) : total (x :: l) = x + total l.
Proof. unfold total. cbn [fold_left]. rewrite (fold_add_shift l (0 + x)). lia. Qed.

Lemma total_ones (k : nat) : total (repeat 1 k) = Z.of_nat k.
Proof.
  induction k as [| k IH]; [reflexivity |].
  cbn [repeat]. rewrite total_cons, IH. lia.
Qed.

Lemma total_succ (l : list Z) : total (map (Z.add 1) l) = Z.of_nat (length l) + total l.
Proof.
  induction l as [| x l IH]; [reflexivity |].
  cbn [map length]. rewrite !total_cons, IH. lia.
Qed.

Lemma total_nonneg (l : list Z) : Forall (fun d => 0 <= d) l -> 0 <= total l.
Proof.
  induction 1 as [| x l Hx _ IH]; [unfold total; simpl; lia |].
  rewrite total_cons. lia.
Qed.

Lemma total_bounds (l : list Z) (d : Z) :
  Forall (fun d => 0 <= d) l -> In d l -> d <= total l.
Proof.
  induction 1 as [| x l Hx Hl IH]; intros Hin; [inversion Hin |].
  rewrite total_cons. pose proof (total_nonneg l Hl).
  destruct Hin as [-> | Hin]; [lia |]. specialize (IH Hin). lia.
Qed.

Lemma isum_small (l : list Z) :
  forall acc : Z,
    Forall (fun d => 0 <= d) l -> 0 <= acc -> acc + total l < 2 ^ 63 ->
    fold_left add64 l acc = acc + total l.
Proof.
  induction l as [| x l IH]; intros acc Hl Hacc Hb.
  - unfold total. simpl. lia.
  - inversion Hl as [| ? ? Hx Hl']; subst. rewrite total_cons in *.
    pose proof (total_nonneg l Hl').
    cbn [fold_left]. unfold add64 at 2. rewrite wrap64_small by lia.
    rewrite IH; [lia | assumption | lia | lia].
Qed.

Lemma add_prefix_ones (data : list Z) :
  forall L : nat,
    Forall (fun d => 0 <= d /\ 1 + d < 2 ^ 63) data -> (length data <= L)%nat ->
    add_prefix (repeat 1 L) data = map (Z.add 1) data ++ repeat 1 (L - length data).
Proof.
  induction data as [| d data IH]; intros L Hd HL.
  - cbn [map app length]. rewrite Nat.sub_0_r. destruct L; reflexivity.
  - destruct L as [| L]; [simpl in HL; lia |].
    inversion Hd as [| ? ? [H0 H1] Hd']; subst.
    cbn [repeat add_prefix map app length Nat.sub]. f_equal.
    + unfold add64. apply wrap64_small. lia.
    + apply IH; [assumption | simpl in HL; lia].
Qed.

Lemma counts_ok_ones (data : list Z) :
  forall L : nat,
    Forall (fun d => 0 <= d /\ 1 + d < 2 ^ 63) data -> counts_ok (repeat 1 L) data.
Proof.
  induction data as [| d data IH]; intros L Hd.
  - destruct L; exact I.
  - destruct L as [| L]; [exact I |].
    inversion Hd as [| ? ? [H0 H1] Hd']; subst.
    cbn [repeat counts_ok]. split; [lia | apply IH; assumption].
Qed.

Lemma firstn_repeat_le {A} (x : A) (i j : nat) :
  (i <= j)%nat -> firstn i (repeat x j) = repeat x i.
Proof.
  revert j. induction i as [| i IH]; intros j Hij; [reflexivity |].
  destruct j as [| j]; [lia |]. cbn [repeat firstn]. f_equal. apply IH. lia.
Qed.

(** X18.  The marginal that a flattened suite keeps for a seen species: on
    candidates [range(a, b)] and after its first update with a batch of
    non-negative counts, [MarginalBeta(n, i)] is, for every candidate [n] and
    every observed species [i], the Beta distribution with parameters
    [1 + data[i]] and [n - 1 + sum(data) - data[i]], for Species2, Species3
    and Species5 alike. *)
Theorem MarginalBeta_after_Update (v : flat_variant) (a b iterations : Z)
    (data : list Z) (g : rng) :
  1 <= a < b -> 0 < iterations -> positive_draws g ->
  data <> [] -> Np.len data <= a ->
  Forall (fun d => 0 <= d) data -> b - 1 + total data < 2 ^ 63 ->
  exists st st' g',
    Species2.init (range a b) iterations = Ok st /\
    flat_Update v st data g = Ok (st', g') /\
    forall n index, a <= n < b -> 0 <= index < Np.len data ->
      Species2.MarginalBeta st' n index
      = Ok (thinkbayes.mkBeta (1 + nth (Z.to_nat index) data 0)
                              (n - 1 + total data - nth (Z.to_nat index) data 0)).
Proof.
  intros Hab Hit Hg Hne Hm Hnn Hbound.
  rewrite range_as_range_list. set (k := Z.to_nat (b - a)).
  destruct (init_range_wf a k iterations) as (st & Hinit & Hwf & Hns & Hpar);
    [lia | unfold k; lia | exact Hit |].
  set (L := Z.to_nat (a + Z.of_nat k - 1)) in *.
  assert (HL : Z.of_nat L = b - 1) by (unfold L, k; lia).
  pose proof (total_nonneg data Hnn) as Htot.
  assert (Hd : Forall (fun d => 0 <= d /\ 1 + d < 2 ^ 63) data).
  { apply Forall_forall. intros d Hin. rewrite Forall_forall in Hnn.
    pose proof (total_bounds data d ltac:(apply Forall_forall; exact Hnn) Hin).
    split; [apply Hnn; exact Hin | lia]. }
  assert (Hcomp : compatible (Species2.ns st) (Species2.params st) data).
  { split; [exact Hne |]. split.
    - rewrite Hns. apply Forall_forall. intros n Hn. apply range_list_In in Hn. lia.
    - rewrite Hpar. apply counts_ok_ones. exact Hd. }
  destruct (flat_Update_step v st data g Hwf Hg Hcomp)
    as (st' & g' & Hupd & _ & _ & _ & _ & Hpar').
  exists st, st', g'. split; [exact Hinit |]. split; [exact Hupd |].
  intros n index Hn Hi.
  assert (Hlen : (length data <= L)%nat) by (unfold Np.len in *; lia).
  rewrite Hpar, (add_prefix_ones data L Hd Hlen) in Hpar'.
  unfold Species2.MarginalBeta. rewrite Hpar'.
  assert (Hget : Np.getitem (map (Z.add 1) data ++ repeat 1 (L - length data)) index
                 = Ok (1 + nth (Z.to_nat index) data 0)).
  { rewrite (getitem_nth _ index 0).
    - f_equal. rewrite app_nth1 by (rewrite length_map; unfold Np.len in *; lia).
      change 0 with (Z.add 1 (-1)) at 1. rewrite map_nth.
      f_equal. apply nth_indep. unfold Np.len in *. lia.
    - unfold Np.len in *. rewrite length_app, length_map. lia. }
  rewrite Hget. cbn [rbind]. f_equal. f_equal.
  assert (Htake : Np.take (map (Z.add 1) data ++ repeat 1 (L - length data)) n
                  = map (Z.add 1) data ++ repeat 1 (Z.to_nat n - length data)).
  { unfold Np.take, Np.bound. destruct (Z.ltb_spec n 0); [lia |].
    rewrite firstn_app, length_map.
    rewrite firstn_all2 by (rewrite length_map; unfold Np.len in *; lia).
    rewrite firstn_repeat_le by (unfold Np.len in *; lia). reflexivity. }
  rewrite Htake. unfold Np.isum.
  assert (Hsum : total (map (Z.add 1) data ++ repeat 1 (Z.to_nat n - length data))
                 = n + total data).
  { rewrite total_app, total_succ, total_ones. unfold Np.len in *. lia. }
  rewrite isum_small.
  - rewrite Hsum. unfold sub64. rewrite wrap64_small.
    + lia.
    + assert (Hin : nth (Z.to_nat index) data 0 <= total data).
      { apply total_bounds; [exact Hnn |]. apply nth_In. unfold Np.len in *. lia. }
      assert (0 <= nth (Z.to_nat index) data 0).
      { rewrite Forall_forall in Hnn. apply Hnn, nth_In. unfold Np.len in *. lia. }
      lia.
  - apply Forall_app. split.
    + rewrite Forall_map. eapply Forall_impl; [| exact Hnn]. intros d H0. cbv beta in *. lia.
    + apply repeat_Forall. lia.
  - lia.
  - rewrite Hsum. lia.
Qed.

Lemma MarginalBeta_after_Update_witness :
  exists st st' g',
    Species2.init (range 3 5) 10 = Ok st /\
    flat_Update Flat5 st [3; 2; 1] unit_rng = Ok (st', g') /\
    forall n index, 3 <= n < 5 -> 0 <= index < Np.len [3; 2; 1] ->
      Species2.MarginalBeta st' n index
      = Ok (thinkbayes.mkBeta (1 + nth (Z.to_nat index) [3; 2; 1] 0)
                              (n - 1 + total [3; 2; 1] - nth (Z.to_nat index) [3; 2; 1] 0)).
Proof.
  apply (MarginalBeta_after_Update Flat5 3 5 10 [3; 2; 1] unit_rng).
  - lia.
  - lia.
  - exact unit_rng_positive.
  - discriminate.
  - unfold Np.len. simpl. lia.
  - repeat constructor; lia.
  - unfold total. simpl. lia.
Defined.

(** ** A batch with more species than the last candidate *)

Lemma bcast_mismatch {A B C} (f : A -> B -> C) (xs : list A) (ys : list B) :
  length xs <> length ys -> length xs <> 1%nat -> length ys <> 1%nat ->
  Np.bcast f xs ys = Raise ValueError.
Proof.
  intros Hne Hx Hy. unfold Np.bcast.
  destruct (Nat.eqb_spec (length xs) (length ys)); [contradiction |].
  destruct xs as [| x [| x' xs]]; destruct ys as [| y [| y' ys]];
    simpl in *; try reflexivity; congruence.
Qed.

Lemma take_all {A} (l : list A) (m : Z) : Np.len l <= m -> Np.take l m = l.
Proof.
  intros H. unfold Np.take, Np.bound, Np.len in *.
  destruct (Z.ltb_spec m 0); [lia |]. apply firstn_all2. lia.
Qed.

(** X19.  Species2 and Species3 do reject a batch that lists more species
    than the last candidate allows, two or more candidates' worth of
    parameters given: the sample has fewer entries than the batch, and the
    update ends in [ValueError]. *)
Theorem long_batch_is_rejected (ns : list Z) (iterations : Z) (st : Species2.t)
    (data : list Z) (g : rng) :
  Species2.init ns iterations = Ok st ->
  1 <= hd 0 ns <= last ns 0 ->
  2 <= last ns 0 < Np.len data ->
  0 < iterations ->
  Species2.Update st data g = Raise ValueError /\
  Species3.Update st data g = Raise ValueError.
Proof.
  intros Hinit Hfirst Hm Hit.
  destruct (init_inv ns iterations st Hinit) as (Hne & Hlast & Est).
  set (L := Z.to_nat (last ns 0)) in *.
  assert (Hrow : forall g', length (Np.take (gamma_values g' (repeat 1 L)) (Np.len data)) = L).
  { intros g'. rewrite take_all.
    - rewrite gamma_values_length. apply repeat_length.
    - unfold Np.len. rewrite gamma_values_length, repeat_length. unfold Np.len in Hm. lia. }
  assert (Hget : Np.getitem ns 0 = Ok (hd 0 ns)).
  { destruct ns; [congruence | reflexivity]. }
  split.
  - assert (Hsl : forall g', Species2.SampleLikelihood st data g' = Raise ValueError).
    { intros g'. unfold Species2.SampleLikelihood, Species2.SampleLikelihood_exp, bind.
      subst st. cbn [Species2.params Species2.ns].
      rewrite gamma_ok by apply ones_positive. unfold lift.
      destruct ns as [| n ns']; [congruence |]. cbn [hd] in Hfirst.
      cbn [rmapM]. unfold Species2.log_like at 1.
      rewrite (getitem_nth _ (n - 1) NaN)
        by (unfold Np.len; rewrite cumsum_length, gamma_values_length, repeat_length; lia).
      cbn [rbind]. rewrite bcast_mismatch; [reflexivity | | |];
        rewrite !length_map; try rewrite Hrow; unfold Np.len in Hm; lia. }
    unfold Species2.Update, Species2.Update_with. unfold bind at 1.
    rewrite (for_range_raise (Species2.SampleLikelihood st data)
               (fun like s => lift (Np.inplace fadd like s)) ValueError).
    + reflexivity.
    + apply Nat.lt_0_succ.
    + apply Hsl.
  - assert (Hsl : forall g', Species3.SampleLikelihood st data g' = Raise ValueError).
    { intros g'. unfold Species3.SampleLikelihood, Species3.SampleLikelihood_exp, bind.
      subst st. cbn [Species2.params Species2.ns].
      rewrite gamma_ok by apply ones_positive. unfold lift. rewrite Hget.
      rewrite bcast_mismatch; [reflexivity | | |];
        try rewrite Hrow; unfold Np.len in Hm; lia. }
    unfold Species3.Update. unfold bind at 1.
    rewrite (for_range_raise (Species3.SampleLikelihood st data)
               (fun like s => lift (Np.inplace fadd like s)) ValueError).
    + reflexivity.
    + subst st. cbn [Species2.iterations]. lia.
    + apply Hsl.
Qed.

Lemma long_batch_is_rejected_witness :
  let st := Species2.mk [2; 3] [Fin 1%R; Fin 1%R] [1; 1; 1] 10 in
  Species2.Update st [4; 3; 2; 1] unit_rng = Raise ValueError /\
  Species3.Update st [4; 3; 2; 1] unit_rng = Raise ValueError.
Proof.
  intros st. apply (long_batch_is_rejected [2; 3] 10).
  - reflexivity.
  - simpl. lia.
  - unfold Np.len. simpl. lia.
  - lia.
Defined.

(** ** The batches that Peek accepts *)

Lemma inplace_singleton {A B} (f : A -> B -> A) (xs : list A) (y : B) :
  exists head, Np.inplace f xs [y] = Ok head.
Proof.
  unfold Np.inplace. destruct (Nat.eqb _ _); eexists; reflexivity.
Qed.

Section Peek_precondition.

Context {TB : thinkbayes.Absent}.

(** X20.  [Peek] returns exactly when the batch has no more counts than the
    model has parameters, or has one count only; otherwise adding the batch
    to the copy of the parameters ends in [ValueError]. *)
Theorem Peek_returns_iff_batch_fits (self : OversampledDirichlet.t) (data : list Z) :
  let n := Np.len (thinkbayes.params (OversampledDirichlet.base self)) in
  let m := Np.len data in
  ((exists self', OversampledDirichlet.Peek self data = Ok self') <-> (m <= n \/ m = 1)) /\
  (OversampledDirichlet.Peek self data = Raise ValueError <-> (n < m /\ m <> 1)).
Proof.
  intros n m.
  assert (Hcases : (m <= n \/ m = 1) \/ (n < m /\ m <> 1)) by lia.
  assert (Hshape : forall head,
             Np.inplace Z.add (Np.take (thinkbayes.params (OversampledDirichlet.base self)) m)
                        data = Ok head ->
             exists self', OversampledDirichlet.Peek self data = Ok self').
  { intros head E. unfold OversampledDirichlet.Peek, OversampledDirichlet.TrimMarginals.
    cbn [OversampledDirichlet.base OversampledDirichlet.conditionals].
    fold m. rewrite E. cbn [rbind].
    destruct (OversampledDirichlet.bounds _) as [lows highs]. eexists. reflexivity. }
  assert (Hraise : Np.inplace Z.add (Np.take (thinkbayes.params (OversampledDirichlet.base self)) m)
                              data = Raise ValueError ->
                   OversampledDirichlet.Peek self data = Raise ValueError).
  { intros E. unfold OversampledDirichlet.Peek, OversampledDirichlet.TrimMarginals.
    cbn [OversampledDirichlet.base OversampledDirichlet.conditionals].
    fold m. rewrite E. reflexivity. }
  destruct Hcases as [Hfit | Hlong].
  - assert (Hok : exists self', OversampledDirichlet.Peek self data = Ok self').
    { destruct Hfit as [Hle | H1].
      - apply (Hshape (Np.zip_with Z.add
                         (Np.take (thinkbayes.params (OversampledDirichlet.base self)) m) data)).
        apply inplace_same_length. rewrite take_length_le; unfold m, n, Np.len in *; lia.
      - unfold m, Np.len in H1.
        destruct data as [| y [| y' data']]; simpl in H1; try lia.
        destruct (inplace_singleton Z.add
                    (Np.take (thinkbayes.params (OversampledDirichlet.base self)) m) y)
          as (head & E).
        apply (Hshape head). exact E. }
    split.
    + split; [intros _; exact Hfit | intros _; exact Hok].
    + split; [| intros [Hn Hm]; lia].
      intros E. destruct Hok as (self' & E'). congruence.
  - assert (E : OversampledDirichlet.Peek self data = Raise ValueError).
    { apply Hraise. apply inplace_mismatch.
      - unfold Np.take, Np.bound. unfold m, n, Np.len in *.
        destruct (Z.ltb_spec (Z.of_nat (length data)) 0); [lia |].
        rewrite length_firstn. lia.
      - unfold m, Np.len in *. lia. }
    split.
    + split; [| lia]. intros (self' & E'). congruence.
    + split; [intros _; exact Hlong | intros _; exact E].
Qed.

End Peek_precondition.

(** ** MakePosterior and ProcessSubject *)

Lemma trunc_three_halves (m : Z) :
  0 <= m -> trunc (3 / 2 * IZR m) = m + m / 2.
Proof.
  intros Hm. unfold trunc.
  assert (H0 : (0 <= IZR m)%R) by (apply IZR_le; exact Hm).
  destruct (Rle_dec 0 (3 / 2 * IZR m)) as [_ | Hneg]; [| exfalso; apply Hneg; lra].
  symmetry. apply Int_part_spec.
  pose proof (Z.div_mod m 2 ltac:(lia)) as Hdm.
  pose proof (Z.mod_pos_bound m 2 ltac:(lia)) as Hmod.
  set (q := m / 2) in *. set (s := m mod 2) in *.
  assert (Em : IZR m = (2 * IZR q + IZR s)%R).
  { rewrite Hdm at 1. rewrite plus_IZR, mult_IZR. reflexivity. }
  rewrite plus_IZR, Em.
  assert (Hs : s = 0 \/ s = 1) by lia.
  destruct Hs as [-> | ->]; simpl; lra.
Qed.

Lemma range_empty (a b : Z) : b <= a -> range a b = [].
Proof. intros H. unfold range. replace (Z.to_nat (b - a)) with 0%nat by lia. reflexivity. Qed.

(** X22.  [ProcessSubject] needs at least two species: with fewer counts the
    candidates [range(m, int(1.5 * m))] are none, and the constructor of the
    suite ends in [IndexError] before any sample is drawn. *)
Theorem ProcessSubject_needs_two_species (counts : list Z) (g : rng) :
  (length counts < 2)%nat -> ProcessSubject counts g = Raise IndexError.
Proof.
  intros Hlen. unfold ProcessSubject. unfold of_int. cbn [fmul].
  unfold bind at 1, lift at 1.
  rewrite trunc_three_halves by (unfold Np.len; lia).
  rewrite range_empty.
  - reflexivity.
  - unfold Np.len.
    destruct counts as [| c [| c' counts]]; simpl in *;
      [apply Z.leb_le; reflexivity | apply Z.leb_le; reflexivity | lia].
Qed.

Lemma ProcessSubject_needs_two_species_witness :
  ProcessSubject [7] unit_rng = Raise IndexError.
Proof.
  apply ProcessSubject_needs_two_species. simpl. lia.
Defined.

Lemma flat_posterior (v : flat_variant) (a : Z) (k : nat) (iterations : Z)
    (data : list Z) (g : rng) :
  1 <= a -> (0 < k)%nat -> 0 < iterations -> positive_draws g ->
  data <> [] -> Np.len data <= a -> counts_fit data ->
  exists st st' g',
    Species2.init (range_list a k) iterations = Ok st /\
    flat_Update v st data g = Ok (st', g') /\
    map fst (Species2.DistOfN st') = range_list a k /\
    Np.sum (map snd (Species2.DistOfN st')) = Fin 1%R /\
    Species2.params st' = add_prefix (repeat 1 (Z.to_nat (a + Z.of_nat k - 1))) data.
Proof.
  intros Ha Hk Hit Hg Hne Hm Hfit.
  destruct (init_range_wf a k iterations Ha Hk Hit) as (st & Hinit & Hwf & Hns & Hpar).
  assert (Hcomp : compatible (Species2.ns st) (Species2.params st) data).
  { split; [exact Hne |]. split.
    - rewrite Hns. apply Forall_forall. intros n Hn. apply range_list_In in Hn. lia.
    - rewrite Hpar. apply counts_ok_ones. exact Hfit. }
  destruct (flat_Update_step v st data g Hwf Hg Hcomp)
    as (st' & g' & Hupd & _ & Hwf' & Hsum & Hns' & Hpar').
  exists st, st', g'. split; [exact Hinit |]. split; [exact Hupd |].
  destruct Hwf' as ((Hsh & _) & Hnd & _). destruct Hsh as (_ & Hpl & _).
  destruct (DistOfN_nodup st' Hnd Hpl) as [Hd Hsnd].
  split.
  { rewrite Hd, Hns', Hns. rewrite <- Hns, <- Hns'.
    clear - Hpl. revert Hpl. generalize (Species2.probs st').
    induction (Species2.ns st') as [| n ns IH]; intros [| p ps] H; simpl in *;
      try discriminate; [reflexivity |]. f_equal. apply IH. lia. }
  split; [rewrite Hsnd; exact Hsum |].
  rewrite Hpar', Hpar. reflexivity.
Qed.

(** X23.  On two or more counts of a subject, positive draws given,
    [ProcessSubject] returns the suite and the distribution of the number of
    species: its values are the candidates [m, ..., m + m/2 - 1], in order,
    where [m] is the number of counts; its weights sum to one; and the
    parameters of the suite are the counts, each plus one, followed by
    ones. *)
Theorem ProcessSubject_posterior (counts : list Z) (g : rng) :
  (2 <= length counts)%nat -> counts_fit counts -> positive_draws g ->
  exists suite pmf g',
    ProcessSubject counts g = Ok ((suite, pmf), g') /\
    map fst pmf = range (Np.len counts) (Np.len counts + Np.len counts / 2) /\
    Np.sum (map snd pmf) = Fin 1%R /\
    Species2.params suite
    = map (Z.add 1) counts ++ repeat 1 (length counts / 2 - 1).
Proof.
  intros Hlen Hfit Hg.
  set (m := Np.len counts).
  assert (Hm : 2 <= m) by (unfold m, Np.len; lia).
  set (k := Z.to_nat (m / 2)).
  assert (Hk : (0 < k)%nat).
  { unfold k. assert (1 <= m / 2) by (apply Z.div_le_lower_bound; lia). lia. }
  assert (Hrange : range m (m + m / 2) = range_list m k).
  { rewrite range_as_range_list. unfold k. f_equal. f_equal. lia. }
  destruct (flat_posterior Flat5 m k 300 counts g) as
      (st & st' & g' & Hinit & Hupd & Hfst & Hsum & Hpar); try assumption; try lia.
  { intros E. subst counts. simpl in Hlen. lia. }
  exists st', (Species2.DistOfN st'), g'.
  split.
  { unfold ProcessSubject. unfold of_int. cbn [fmul].
    unfold bind at 1, lift at 1. fold m.
    rewrite trunc_three_halves by lia. rewrite Hrange.
    unfold bind at 1, lift at 1. rewrite Hinit.
    unfold bind. cbn [flat_Update] in Hupd. rewrite Hupd. reflexivity. }
  split; [rewrite Hfst, Hrange; reflexivity |].
  split; [exact Hsum |].
  rewrite Hpar, add_prefix_ones.
  - f_equal. f_equal. unfold k, m, Np.len.
    assert (E : Z.of_nat (length counts) / 2 = Z.of_nat (length counts / 2)).
    { rewrite (Nat2Z.inj_div _ 2). reflexivity. }
    rewrite E. lia.
  - exact Hfit.
  - unfold m, Np.len, k in *. lia.
Qed.

Lemma ProcessSubject_posterior_witness :
  exists suite pmf g',
    ProcessSubject [7; 2; 1; 1] unit_rng = Ok ((suite, pmf), g') /\
    map fst pmf = range (Np.len [7; 2; 1; 1]) (Np.len [7; 2; 1; 1] + Np.len [7; 2; 1; 1] / 2) /\
    Np.sum (map snd pmf) = Fin 1%R /\
    Species2.params suite
    = map (Z.add 1) [7; 2; 1; 1] ++ repeat 1 (length [7; 2; 1; 1] / 2 - 1).
Proof.
  apply (ProcessSubject_posterior [7; 2; 1; 1] unit_rng).
  - simpl. lia.
  - repeat constructor; lia.
  - exact unit_rng_positive.
Defined.

(** X24.  Given the class of a flattened suite (Species2, Species3 or
    Species5), candidates [range(a, b)], a batch of at most [a] non-negative
    counts and positive draws, [MakePosterior] returns a distribution whose
    values are the candidates, in order and each once, and whose weights sum
    to one. *)
Theorem MakePosterior_flat_suites (v : flat_variant) (a b iterations : Z)
    (data : list Z) (g : rng) :
  1 <= a < b -> 0 < iterations -> positive_draws g ->
  data <> [] -> Np.len data <= a -> counts_fit data ->
  exists pmf g',
    MakePosterior (flat_class v) data (range a b) iterations g = Ok (pmf, g') /\
    map fst pmf = range a b /\
    Np.sum (map snd pmf) = Fin 1%R.
Proof.
  intros Hab Hit Hg Hne Hm Hfit. rewrite range_as_range_list.
  destruct (flat_posterior v a (Z.to_nat (b - a)) iterations data g) as
      (st & st' & g' & Hinit & Hupd & Hfst & Hsum & _); try assumption; try lia.
  exists (Species2.DistOfN st'), g'.
  split; [| split; assumption].
  unfold MakePosterior.
  destruct v; cbn [flat_class cls_init cls_Update cls_DistOfN cls_suite
                   Species2_class Species3_class Species5_class flat_Update] in *;
    unfold bind at 1, lift at 1; rewrite Hinit; unfold bind; rewrite Hupd; reflexivity.
Qed.

Lemma MakePosterior_flat_suites_witness :
  exists pmf g',
    MakePosterior (flat_class Flat3) [1; 2; 3] (range 3 20) 1000 unit_rng = Ok (pmf, g') /\
    map fst pmf = range 3 20 /\
    Np.sum (map snd pmf) = Fin 1%R.
Proof.
  apply (MakePosterior_flat_suites Flat3 3 20 1000 [1; 2; 3] unit_rng).
  - lia.
  - lia.
  - exact unit_rng_positive.
  - discriminate.
  - unfold Np.len. simpl. lia.
  - repeat constructor; lia.
Defined.

(** ** Train2: the power law prior *)

Lemma power_law_pos (alpha : R) (hypo : Z) : (0 < power_law alpha hypo)%R.
Proof. unfold power_law, Rpower. apply exp_pos. Qed.

Lemma float_pow_positive (hypo : Z) (alpha : R) :
  0 < hypo -> Train2.float_pow hypo (- alpha) = Return (Fin (power_law alpha hypo)).
Proof.
  intros Hh. unfold Train2.float_pow, power_law.
  destruct (Req_dec_T (- alpha) 0) as [E | _].
  - rewrite E. rewrite Rpower_O; [reflexivity |]. apply IZR_lt. exact Hh.
  - destruct (Z.ltb_spec 0 hypo); [reflexivity | lia].
Qed.

Lemma dict_set_entries {V} (k : Z) (v : V) (items : list (Z * V)) (P : Z * V -> Prop) :
  Forall P items -> P (k, v) -> Forall P (dict_set k v items).
Proof.
  induction 1 as [| [k' v'] items Hkv Hrest IH]; intros Hnew; simpl.
  - constructor; [exact Hnew | constructor].
  - destruct (k' =? k).
    + constructor; [exact Hnew | exact Hrest].
    + constructor; [exact Hkv | apply IH; exact Hnew].
Qed.

Lemma dict_set_keys {V} (k : Z) (v : V) (items : list (Z * V)) (h : Z) :
  In h (map fst (dict_set k v items)) <-> h = k \/ In h (map fst items).
Proof.
  induction items as [| [k' v'] items IH]; simpl.
  - intuition congruence.
  - destruct (Z.eqb_spec k' k) as [E | E]; simpl.
    + subst k'. intuition congruence.
    + rewrite IH. intuition congruence.
Qed.

Lemma set_all_positive (alpha : R) (hypos : list Z) :
  forall d : thinkbayes.Pmf Z,
    Forall (fun h => 0 < h) hypos -> power_law_table alpha d ->
    exists d',
      Train2.set_all hypos alpha d = Return d' /\
      power_law_table alpha d' /\
      (forall h, In h (map fst d') <-> In h hypos \/ In h (map fst d)).
Proof.
  induction hypos as [| hypo hypos IH]; intros d Hpos Hd.
  - exists d. split; [reflexivity |]. split; [exact Hd |].
    intros h. split; [auto | intros [[] | H]; exact H].
  - inversion Hpos as [| ? ? Hh Hpos']; subst.
    cbn [Train2.set_all]. rewrite float_pow_positive by exact Hh. cbn [obind].
    destruct (IH (dict_set hypo (Fin (power_law alpha hypo)) d) Hpos') as (d' & E & Hd' & Hk).
    { apply dict_set_entries; [exact Hd |]. split; [exact Hh | reflexivity]. }
    exists d'. split; [exact E |]. split; [exact Hd' |].
    intros h. rewrite Hk, dict_set_keys. simpl. split; intros H.
    + destruct H as [H | [H | H]]; auto.
    + destruct H as [[H | H] | H]; auto.
Qed.

Lemma power_law_table_weights (alpha : R) (d : thinkbayes.Pmf Z) :
  power_law_table alpha d -> Forall posfin (map snd d).
Proof.
  intros H. rewrite Forall_map. eapply Forall_impl; [| exact H].
  intros [h w] [_ E]. simpl in *. rewrite E. simpl. apply power_law_pos.
Qed.

(** The prior of [Train2] on positive hypotheses: what it returns. *)
Lemma Train2_init_positive (hypos : list Z) (alpha : R) :
  hypos <> [] -> Forall (fun h => 0 < h) hypos ->
  exists (d : thinkbayes.Pmf Z) (T : R),
    Train2.init hypos alpha
    = Return (map (fun hw => (fst hw, fdiv (snd hw) (Fin T))) d) /\
    power_law_table alpha d /\ d <> [] /\
    Np.sum (map snd d) = Fin T /\ (0 < T)%R /\
    (forall h, In h (map fst d) <-> In h hypos).
Proof.
  intros Hne Hpos.
  destruct (set_all_positive alpha hypos [] Hpos) as (d & E & Hd & Hk); [constructor |].
  assert (Hdne : d <> []).
  { intros Ed. subst d. destruct hypos as [| h hypos]; [congruence |].
    destruct (Hk h) as [_ H]. apply H. left. left. reflexivity. }
  pose proof (power_law_table_weights alpha d Hd) as Hw.
  assert (Hmne : map snd d <> []).
  { intros Em. apply map_eq_nil in Em. contradiction. }
  pose proof (sum_posfin (map snd d) Hw Hmne) as Hsum.
  destruct (posfin_inv _ Hsum) as (T & ET & HT).
  exists d, T. split.
  { unfold Train2.init. rewrite E. cbn [obind]. unfold thinkbayes.Normalize.
    cbn [fst]. unfold thinkbayes.Total. rewrite ET. reflexivity. }
  split; [exact Hd |]. split; [exact Hdne |]. split; [exact ET |]. split; [exact HT |].
  intros h. rewrite Hk. simpl. split; [intros [H | []]; exact H | auto].
Qed.

(** X25.  On a list of positive hypotheses that is not empty, [Train2]
    builds a distribution: its values are the hypotheses, its weights are
    positive and sum to one, whether or not a hypothesis is listed twice. *)
Theorem Train2_prior_is_a_distribution (hypos : list Z) (alpha : R) :
  hypos <> [] -> Forall (fun h => 0 < h) hypos ->
  exists pmf,
    Train2.init hypos alpha = Return pmf /\
    (forall h, In h (map fst pmf) <-> In h hypos) /\
    Forall posfin (map snd pmf) /\
    Np.sum (map snd pmf) = Fin 1%R.
Proof.
  intros Hne Hpos.
  destruct (Train2_init_positive hypos alpha Hne Hpos)
    as (d & T & E & Hd & Hdne & HT & HTpos & Hk).
  eexists. split; [exact E |].
  split.
  { intros h. rewrite map_map. cbn [fst]. apply Hk. }
  pose proof (power_law_table_weights alpha d Hd) as Hw.
  assert (Hmne : map snd d <> []).
  { intros Em. apply map_eq_nil in Em. contradiction. }
  destruct (normalized_sum (map snd d) Hw Hmne) as [Hp Hs].
  cbv zeta in Hp, Hs. rewrite HT in Hp, Hs.
  rewrite map_map in Hp, Hs. rewrite map_map. cbn [snd].
  split; assumption.
Qed.

Lemma Train2_prior_is_a_distribution_witness :
  exists pmf,
    Train2.init [1; 2; 3; 2] 1 = Return pmf /\
    (forall h, In h (map fst pmf) <-> In h [1; 2; 3; 2]) /\
    Forall posfin (map snd pmf) /\
    Np.sum (map snd pmf) = Fin 1%R.
Proof.
  apply (Train2_prior_is_a_distribution [1; 2; 3; 2] 1).
  - discriminate.
  - repeat constructor; lia.
Defined.




(** X27.  With a positive exponent, [Train2] cannot take the hypothesis 0:
    on hypotheses that are not negative and include 0, it ends in
    [ZeroDivisionError]. *)
Theorem Train2_rejects_zero (hypos : list Z) (alpha : R) :
  Forall (fun h => 0 <= h) hypos -> In 0 hypos -> (0 < alpha)%R ->
  Train2.init hypos alpha = Throw ZeroDivisionError.
Proof.
  intros Hnn Hin Ha. unfold Train2.init.
  assert (H : forall d, Train2.set_all hypos alpha d = Throw ZeroDivisionError).
  { induction hypos as [| h hypos IH]; intros d; [inversion Hin |].
    inversion Hnn as [| ? ? Hh Hnn']; subst.
    cbn [Train2.set_all]. destruct (Z.eq_dec h 0) as [-> | Hh0].
    - unfold Train2.float_pow.
      destruct (Req_dec_T (- alpha) 0) as [E | _]; [lra |].
      cbn [Z.ltb Z.compare Z.eqb].
      destruct (Rlt_dec (- alpha) 0) as [_ | Hn]; [reflexivity | exfalso; apply Hn; lra].
    - rewrite float_pow_positive by lia. cbn [obind]. apply IH; [exact Hnn' |].
      destruct Hin as [E | Hin]; [congruence | exact Hin]. }
  rewrite H. reflexivity.
Qed.

Lemma Train2_rejects_zero_witness :
  Train2.init [0; 1; 2] 1 = Throw ZeroDivisionError.
Proof.
  apply (Train2_rejects_zero [0; 1; 2] 1).
  - repeat constructor; lia.
  - left. reflexivity.
  - lra.
Defined.
